(** * examide: the guest-execution host runtime

    A shallow embedding of the worker-side JavaScript of the examide
    browser IDE: the linear-memory accessor ([Memory]), the in-memory
    filesystem bridge ([MemFS]), the WASI process surface ([App]), the
    archive loader ([Tar]) and the Python front end's diagnostic
    formatter ([formatErrorMsg]).

    Conventions of the embedding.
    - A JavaScript number that holds an integer is a [Z]; 32-bit
      conversions ([>>], [&], stores into a [Uint32Array]) are written
      out with their wrap-around.
    - A JavaScript string whose code units are below 256 is a [string];
      these are the strings [readStr] builds from bytes, and the ASCII
      file names and messages the runtime handles.  Where a string of
      any UTF-16 code units reaches a byte buffer ([writeStr_units],
      [deliver_units]) it is the [list Z] of its code units.
    - The contents of an [ArrayBuffer] are a [list Z] of bytes; the
      value [undefined] read from a typed array is [None].
    - A method that mutates [this] takes the object and returns the new
      one; a method that can throw returns a [result].
    - The filesystem guest module, whose bytecode is not among the
      sources, is a parameter of [MemFS] ([MemfsExports]); [memfs_guest]
      models it from the specification. *)

From Stdlib Require Import ZArith List String Ascii Lia Bool DecimalString.
Import ListNotations.
Open Scope string_scope.
Open Scope list_scope.
Open Scope Z_scope.

(** ** Exceptions and results *)

(** The error classes declared by the runtime, and the two kinds of error
    the engine itself raises ([RangeError] for a typed-array view outside
    its buffer or a string past the length limit, [RuntimeError] for a
    guest trap).  The wording of the engine's own messages is carried as
    data. *)
Inductive exn : Type :=
| ProcExit (code : Z)
| NotImplemented (modname fieldname : string)
| AbortError (msg : string)
| AssertError (msg : string)
| RangeError (msg : string)
| RuntimeError (msg : string).

Inductive result (A : Type) : Type :=
| Ok (a : A)
| Throw (e : exn).
Arguments Ok {A} a.
Arguments Throw {A} e.

Definition bind {A B : Type} (r : result A) (k : A -> result B) : result B :=
  match r with
  | Ok a => k a
  | Throw e => Throw e
  end.

Notation "'let*' x ':=' r 'in' k" := (bind r (fun x => k))
  (at level 10, x pattern, r at level 100, k at level 200).

(** [`${n}`] for an integer [n]. *)
Definition dec (n : Z) : string := NilZero.string_of_int (Z.to_int n).

(** [exn.message], as set by each class's constructor. *)
Definition message (e : exn) : string :=
  match e with
  | ProcExit code => "process exited with code " ++ dec code ++ "."
  | NotImplemented modname fieldname => modname ++ "." ++ fieldname ++ " not implemented."
  | AbortError msg => msg
  | AssertError msg => msg
  | RangeError msg => msg
  | RuntimeError msg => msg
  end.

(** [assert(cond)]. *)
Definition assert (cond : bool) : result unit :=
  if cond then Ok tt else Throw (AssertError "assertion failed.").

Definition ESUCCESS : Z := 0.

(** ** Strings and bytes *)

Definition strlen (s : string) : Z := Z.of_nat (String.length s).
Definition len {A : Type} (l : list A) : Z := Z.of_nat (List.length l).

(** [String.fromCharCode(b)] for a byte [b], and [x.charCodeAt(0)]. *)
Definition fromCharCode (b : Z) : ascii := ascii_of_N (Z.to_N (b mod 256)).
Definition charCode (c : ascii) : Z := Z.of_N (N_of_ascii c).

(** [str.split('').map(x => x.charCodeAt(0))]. *)
Definition char_codes (s : string) : list Z := map charCode (list_ascii_of_string s).

Definition LF : string := String (ascii_of_nat 10) "".
Definition ESC : string := String (ascii_of_nat 27) "".

(** [a[i]] for a typed array [a]: [undefined] outside the array. *)
Definition typed_get (a : list Z) (i : Z) : option Z :=
  if i <? 0 then None else nth_error a (Z.to_nat i).

(** The loop of [readStr]: [fuel] is the number of indices left before
    [end].  Outside the array [u8[i]] is [undefined], which is [!= 0] and
    which [String.fromCharCode] turns into the character 0. *)
Fixpoint readStr_loop (fuel : nat) (u8 : list Z) (i : Z) : string :=
  match fuel with
  | O => ""
  | S fuel' =>
      match typed_get u8 i with
      | Some 0 => ""
      | Some b => String (fromCharCode b) (readStr_loop fuel' u8 (i + 1))
      | None => String (fromCharCode 0) (readStr_loop fuel' u8 (i + 1))
      end
  end.

(** [function readStr(u8, o, len = -1)]. *)
Definition readStr (u8 : list Z) (o : Z) (len : Z) : string :=
  let end_ := if len =? -1 then Z.of_nat (List.length u8) else o + len in
  readStr_loop (Z.to_nat (end_ - o)) u8 o.

(** ** Memory *)

(** [class Memory]: the byte view [u8] of the buffer; the [u32] view is
    derived from the same bytes (little endian).  [check()] re-binds both
    views to the live buffer after the guest has grown its memory; the
    model always holds the live buffer. *)
Record Memory : Type := mkMemory { u8 : list Z }.

Definition byteLength (m : Memory) : Z := len (u8 m).

Definition check (m : Memory) : Memory := m.

(** [ToInt32], and [o >> 2]. *)
Definition to_int32 (z : Z) : Z := (z + 2 ^ 31) mod 2 ^ 32 - 2 ^ 31.
Definition sar2 (o : Z) : Z := Z.shiftr (to_int32 o) 2.

(** [firstn i a ++ bs ++ rest]: the array [a] with [bs] stored from index [i]. *)
Definition splice (a : list Z) (i : nat) (bs : list Z) : list Z :=
  firstn i a ++ bs ++ skipn (i + List.length bs) a.

Definition le32 (v : Z) : list Z :=
  [v mod 256; (v / 256) mod 256; (v / 65536) mod 256; (v / 16777216) mod 256].

(** [u32[k]] and [u32[k] = v] on the bytes of the buffer. *)
Definition u32_get (a : list Z) (k : Z) : option Z :=
  if (k <? 0) || (len a <? 4 * k + 4) then None
  else match firstn 4 (skipn (Z.to_nat (4 * k)) a) with
       | [b0; b1; b2; b3] => Some (b0 + 256 * b1 + 65536 * b2 + 16777216 * b3)
       | _ => None
       end.

Definition u32_set (a : list Z) (k : Z) (v : Z) : list Z :=
  if (k <? 0) || (len a <? 4 * k + 4) then a
  else splice a (Z.to_nat (4 * k)) (le32 (v mod 2 ^ 32)).

Definition read8 (m : Memory) (o : Z) : option Z := typed_get (u8 m) o.
Definition read32 (m : Memory) (o : Z) : option Z := u32_get (u8 m) (sar2 o).

Definition write8 (m : Memory) (o : Z) (v : Z) : Memory :=
  if (o <? 0) || (byteLength m <=? o) then m
  else mkMemory (splice (u8 m) (Z.to_nat o) [v mod 256]).

Definition write32 (m : Memory) (o : Z) (v : Z) : Memory :=
  mkMemory (u32_set (u8 m) (sar2 o) v).

Definition write64 (m : Memory) (o : Z) (vlo vhi : Z) : Memory :=
  write32 (write32 m o vlo) (o + 4) vhi.

Definition Memory_readStr (m : Memory) (o : Z) (len : Z) : string :=
  readStr (u8 m) o len.

(** What [Memory.write] accepts: an [ArrayBuffer] or a byte collection,
    or a string. *)
Inductive buf : Type :=
| Bytes (bs : list Z)
| Text (s : string).

(** The last branch of [write]: [new Uint8Array(this.buffer, o, buf.length)]
    throws a [RangeError] unless the view lies inside the buffer;
    [dst.set(buf)] stores each element modulo 256. *)
Definition write_array (m : Memory) (o : Z) (bs : list Z) : result (Memory * Z) :=
  if (o <? 0) || (byteLength m <? o + len bs)
  then Throw (RangeError "Invalid typed array length")
  else Ok (mkMemory (splice (u8 m) (Z.to_nat o) (map (fun b => b mod 256) bs)), len bs).

Definition write (m : Memory) (o : Z) (b : buf) : result (Memory * Z) :=
  match b with
  | Bytes bs => write_array m o bs
  | Text s => write_array m o (char_codes s)
  end.

(** [writeStr(o, str)]: a null-terminated string. *)
Definition writeStr (m : Memory) (o : Z) (str : string) : result (Memory * Z) :=
  let* (m1, n) := write m o (Text str) in
  let o := o + n in
  let m2 := write8 m1 o 0 in
  Ok (m2, strlen str + 1).

(** [writeStr(o, str)] for a string given by its UTF-16 code units.  For a
    string, [write] stores [buf.split('').map(x => x.charCodeAt(0))], the
    array of the code units, through its last branch, and [str.length] is
    the number of units.  [writeStr m o s] is the case of the units
    [char_codes s], all below 256. *)
Definition writeStr_units (m : Memory) (o : Z) (units : list Z) : result (Memory * Z) :=
  let* (m1, n) := write m o (Bytes units) in
  let o := o + n in
  let m2 := write8 m1 o 0 in
  Ok (m2, len units + 1).

(** The bytes [u8[o] .. u8[o + n - 1]], read one by one with [read8]. *)
Fixpoint read_bytes (m : Memory) (o : Z) (n : nat) : list (option Z) :=
  match n with
  | O => []
  | S n' => read8 m o :: read_bytes m (o + 1) n'
  end.

(** ** MemFS *)

(** What the worker sends to the controlling thread and to the console:
    [hostWrite(text)], [hostRead()] and [console.log(text)]. *)
Inductive event : Type :=
| EvWrite (text : string)
| EvReadStdin
| EvConsoleLog (text : string).

(** The exports of the filesystem guest module that [MemFS] calls.  The
    module is opaque bytecode: each export is a function of the guest's
    memory and its arguments that returns the memory it leaves and an
    [i32], or throws (a trap, or the [abort] import). *)
Record MemfsExports : Type := mkMemfsExports {
  GetPathBuf : Memory -> result (Memory * Z);
  AddDirectoryNode : Memory -> Z -> result (Memory * Z);
  AddFileNode : Memory -> Z -> Z -> result (Memory * Z);
  FindNode : Memory -> Z -> result (Memory * Z);
  GetFileNodeAddress : Memory -> Z -> result (Memory * Z);
  GetFileNodeSize : Memory -> Z -> result (Memory * Z)
}.

(** [class MemFS].  [stdinStrPos] is a JavaScript number that can become
    [NaN] ([None]); [sharedMem] is the buffer of the stdin mailbox;
    [mem] is the memory of the filesystem guest and [hostMem_] that of the
    running guest; [trace] records the calls to the host callbacks, oldest
    first. *)
Record MemFS : Type := mkMemFS {
  stdinStr : string;
  stdinStrPos : option Z;
  sharedMem : list Z;
  exports : MemfsExports;
  mem : Memory;
  hostMem_ : Memory;
  trace : list event
}.

Definition set_mem (fs : MemFS) (m : Memory) : MemFS :=
  mkMemFS (stdinStr fs) (stdinStrPos fs) (sharedMem fs) (exports fs) m (hostMem_ fs) (trace fs).

Definition set_hostMem (fs : MemFS) (m : Memory) : MemFS :=
  mkMemFS (stdinStr fs) (stdinStrPos fs) (sharedMem fs) (exports fs) (mem fs) m (trace fs).

Definition set_sharedMem (fs : MemFS) (shared : list Z) : MemFS :=
  mkMemFS (stdinStr fs) (stdinStrPos fs) shared (exports fs) (mem fs) (hostMem_ fs) (trace fs).

Definition set_stdinStrPos (fs : MemFS) (pos : option Z) : MemFS :=
  mkMemFS (stdinStr fs) pos (sharedMem fs) (exports fs) (mem fs) (hostMem_ fs) (trace fs).

Definition emit (fs : MemFS) (e : event) : MemFS :=
  mkMemFS (stdinStr fs) (stdinStrPos fs) (sharedMem fs) (exports fs) (mem fs) (hostMem_ fs)
          (trace fs ++ [e]).

Definition hostWrite (fs : MemFS) (text : string) : MemFS := emit fs (EvWrite text).
Definition hostRead (fs : MemFS) : MemFS := emit fs EvReadStdin.

(** [setStdinStr(str)]. *)
Definition setStdinStr (fs : MemFS) (str : string) : MemFS :=
  mkMemFS str (Some 0) (sharedMem fs) (exports fs) (mem fs) (hostMem_ fs) (trace fs).

(** A call of a guest export on [this.mem]. *)
Definition call_guest (fs : MemFS) (f : Memory -> result (Memory * Z)) : MemFS * result Z :=
  match f (mem fs) with
  | Ok (m, v) => (set_mem fs m, Ok v)
  | Throw e => (fs, Throw e)
  end.

(** [this.mem.write(this.exports.GetPathBuf(), path)]. *)
Definition write_path (fs : MemFS) (path : string) : MemFS * result unit :=
  match call_guest fs (GetPathBuf (exports fs)) with
  | (fs, Throw e) => (fs, Throw e)
  | (fs, Ok pathBuf) =>
      match write (mem fs) pathBuf (Text path) with
      | Throw e => (fs, Throw e)
      | Ok (m, _) => (set_mem fs m, Ok tt)
      end
  end.

(** [addDirectory(path)]. *)
Definition addDirectory (fs : MemFS) (path : string) : MemFS * result unit :=
  match write_path fs path with
  | (fs, Throw e) => (fs, Throw e)
  | (fs, Ok _) =>
      match call_guest fs (fun m => AddDirectoryNode (exports fs) m (strlen path)) with
      | (fs, Throw e) => (fs, Throw e)
      | (fs, Ok _) => (fs, Ok tt)
      end
  end.

(** [addFile(path, contents)]. *)
Definition addFile (fs : MemFS) (path : string) (contents : buf) : MemFS * result unit :=
  let length := match contents with Bytes bs => len bs | Text s => strlen s end in
  match write_path fs path with
  | (fs, Throw e) => (fs, Throw e)
  | (fs, Ok _) =>
      match call_guest fs (fun m => AddFileNode (exports fs) m (strlen path) length) with
      | (fs, Throw e) => (fs, Throw e)
      | (fs, Ok inode) =>
          match call_guest fs (fun m => GetFileNodeAddress (exports fs) m inode) with
          | (fs, Throw e) => (fs, Throw e)
          | (fs, Ok addr) =>
              match write (mem fs) addr contents with
              | Throw e => (fs, Throw e)
              | Ok (m, _) => (set_mem fs m, Ok tt)
              end
          end
      end
  end.

(** A [Uint8Array] over a buffer: where it starts and how many bytes it
    spans.  The view is live: its contents are read from the buffer. *)
Record Uint8ArrayView : Type := mkView { byteOffset : Z; view_length : Z }.

Definition view_contents (m : Memory) (v : Uint8ArrayView) : list Z :=
  firstn (Z.to_nat (view_length v)) (skipn (Z.to_nat (byteOffset v)) (u8 m)).

(** [new Uint8Array(buffer, byteOffset, length)]: a [RangeError] unless the
    view lies inside the buffer. *)
Definition new_Uint8Array (m : Memory) (byteOffset length : Z) : result Uint8ArrayView :=
  if (byteOffset <? 0) || (length <? 0) || (byteLength m <? byteOffset + length)
  then Throw (RangeError "Invalid typed array length")
  else Ok (mkView byteOffset length).

(** [getFileContents(path)]. *)
Definition getFileContents (fs : MemFS) (path : string) : MemFS * result Uint8ArrayView :=
  match write_path fs path with
  | (fs, Throw e) => (fs, Throw e)
  | (fs, Ok _) =>
      match call_guest fs (fun m => FindNode (exports fs) m (strlen path)) with
      | (fs, Throw e) => (fs, Throw e)
      | (fs, Ok inode) =>
          match call_guest fs (fun m => GetFileNodeAddress (exports fs) m inode) with
          | (fs, Throw e) => (fs, Throw e)
          | (fs, Ok addr) =>
              match call_guest fs (fun m => GetFileNodeSize (exports fs) m inode) with
              | (fs, Throw e) => (fs, Throw e)
              | (fs, Ok size) => (fs, new_Uint8Array (mem fs) addr size)
              end
          end
      end
  end.

(** [abort()]. *)
Definition abort : result unit := Throw (AbortError "abort").

(** *** The bridged syscalls *)

(** A number read from a typed array, or [undefined]; and a number that
    arithmetic on [undefined] has turned into [NaN]. *)
Definition or_zero (v : option Z) : Z :=
  match v with Some z => z | None => 0 end.

Definition js_add (a b : option Z) : option Z :=
  match a, b with
  | Some x, Some y => Some (x + y)
  | _, _ => None
  end.

(** [this.hostMem_.readStr(buf, len)] on values read from memory: an
    [undefined] length selects the default [-1], and with an [undefined]
    start the loop condition is false at once. *)
Definition readStr_value (m : Memory) (buf len : option Z) : string :=
  match buf with
  | None => ""
  | Some o => Memory_readStr m o (match len with Some l => l | None => -1 end)
  end.

(** The loop of [host_write] over the [iovs_len] descriptors at [iovs]. *)
Fixpoint host_write_loop (n : nat) (m : Memory) (iovs : Z) (str : string) (size : option Z)
  : string * option Z :=
  match n with
  | O => (str, size)
  | S n' =>
      let buf := read32 m iovs in
      let iovs := iovs + 4 in
      let len := read32 m iovs in
      let iovs := iovs + 4 in
      host_write_loop n' m iovs (str ++ readStr_value m buf len) (js_add size len)
  end.

(** [host_write(fd, iovs, iovs_len, nwritten_out)]. *)
Definition host_write (fs : MemFS) (fd iovs iovs_len nwritten_out : Z) : MemFS * result Z :=
  let fs := set_hostMem fs (check (hostMem_ fs)) in
  match assert (fd <=? 2) with
  | Throw e => (fs, Throw e)
  | Ok _ =>
      let '(str, size) := host_write_loop (Z.to_nat iovs_len) (hostMem_ fs) iovs "" (Some 0) in
      let fs := set_hostMem fs (write32 (hostMem_ fs) nwritten_out (or_zero size)) in
      let fs := hostWrite fs str in
      (fs, Ok ESUCCESS)
  end.

(** The controlling thread's answer to a [readStdin] request: the bytes of
    the submitted line, then a null terminator, stored from the start of
    the shared buffer (a store outside the buffer does nothing). *)
Fixpoint store_from (view : list Z) (i : nat) (bs : list Z) : list Z :=
  match bs with
  | [] => view
  | b :: bs' =>
      store_from (if (i <? List.length view)%nat then splice view i [b mod 256] else view)
                 (S i) bs'
  end.

(** [view[i] = value.charCodeAt(i)] for each UTF-16 code unit of the
    submitted line, which the byte view keeps modulo 256, then
    [view[value.length] = 0]. *)
Definition deliver_units (units : list Z) (shared : list Z) : list Z :=
  store_from shared 0 (units ++ [0]).

(** The delivery of a line of characters below 256. *)
Definition deliver (value : string) (shared : list Z) : list Z :=
  deliver_units (char_codes value) shared.

(** [Atomics.wait(new Int32Array(buffer), 0, 0)].  [input] is the line the
    controlling thread delivers (followed by [Atomics.notify]) while the
    worker is suspended, if any. *)
Inductive wait_result : Type :=
| WaitNotEqual
| WaitOk (shared : list Z)
| WaitForever
| WaitRangeError.

Definition Atomics_wait (shared : list Z) (input : option string) : wait_result :=
  match u32_get shared 0 with
  | None => WaitRangeError
  | Some 0 =>
      match input with
      | Some value => WaitOk (deliver value shared)
      | None => WaitForever
      end
  | Some _ => WaitNotEqual
  end.

(** The scan of the shared buffer for the payload.  Past the end of the
    buffer [sharedMem[i]] is [undefined], never [=== 0]: the loop then only
    ends when the string outgrows the engine's limit ([None]). *)
Fixpoint scan_payload (sharedMem : list Z) : option string :=
  match sharedMem with
  | [] => None
  | b :: rest =>
      if b =? 0 then Some ""
      else match scan_payload rest with
           | Some str => Some (String (fromCharCode b) str)
           | None => None
           end
  end.

(** [sharedMem.fill(0)]. *)
Definition fill0 (sharedMem : list Z) : list Z := repeat 0 (List.length sharedMem).

(** [str.substr(start, length)]. *)
Definition substr (str : string) (start length : Z) : string :=
  substring (Z.to_nat start) (Z.to_nat length) str.

(** The loop of [host_read]: the memory and [stdinStrPos] it leaves, and
    [size] unless [write] threw. *)
Fixpoint host_read_loop (n : nat) (m : Memory) (iovs : Z) (stdinStr : string)
  (stdinStrPos size : Z) : Memory * option Z * result (option Z) :=
  match n with
  | O => (m, Some stdinStrPos, Ok (Some size))
  | S n' =>
      let buf := read32 m iovs in
      let iovs := iovs + 4 in
      let len := read32 m iovs in
      let iovs := iovs + 4 in
      match len with
      | None =>
          (* lenToWrite is NaN: not === 0, and !== len *)
          match write m (or_zero buf) (Text "") with
          | Throw e => (m, Some stdinStrPos, Throw e)
          | Ok (m, _) => (m, None, Ok None)
          end
      | Some len =>
          let lenToWrite := Z.min len (strlen stdinStr - stdinStrPos) in
          if lenToWrite =? 0 then (m, Some stdinStrPos, Ok (Some size))
          else
            match write m (or_zero buf) (Text (substr stdinStr stdinStrPos lenToWrite)) with
            | Throw e => (m, Some stdinStrPos, Throw e)
            | Ok (m, _) =>
                let size := size + lenToWrite in
                let stdinStrPos := stdinStrPos + lenToWrite in
                if negb (lenToWrite =? len) then (m, Some stdinStrPos, Ok (Some size))
                else host_read_loop n' m iovs stdinStr stdinStrPos size
            end
      end
  end.

(** How a call of [host_read] ends: it never returns, or it returns or
    throws. *)
Inductive outcome : Type :=
| Blocked (fs : MemFS)
| Completed (fs : MemFS) (r : result Z).

(** [host_read(fd, iovs, iovs_len, nread)]. *)
Definition host_read (input : option string) (fs : MemFS) (fd iovs iovs_len nread : Z)
  : outcome :=
  let fs := hostRead fs in
  let woken :=
    match Atomics_wait (sharedMem fs) input with
    | WaitForever => None
    | WaitRangeError => Some (Throw (RangeError "Invalid atomic access index"))
    | WaitNotEqual => Some (Ok (sharedMem fs))
    | WaitOk shared => Some (Ok shared)
    end in
  match woken with
  | None => Blocked fs
  | Some (Throw e) => Completed fs (Throw e)
  | Some (Ok sharedMem) =>
      let fs := set_sharedMem fs sharedMem in
      match scan_payload sharedMem with
      | None => Completed fs (Throw (RangeError "Invalid string length"))
      | Some str =>
          let fs := setStdinStr fs str in
          let fs := set_sharedMem fs (fill0 sharedMem) in
          let fs := set_hostMem fs (check (hostMem_ fs)) in
          match assert (fd =? 0) with
          | Throw e => Completed fs (Throw e)
          | Ok _ =>
              let '(m, pos, r) :=
                host_read_loop (Z.to_nat iovs_len) (hostMem_ fs) iovs (stdinStr fs) 0 0 in
              let fs := set_stdinStrPos (set_hostMem fs m) pos in
              match r with
              | Throw e => Completed fs (Throw e)
              | Ok size =>
                  Completed (set_hostMem fs (write32 (hostMem_ fs) nread (or_zero size)))
                            (Ok ESUCCESS)
              end
          end
      end
  end.

(** ** App *)

Definition RAF_PROC_EXIT_CODE : Z := 0xC0C0A.

(** [class App]: one instantiation of a guest module.  [_start] is the
    guest's entry point: opaque bytecode that runs against the filesystem
    object (whose [hostMem_] is the guest's own memory) and returns or
    throws.  [this.mem] is the same object as [this.memfs.hostMem_]. *)
Record App : Type := mkApp {
  argv : list string;
  environ : list (string * string);
  memfs : MemFS;
  allowRequestAnimationFrame : bool;
  _start : MemFS -> MemFS * result unit
}.

Definition set_memfs (app : App) (fs : MemFS) : App :=
  mkApp (argv app) (environ app) fs (allowRequestAnimationFrame app) (_start app).

Definition set_allowRequestAnimationFrame (app : App) (b : bool) : App :=
  mkApp (argv app) (environ app) (memfs app) b (_start app).

Definition console_log (app : App) (text : string) : App :=
  set_memfs app (emit (memfs app) (EvConsoleLog text)).

(** [proc_exit(code)], [clock_time_get(...)] and [poll_oneoff(...)]. *)
Definition proc_exit (app : App) (code : Z) : App * result Z :=
  (app, Throw (ProcExit code)).

Definition clock_time_get (app : App) (clock_id precision time_out : Z) : App * result Z :=
  (app, Throw (NotImplemented "wasi_unstable" "clock_time_get")).

Definition poll_oneoff (app : App) (in_ptr out_ptr nsubscriptions nevents_out : Z)
  : App * result Z :=
  (app, Throw (NotImplemented "wasi_unstable" "poll_oneoff")).

Section Run.

(** [exn.stack], the engine's rendering of the call stack. *)
Variable stack : exn -> string.

(** The error message [run] writes for [exn]. *)
Definition error_msg (exn : exn) (writeStack : bool) : string :=
  let msg := (ESC ++ "[91mError: " ++ message exn)%string in
  let msg := if writeStack then (msg ++ LF ++ stack exn)%string else msg in
  (msg ++ ESC ++ "[0m" ++ LF)%string.

(** The end of the [catch] block: write the message, propagate. *)
Definition write_error (app : App) (exn : exn) (writeStack : bool)
  : App * result (option bool) :=
  let msg := error_msg exn writeStack in
  let app := set_memfs app (hostWrite (memfs app) msg) in
  (app, Throw exn).

(** [async run()].  The value is [undefined] ([None]) when [_start]
    returns. *)
Definition run (app : App) : App * result (option bool) :=
  match _start app (memfs app) with
  | (fs, Ok _) => (set_memfs app fs, Ok None)
  | (fs, Throw exn) =>
      let app := set_memfs app fs in
      match exn with
      | ProcExit code =>
          if code =? RAF_PROC_EXIT_CODE then
            (console_log app "Allowing rAF after exit.", Ok (Some true))
          else
            let app :=
              console_log app ("Disallowing rAF since exit code is " ++ dec code ++ ".") in
            let app := set_allowRequestAnimationFrame app false in
            if code =? 0 then (app, Ok (Some false))
            else write_error app exn false
      | _ => write_error app exn true
      end
  end.

(** [API.run]: [stillRunning ? app : null]. *)
Definition API_run (app : App) : result (option App) :=
  match run app with
  | (app, Ok (Some true)) => Ok (Some app)
  | (_, Ok _) => Ok None
  | (_, Throw e) => Throw e
  end.

End Run.

(** The texts passed to [hostWrite], oldest first. *)
Fixpoint writes (t : list event) : list string :=
  match t with
  | [] => []
  | EvWrite text :: t' => text :: writes t'
  | _ :: t' => writes t'
  end.

(** [needle] occurs in [s]. *)
Definition contains (s needle : string) : Prop :=
  exists before after, s = (before ++ needle ++ after)%string.

(** ** Tar *)

(** [parseInt(s, 8)]: leading white space, an optional sign, then the
    longest run of octal digits; [NaN] ([None]) when there is none. *)
Definition is_white_space (c : ascii) : bool :=
  let n := charCode c in
  ((9 <=? n) && (n <=? 13)) || (n =? 32) || (n =? 160).

Fixpoint trim_start (s : string) : string :=
  match s with
  | String c s' => if is_white_space c then trim_start s' else s
  | EmptyString => s
  end.

Definition octal_digit (c : ascii) : option Z :=
  let n := charCode c in
  if (48 <=? n) && (n <=? 55) then Some (n - 48) else None.

Fixpoint octal_digits (s : string) (acc : option Z) : option Z :=
  match s with
  | String c s' =>
      match octal_digit c with
      | Some d => octal_digits s' (Some (8 * or_zero acc + d))
      | None => acc
      end
  | EmptyString => acc
  end.

Definition parseInt8 (s : string) : option Z :=
  match trim_start s with
  | String "-" s' => option_map Z.opp (octal_digits s' None)
  | String "+" s' => octal_digits s' None
  | s' => octal_digits s' None
  end.

(** [class Tar]: the archive bytes and the read offset. *)
Record Tar : Type := mkTar { tar_u8 : list Z; offset : Z }.

(** [readStr(len)] and [readOctal(len)]. *)
Definition Tar_readStr (t : Tar) (len : Z) : Tar * string :=
  let result := readStr (tar_u8 t) (offset t) len in
  (mkTar (tar_u8 t) (offset t + len), result).

Definition Tar_readOctal (t : Tar) (len : Z) : Tar * option Z :=
  let '(t, s) := Tar_readStr t len in
  (t, parseInt8 s).

(** [(offset + 511) & ~511] on 32-bit integers; [NaN] converts to 0. *)
Definition align512 (offset : option Z) : Z :=
  Z.land (to_int32 (or_zero (js_add offset (Some 511)))) (-512).

Definition alignUp (t : Tar) : Tar := mkTar (tar_u8 t) (align512 (Some (offset t))).

(** [u8.subarray(begin, end)]: both ends are clamped to the array, a
    negative one counts from its end, and [NaN] is 0. *)
Definition clamp_index (n : Z) (i : option Z) : Z :=
  match i with
  | None => 0
  | Some i => if i <? 0 then Z.max (n + i) 0 else Z.min i n
  end.

Definition subarray (a : list Z) (begin end_ : option Z) : list Z :=
  let b := clamp_index (len a) begin in
  let e := clamp_index (len a) end_ in
  firstn (Z.to_nat (e - b)) (skipn (Z.to_nat b) a).

Record entry : Type := mkEntry {
  filename : string;
  mode : option Z;
  owner : option Z;
  group : option Z;
  size : option Z;
  mtim : option Z;
  checksum : option Z;
  type : string;
  linkname : string;
  ownerName : string;
  groupName : string;
  devMajor : string;
  devMinor : string;
  filenamePrefix : string;
  contents : option (list Z)
}.

(** [readEntry()]: [null] ([None]) at the end of the archive, the entry,
    or an [AssertError]; with what it prints on the console. *)
Definition readEntry (t : Tar) : Tar * list event * result (option entry) :=
  if len (tar_u8 t) <? offset t + 512 then (t, [], Ok None)
  else
    let '(t, filename) := Tar_readStr t 100 in
    let '(t, mode) := Tar_readOctal t 8 in
    let '(t, owner) := Tar_readOctal t 8 in
    let '(t, group) := Tar_readOctal t 8 in
    let '(t, size) := Tar_readOctal t 12 in
    let '(t, mtim) := Tar_readOctal t 12 in
    let '(t, checksum) := Tar_readOctal t 8 in
    let '(t, type) := Tar_readStr t 1 in
    let '(t, linkname) := Tar_readStr t 100 in
    let '(t, magic) := Tar_readStr t 8 in
    if negb (magic =? "ustar  ")%string then (t, [], Ok None)
    else
      let '(t, ownerName) := Tar_readStr t 32 in
      let '(t, groupName) := Tar_readStr t 32 in
      let '(t, devMajor) := Tar_readStr t 8 in
      let '(t, devMinor) := Tar_readStr t 8 in
      let '(t, filenamePrefix) := Tar_readStr t 155 in
      let t := alignUp t in
      let entry := mkEntry filename mode owner group size mtim checksum type linkname
                     ownerName groupName devMajor devMinor filenamePrefix in
      if (type =? "0")%string then
        let contents :=
          subarray (tar_u8 t) (Some (offset t)) (js_add (Some (offset t)) size) in
        let t := mkTar (tar_u8 t) (align512 (js_add (Some (offset t)) size)) in
        (t, [], Ok (Some (entry (Some contents))))
      else if negb (type =? "5")%string then
        (t, [EvConsoleLog ("type " ++ type)],
         match assert false with
         | Throw e => Throw e
         | Ok _ => Ok (Some (entry None))
         end)
      else (t, [], Ok (Some (entry None))).

(** The [switch] of [untar]: what one entry does to the filesystem. *)
Definition untar_entry (memfs : MemFS) (entry : entry) : MemFS * result unit :=
  if (type entry =? "0")%string then
    addFile memfs (filename entry)
            (Bytes (match contents entry with Some c => c | None => [] end))
  else if (type entry =? "5")%string then addDirectory memfs (filename entry)
  else (memfs, Ok tt).

(** [untar(memfs)]; [fuel] bounds the number of entries read, [None] when
    it runs out. *)
Fixpoint untar (fuel : nat) (t : Tar) (memfs : MemFS) : option (Tar * MemFS * result unit) :=
  match fuel with
  | O => None
  | S fuel' =>
      match readEntry t with
      | (t, log, Throw e) => Some (t, fold_left emit log memfs, Throw e)
      | (t, log, Ok None) => Some (t, fold_left emit log memfs, Ok tt)
      | (t, log, Ok (Some entry)) =>
          match untar_entry (fold_left emit log memfs) entry with
          | (memfs, Throw e) => Some (t, memfs, Throw e)
          | (memfs, Ok _) => untar fuel' t memfs
          end
      end
  end.

(** ** The Python front end's diagnostics *)

(** [msg.split('\n')]: never empty. *)
Fixpoint split (sep : ascii) (s : string) : list string :=
  match s with
  | EmptyString => [EmptyString]
  | String c s' =>
      if Ascii.eqb c sep then EmptyString :: split sep s'
      else match split sep s' with
           | line :: lines => String c line :: lines
           | [] => [String c EmptyString]
           end
  end.

(** The replacement text of [String.prototype.replace] for a string
    pattern: in the template, [$$] is a dollar sign, [$&] the match,
    [$`] the text before it and [$'] the text after it; there are no
    captures, so any other [$] stands for itself. *)
Fixpoint GetSubstitution (matched before after template : string) : string :=
  match template with
  | EmptyString => EmptyString
  | String c rest =>
      if Ascii.eqb c "$" then
        match rest with
        | String d rest' =>
            if Ascii.eqb d "$" then
              String "$" (GetSubstitution matched before after rest')
            else if Ascii.eqb d "&" then
              (matched ++ GetSubstitution matched before after rest')%string
            else if Ascii.eqb d "`" then
              (before ++ GetSubstitution matched before after rest')%string
            else if Ascii.eqb d "'" then
              (after ++ GetSubstitution matched before after rest')%string
            else String c (GetSubstitution matched before after rest)
        | EmptyString => String c EmptyString
        end
      else String c (GetSubstitution matched before after rest)
  end.

(** [str.replace(pattern, replacement)] for two strings: the first
    occurrence only. *)
Definition replace (str pattern replacement : string) : string :=
  match index 0 pattern str with
  | None => str
  | Some pos =>
      let before := substring 0 pos str in
      let after :=
        substring (pos + String.length pattern)
                  (String.length str - (pos + String.length pattern)) str in
      (before ++ GetSubstitution pattern before after replacement ++ after)%string
  end.

(** [formatErrorMsg(msg, activeTabName)].  [split] never returns an empty
    array, so [msg[0]] is its first element. *)
Definition formatErrorMsg (msg activeTabName : string) : string :=
  let msg := split (ascii_of_nat 10) msg in
  let msg := firstn 1 msg ++ skipn 7 msg in
  let msg := map (fun line => replace line "<exec>" activeTabName) msg in
  concat LF msg.

(** ** More of MemFS and App *)

(** [memfs_log(buf, len)]. *)
Definition memfs_log (fs : MemFS) (buf len : Z) : MemFS :=
  emit fs (EvConsoleLog (Memory_readStr (mem fs) buf len)).

(** [dst.set(src)] for a view [dst] over the buffer of [m] and the bytes
    [src] of a view of the same length over another buffer. *)
Definition view_set (m : Memory) (dst : Uint8ArrayView) (src : list Z) : Memory :=
  mkMemory (splice (u8 m) (Z.to_nat (byteOffset dst)) src).

(** [copy_out(clang_dst, memfs_src, size)]: from the filesystem guest's
    memory to the running guest's. *)
Definition copy_out (fs : MemFS) (clang_dst memfs_src size : Z) : MemFS * result unit :=
  match new_Uint8Array (hostMem_ fs) clang_dst size with
  | Throw e => (fs, Throw e)
  | Ok dst =>
      match new_Uint8Array (mem fs) memfs_src size with
      | Throw e => (fs, Throw e)
      | Ok src =>
          (set_hostMem fs (view_set (hostMem_ fs) dst (view_contents (mem fs) src)), Ok tt)
      end
  end.

(** [copy_in(memfs_dst, clang_src, size)]: the other way. *)
Definition copy_in (fs : MemFS) (memfs_dst clang_src size : Z) : MemFS * result unit :=
  match new_Uint8Array (mem fs) memfs_dst size with
  | Throw e => (fs, Throw e)
  | Ok dst =>
      match new_Uint8Array (hostMem_ fs) clang_src size with
      | Throw e => (fs, Throw e)
      | Ok src =>
          (set_mem fs (view_set (mem fs) dst (view_contents (hostMem_ fs) src)), Ok tt)
      end
  end.

(** [this.mem] of an [App] is the object [this.memfs.hostMem_]. *)
Definition App_mem (app : App) : Memory := hostMem_ (memfs app).

Definition set_App_mem (app : App) (m : Memory) : App :=
  set_memfs app (set_hostMem (memfs app) m).

(** [environ_sizes_get(environ_count_out, environ_buf_size_out)].  The
    list [environ] holds the properties of [this.environ], with string
    values, in the order in which [Object.getOwnPropertyNames] lists
    them. *)
Definition environ_sizes_get (app : App) (environ_count_out environ_buf_size_out : Z)
  : App * result Z :=
  let size :=
    fold_left (fun size nv => size + (strlen (fst nv) + strlen (snd nv) + 2))
              (environ app) 0 in
  let m := write64 (App_mem app) environ_count_out (len (environ app)) 0 in
  let m := write64 m environ_buf_size_out size 0 in
  (set_App_mem app m, Ok ESUCCESS).

(** The loop of [environ_get]: the memory it leaves, and the two cursors
    unless [writeStr] threw. *)
Fixpoint environ_get_loop (m : Memory) (environ_ptrs environ_buf : Z)
  (names : list (string * string)) : Memory * result (Z * Z) :=
  match names with
  | [] => (m, Ok (environ_ptrs, environ_buf))
  | (name, value) :: names' =>
      let m := write32 m environ_ptrs environ_buf in
      let environ_ptrs := environ_ptrs + 4 in
      match writeStr m environ_buf (name ++ "=" ++ value) with
      | Throw e => (m, Throw e)
      | Ok (m, n) => environ_get_loop m environ_ptrs (environ_buf + n) names'
      end
  end.

(** [environ_get(environ_ptrs, environ_buf)]. *)
Definition environ_get (app : App) (environ_ptrs environ_buf : Z) : App * result Z :=
  match environ_get_loop (App_mem app) environ_ptrs environ_buf (environ app) with
  | (m, Throw e) => (set_App_mem app m, Throw e)
  | (m, Ok (environ_ptrs, _)) =>
      (set_App_mem app (write32 m environ_ptrs 0), Ok ESUCCESS)
  end.

(** [args_sizes_get(argc_out, argv_buf_size_out)]. *)
Definition args_sizes_get (app : App) (argc_out argv_buf_size_out : Z) : App * result Z :=
  let size := fold_left (fun size arg => size + (strlen arg + 1)) (argv app) 0 in
  let m := write64 (App_mem app) argc_out (len (argv app)) 0 in
  let m := write64 m argv_buf_size_out size 0 in
  (set_App_mem app m, Ok ESUCCESS).

(** The loop of [args_get]. *)
Fixpoint args_get_loop (m : Memory) (argv_ptrs argv_buf : Z) (args : list string)
  : Memory * result (Z * Z) :=
  match args with
  | [] => (m, Ok (argv_ptrs, argv_buf))
  | arg :: args' =>
      let m := write32 m argv_ptrs argv_buf in
      let argv_ptrs := argv_ptrs + 4 in
      match writeStr m argv_buf arg with
      | Throw e => (m, Throw e)
      | Ok (m, n) => args_get_loop m argv_ptrs (argv_buf + n) args'
      end
  end.

(** [args_get(argv_ptrs, argv_buf)]. *)
Definition args_get (app : App) (argv_ptrs argv_buf : Z) : App * result Z :=
  match args_get_loop (App_mem app) argv_ptrs argv_buf (argv app) with
  | (m, Throw e) => (set_App_mem app m, Throw e)
  | (m, Ok (argv_ptrs, _)) =>
      (set_App_mem app (write32 m argv_ptrs 0), Ok ESUCCESS)
  end.

(** ** The filesystem guest *)

(** The module behind [this.exports] is bytecode that is not among the
    sources.  The specification describes it as "a separate guest module
    that owns the real node table (accessed through a small fixed set of
    primitive operations: register-directory, register-file-of-size,
    find-by-path, get-content-address, get-content-size,
    get-scratch-path-buffer)"; a node is "identified by a path string
    (unique within the VirtualFileSystem), has a byte length and a
    content address, and a kind"; "re-adding an existing path replaces
    it"; and a lookup of an unregistered path "fails with NotFound".
    The definitions below model that module.  The specification fixes no
    layout; the one chosen here keeps the table in the module's linear
    memory: the scratch path buffer in the first 256 bytes, then the
    nodes in the order of their registration, each as its kind (one
    byte), the length of its path and the length of its contents (two
    little-endian words), its path and its contents.  A lookup returns
    the address of the latest node registered under the path. *)

(** Modelled from the spec: the size of the scratch path buffer, at
    address 0 ("get-scratch-path-buffer"). *)
Definition PATH_BUF_SIZE : Z := 256.

(** Modelled from the spec: the two kinds of a node ("a kind ([file] |
    [directory])"). *)
Definition KIND_FILE : Z := 1.

(** Modelled from the spec: the kind of a directory node. *)
Definition KIND_DIRECTORY : Z := 2.

(** Modelled from the spec: the error [NotFound] of the taxonomy
    ("filesystem path miss"), with which the lookup of the guest fails.
    The runtime declares no class for it. *)
Definition NotFound : exn := RuntimeError "NotFound".

(** Modelled from the spec: a trap of the guest, for arguments outside
    what its memory holds. *)
Definition guest_trap {A : Type} : result A := Throw (RuntimeError "unreachable").

(** Modelled from the spec: a node ("identified by a path string ...,
    has a byte length and a content address, and a kind"). *)
Record fnode : Type := mkFnode { fkind : Z; fpath : list Z; fcontent : list Z }.

(** Modelled from the spec: the bytes of a node in the guest's memory,
    its contents at the end ("a content address"). *)
Definition encode_node (f : fnode) : list Z :=
  fkind f :: le32 (len (fpath f)) ++ le32 (len (fcontent f)) ++ fpath f ++ fcontent f.

(** Modelled from the spec: the little-endian word at the head of a
    byte list, as the guest reads the two lengths of a node. *)
Definition word_of (bs : list Z) : option Z :=
  match bs with
  | b0 :: b1 :: b2 :: b3 :: _ => Some (b0 + 256 * b1 + 65536 * b2 + 16777216 * b3)
  | _ => None
  end.

(** Modelled from the spec: equality of two paths, byte by byte. *)
Fixpoint bytes_eqb (a b : list Z) : bool :=
  match a, b with
  | [], [] => true
  | x :: a', y :: b' => (x =? y) && bytes_eqb a' b'
  | _, _ => false
  end.

(** Modelled from the spec: "find-by-path".  The walk over the nodes
    stored in [bs], the first of them at address [at_]: the address of
    the last node whose path is [path], if any ([None] when the bytes
    are not a sequence of nodes). *)
Fixpoint find_node (fuel : nat) (path : list Z) (at_ : Z) (bs : list Z) (found : option Z)
  : option (option Z) :=
  match fuel with
  | O => None
  | S fuel' =>
      match bs with
      | [] => Some found
      | _ :: rest =>
          match word_of rest, word_of (skipn 4 rest) with
          | Some plen, Some size =>
              let body := skipn 8 rest in
              if len body <? plen + size then None
              else
                let found :=
                  if bytes_eqb (firstn (Z.to_nat plen) body) path then Some at_
                  else found in
                find_node fuel' path (at_ + 9 + plen + size)
                          (skipn (Z.to_nat (plen + size)) body) found
          | _, _ => None
          end
      end
  end.

(** Modelled from the spec: the path of [path_len] bytes that the host
    has left in the scratch buffer. *)
Definition guest_path (m : Memory) (path_len : Z) : option (list Z) :=
  if (path_len <? 0) || (PATH_BUF_SIZE <? path_len) || (byteLength m <? PATH_BUF_SIZE)
  then None
  else Some (firstn (Z.to_nat path_len) (u8 m)).

(** Modelled from the spec: "register-directory" and
    "register-file-of-size".  The memory grows by the new node, whose
    contents are [size] null bytes; the handle returned is its
    address. *)
Definition guest_add (kind : Z) (m : Memory) (path_len size : Z) : result (Memory * Z) :=
  match guest_path m path_len with
  | None => guest_trap
  | Some path =>
      if (size <? 0) || (2 ^ 31 <=? size) then guest_trap
      else Ok (mkMemory (u8 m ++ encode_node (mkFnode kind path (repeat 0 (Z.to_nat size)))),
               byteLength m)
  end.

(** Modelled from the spec: "find-by-path", which fails with [NotFound]
    for a path that was not registered. *)
Definition guest_FindNode (m : Memory) (path_len : Z) : result (Memory * Z) :=
  match guest_path m path_len with
  | None => guest_trap
  | Some path =>
      match find_node (S (List.length (u8 m))) path PATH_BUF_SIZE
                      (skipn (Z.to_nat PATH_BUF_SIZE) (u8 m)) None with
      | Some (Some inode) => Ok (m, inode)
      | Some None => Throw NotFound
      | None => guest_trap
      end
  end.

(** Modelled from the spec: "get-content-address" of the node at
    [inode]. *)
Definition guest_GetFileNodeAddress (m : Memory) (inode : Z) : result (Memory * Z) :=
  if inode <? PATH_BUF_SIZE then guest_trap
  else match word_of (skipn (Z.to_nat (inode + 1)) (u8 m)) with
       | Some plen => Ok (m, inode + 9 + plen)
       | None => guest_trap
       end.

(** Modelled from the spec: "get-content-size" of the node at [inode]. *)
Definition guest_GetFileNodeSize (m : Memory) (inode : Z) : result (Memory * Z) :=
  if inode <? PATH_BUF_SIZE then guest_trap
  else match word_of (skipn (Z.to_nat (inode + 5)) (u8 m)) with
       | Some size => Ok (m, size)
       | None => guest_trap
       end.

(** Modelled from the spec: the exports of the filesystem guest. *)
Definition memfs_guest : MemfsExports :=
  mkMemfsExports (fun m => Ok (m, 0))
                 (fun m path_len => guest_add KIND_DIRECTORY m path_len 0)
                 (fun m path_len size => guest_add KIND_FILE m path_len size)
                 guest_FindNode guest_GetFileNodeAddress guest_GetFileNodeSize.

(** ** Vocabulary of the properties *)

(** Every element of a buffer is a byte. *)
Definition bytes_ok (a : list Z) : Prop := Forall (fun b => 0 <= b < 256) a.

(** The [n] iovec descriptors (buffer pointer, length) stored at [iovs],
    when they all lie inside the memory. *)
Fixpoint iovecs_at (m : Memory) (iovs : Z) (n : nat) : option (list (Z * Z)) :=
  match n with
  | O => Some []
  | S n' =>
      match read32 m iovs, read32 m (iovs + 4), iovecs_at m (iovs + 8) n' with
      | Some buf, Some len, Some rest => Some ((buf, len) :: rest)
      | _, _, _ => None
      end
  end.

(** The sum of the length fields. *)
Definition total_length (l : list (Z * Z)) : Z :=
  fold_right (fun v acc => snd v + acc) 0 l.

(** An iovec whose buffer lies inside the memory, and the bytes of that
    buffer. *)
Definition in_bounds (m : Memory) (v : Z * Z) : Prop :=
  0 <= fst v /\ 0 <= snd v /\ fst v + snd v <= byteLength m.

Definition buffer_bytes (m : Memory) (v : Z * Z) : list Z :=
  firstn (Z.to_nat (snd v)) (skipn (Z.to_nat (fst v)) (u8 m)).

(** Bytes as text, one character per byte; and the bytes before the first
    null byte. *)
Definition text_of_bytes (bs : list Z) : string :=
  string_of_list_ascii (map fromCharCode bs).

Fixpoint until_null (bs : list Z) : list Z :=
  match bs with
  | [] => []
  | b :: bs' => if b =? 0 then [] else b :: until_null bs'
  end.

(** The texts of a list, one after the other. *)
Definition join_texts (l : list string) : string :=
  fold_right String.append EmptyString l.

(** What [host_write] forwards: each buffer as [readStr] decodes it. *)
Definition forwarded_text (m : Memory) (l : list (Z * Z)) : string :=
  join_texts (map (fun v => Memory_readStr m (fst v) (snd v)) l).

(** A header that reaches the type test: it lies inside the archive and
    carries the magic of the format.  Its type flag is the byte at 156. *)
Definition valid_header (t : Tar) : Prop :=
  offset t + 512 <= len (tar_u8 t)
  /\ readStr (tar_u8 t) (offset t + 257) 8 = "ustar  ".

Definition type_flag (t : Tar) : string := readStr (tar_u8 t) (offset t + 156) 1.

(** The replacement of the first occurrence of [pattern] in [str] by
    [replacement], taken as it is. *)
Definition replace_verbatim (str pattern replacement : string) : string :=
  match index 0 pattern str with
  | None => str
  | Some pos =>
      (substring 0 pos str ++ replacement
       ++ substring (pos + String.length pattern)
                    (String.length str - (pos + String.length pattern)) str)%string
  end.

(** The text holds a dollar sign. *)
Fixpoint has_dollar (s : string) : bool :=
  match s with
  | EmptyString => false
  | String c s' => Ascii.eqb c "$" || has_dollar s'
  end.

(** The filesystem object with a pending input string [str] read up to
    [pos], as an earlier read may have left it. *)
Definition set_pending (fs : MemFS) (str : string) (pos : option Z) : MemFS :=
  mkMemFS str pos (sharedMem fs) (exports fs) (mem fs) (hostMem_ fs) (trace fs).

(** The mailbox as the worker finds it when [Atomics.wait] returns. *)
Definition mailbox_after_wait (shared : list Z) (input : option string) : option (list Z) :=
  match Atomics_wait shared input with
  | WaitOk delivered => Some delivered
  | WaitNotEqual => Some shared
  | WaitForever => None
  | WaitRangeError => None
  end.

(** The 32-bit word that [read32(p)] reads lies outside the buffer of the
    iovec [v]; and no descriptor word of the [n] iovecs at [iovs] lies
    inside a buffer of [l]. *)
Definition word_clear (p : Z) (v : Z * Z) : Prop :=
  4 * sar2 p + 4 <= fst v \/ fst v + snd v <= 4 * sar2 p.

Fixpoint descriptors_clear (iovs : Z) (n : nat) (l : list (Z * Z)) : Prop :=
  match n with
  | O => True
  | S n' =>
      Forall (word_clear iovs) l /\ Forall (word_clear (iovs + 4)) l
      /\ descriptors_clear (iovs + 8) n' l
  end.

(** [untar], started on the archive [t] and the filesystem [memfs], has
    loaded the entries before [t'] and holds the filesystem [memfs']. *)
Inductive untar_reaches : Tar -> MemFS -> Tar -> MemFS -> Prop :=
| reaches_start (t : Tar) (memfs : MemFS) : untar_reaches t memfs t memfs
| reaches_entry (t t1 t' : Tar) (memfs memfs1 memfs' : MemFS) (log : list event)
    (e : entry) :
    readEntry t = (t1, log, Ok (Some e)) ->
    untar_entry (fold_left emit log memfs) e = (memfs1, Ok tt) ->
    untar_reaches t1 memfs1 t' memfs' ->
    untar_reaches t memfs t' memfs'.

(** [n] characters of code 0. *)
Fixpoint nul_chars (n : nat) : string :=
  match n with
  | O => EmptyString
  | S n' => String (fromCharCode 0) (nul_chars n')
  end.

(** The bytes a buffer argument of [Memory.write] stands for. *)
Definition buf_bytes (b : buf) : list Z :=
  match b with
  | Bytes bs => bs
  | Text s => char_codes s
  end.

(** The bytes of [a] from [o] on start with [bs]. *)
Definition bytes_at (a : list Z) (o : Z) (bs : list Z) : Prop :=
  0 <= o /\ firstn (List.length bs) (skipn (Z.to_nat o) a) = bs.

(** The size of the buffer that holds the strings of [args], each with
    its terminator. *)
Definition strings_size (args : list string) : Z :=
  fold_right (fun arg acc => strlen arg + 1 + acc) 0 args.

(** The strings of [args] lie one after the other from [buf] on, each
    followed by a null byte, and the words from [ptrs] on hold their
    addresses. *)
Fixpoint strings_at (m : Memory) (ptrs buf : Z) (args : list string) : Prop :=
  match args with
  | [] => True
  | arg :: rest =>
      read32 m ptrs = Some buf
      /\ bytes_at (u8 m) buf (char_codes arg ++ [0])
      /\ strings_at m (ptrs + 4) (buf + (strlen arg + 1)) rest
  end.

(** What a guest finds when it walks the table at [ptrs]: the address of
    each string, the string itself read as a null-terminated string, and
    a null pointer after the last one. *)
Fixpoint argv_readable (m : Memory) (ptrs buf : Z) (args : list string) : Prop :=
  match args with
  | [] => read32 m ptrs = Some 0
  | arg :: rest =>
      read32 m ptrs = Some buf
      /\ Memory_readStr m buf (-1) = arg
      /\ argv_readable m (ptrs + 4) (buf + (strlen arg + 1)) rest
  end.

(** No string of the list holds a null character. *)
Definition no_nul (args : list string) : Prop :=
  Forall (fun arg => Forall (fun b => b <> 0) (char_codes arg)) args.

(** The strings [name=value] of an environment. *)
Definition environ_strings (environ : list (string * string)) : list string :=
  map (fun nv => (fst nv ++ "=" ++ snd nv)%string) environ.

(** The fields of the header at the offset of [t]: the name in the first
    100 bytes and the size, in octal, in the 12 bytes from 124 on. *)
Definition name_field (t : Tar) : string := readStr (tar_u8 t) (offset t) 100.

Definition size_field (t : Tar) : option Z :=
  parseInt8 (readStr (tar_u8 t) (offset t + 124) 12).

(** [n] rounded up to a multiple of 512. *)
Definition round_up_512 (n : Z) : Z := 512 * ((n + 511) / 512).

(** The number of lines of a text. *)
Definition line_count (msg : string) : nat := List.length (split (ascii_of_nat 10) msg).

(** A registration with the filesystem: a call of [addFile] or of
    [addDirectory]; and a sequence of them, which stops at the first
    that throws. *)
Inductive registration : Type :=
| RegFile (path : string) (contents : buf)
| RegDirectory (path : string).

Definition reg_path (r : registration) : string :=
  match r with
  | RegFile path _ => path
  | RegDirectory path => path
  end.

Definition register (fs : MemFS) (r : registration) : MemFS * result unit :=
  match r with
  | RegFile path contents => addFile fs path contents
  | RegDirectory path => addDirectory fs path
  end.

Fixpoint register_all (fs : MemFS) (rs : list registration) : MemFS * result unit :=
  match rs with
  | [] => (fs, Ok tt)
  | r :: rs' =>
      match register fs r with
      | (fs', Ok _) => register_all fs' rs'
      | (fs', Throw e) => (fs', Throw e)
      end
  end.

(** A registration the guest has room for: a path that fits in the
    scratch buffer and contents below 2 GiB. *)
Definition reg_fits (r : registration) : Prop :=
  strlen (reg_path r) <= PATH_BUF_SIZE
  /\ match r with
     | RegFile _ contents => len (buf_bytes contents) < 2 ^ 31
     | RegDirectory _ => True
     end.

(** The node a registration makes. *)
Definition node_of (r : registration) : fnode :=
  match r with
  | RegFile path contents =>
      mkFnode KIND_FILE (char_codes path) (map (fun b => b mod 256) (buf_bytes contents))
  | RegDirectory path => mkFnode KIND_DIRECTORY (char_codes path) []
  end.

(** The guest's memory holds the nodes [files] after its scratch
    buffer. *)
Definition table_holds (fs : MemFS) (files : list fnode) : Prop :=
  exports fs = memfs_guest
  /\ Forall (fun f => len (fpath f) < 2 ^ 32 /\ len (fcontent f) < 2 ^ 32) files
  /\ exists pb,
      len pb = PATH_BUF_SIZE /\ u8 (mem fs) = pb ++ flat_map encode_node files.

(** ** States used in the examples *)

(** A stand-in for the filesystem guest in the examples of properties
    that do not depend on what the guest does (the bridged syscalls never
    call it, and the archive loader only hands names and bytes on): every
    export returns 0 and leaves the memory as it is.  It is no model of
    the guest; [memfs_guest] is. *)
Definition null_exports : MemfsExports :=
  mkMemfsExports (fun m => Ok (m, 0)) (fun m _ => Ok (m, 0)) (fun m _ _ => Ok (m, 0))
                 (fun m _ => Ok (m, 0)) (fun m _ => Ok (m, 0)) (fun m _ => Ok (m, 0)).

Definition example_fs (hostMem : Memory) : MemFS :=
  mkMemFS "" (Some 0) (repeat 0 16) null_exports (mkMemory (repeat 0 16)) hostMem [].

(** One iovec [(16, 6)] at address 0, a result slot at 8, and the six
    bytes of ["Hello\n"] at 16. *)
Definition hello_mem : Memory :=
  mkMemory ([16; 0; 0; 0; 6; 0; 0; 0; 0; 0; 0; 0; 0; 0; 0; 0]
            ++ [72; 101; 108; 108; 111; 10; 0; 0]).

(** A filesystem over the modelled guest, with no node registered. *)
Definition empty_memfs : MemFS :=
  mkMemFS "" (Some 0) (repeat 0 16) memfs_guest (mkMemory (repeat 0 256))
          (mkMemory (repeat 0 16)) [].

(** One iovec [(16, 3)] over the bytes [65, 0, 66]. *)
Definition null_inside_mem : Memory :=
  mkMemory ([16; 0; 0; 0; 3; 0; 0; 0; 0; 0; 0; 0; 0; 0; 0; 0]
            ++ [65; 0; 66; 0; 0; 0; 0; 0]).

(** A guest that runs against [fs] and ends by throwing [e]. *)
Definition example_app (fs : MemFS) (e : exn) : App :=
  mkApp ["a.out"] [("USER", "alice")] fs true (fun fs => (fs, Throw e)).

(** A stand-in for the filesystem guest in the examples of the two copy
    primitives, which do not call it: every lookup returns the handle 1,
    with the 3 bytes at address 8 for contents. *)
Definition one_file_exports : MemfsExports :=
  mkMemfsExports (fun m => Ok (m, 0)) (fun m _ => Ok (m, 1)) (fun m _ _ => Ok (m, 1))
                 (fun m _ => Ok (m, 1)) (fun m _ => Ok (m, 8)) (fun m _ => Ok (m, 3)).

Definition one_file_fs : MemFS :=
  mkMemFS "" (Some 0) (repeat 0 16) one_file_exports
          (mkMemory ([0; 0; 0; 0; 0; 0; 0; 0] ++ [104; 105; 10] ++ [0; 0; 0; 0; 0]))
          hello_mem [].

(** A 512-byte archive header with the given name, size field and type
    flag, and the magic of the format. *)
Definition pad (n : nat) (bs : list Z) : list Z := firstn n (bs ++ repeat 0 n).

Definition tar_header (name size type : string) : list Z :=
  pad 100 (char_codes name) ++ pad 8 (char_codes "0000755")
  ++ pad 8 (char_codes "0000000") ++ pad 8 (char_codes "0000000")
  ++ pad 12 (char_codes size) ++ pad 12 (char_codes "00000000000")
  ++ pad 8 (char_codes "000000") ++ pad 1 (char_codes type) ++ pad 100 []
  ++ pad 8 (char_codes "ustar  ") ++ pad 32 [] ++ pad 32 [] ++ pad 8 [] ++ pad 8 []
  ++ pad 155 [] ++ pad 12 [].

(** An archive with a directory [src/], then an entry of type 2 (a
    symbolic link), then a file [src/a.txt] holding ["hi\n"]. *)
Definition link_archive : Tar :=
  mkTar (tar_header "src/" "00000000000" "5"
         ++ tar_header "link" "00000000000" "2"
         ++ tar_header "src/a.txt" "00000000003" "0" ++ pad 512 [104; 105; 10])
        0.

(** The same archive from its second entry on. *)
Definition link_archive_at_link : Tar := mkTar (tar_u8 link_archive) 512.

(** The same archive from its third entry on. *)
Definition link_archive_at_file : Tar := mkTar (tar_u8 link_archive) 1024.

(** An archive with the directory [src/] and the two blocks of zeros
    that end an archive; the same archive after the directory. *)
Definition dir_archive : Tar :=
  mkTar (tar_header "src/" "00000000000" "5" ++ repeat 0 1024) 0.

Definition dir_archive_at_end : Tar := mkTar (tar_u8 dir_archive) 512.

(** The archive of the round trip: the directory [src/] and the file
    [src/a.txt] holding ["hi\n"]. *)
Definition round_trip_archive : Tar :=
  mkTar (tar_header "src/" "00000000000" "5"
         ++ tar_header "src/a.txt" "00000000003" "0" ++ pad 512 [104; 105; 10])
        0.

(** An archive of one file of which the size field is blank. *)
Definition blank_size_archive : Tar := mkTar (tar_header "a.txt" "" "0") 0.

(** The double quote, and the traceback of [print(x)] with [x] undefined,
    as the Python front end reports it. *)
Definition DQ : string := String (ascii_of_nat 34) EmptyString.

Definition name_error_traceback : string :=
  ("Traceback (most recent call last):" ++ LF
   ++ "  File " ++ DQ ++ "/lib/python311.zip/_pyodide/_base.py" ++ DQ
   ++ ", line 499, in eval_code" ++ LF
   ++ "    .run(globals, locals)" ++ LF
   ++ "     ^^^^^^^^^^^^^^^^^^^^" ++ LF
   ++ "  File " ++ DQ ++ "/lib/python311.zip/_pyodide/_base.py" ++ DQ
   ++ ", line 340, in run" ++ LF
   ++ "    coroutine = eval(self.code, globals, locals)" ++ LF
   ++ "                ^^^^^^^^^^^^^^^^^^^^^^^^^^^^^^^^" ++ LF
   ++ "  File " ++ DQ ++ "<exec>" ++ DQ ++ ", line 1, in <module>" ++ LF
   ++ "NameError: name 'x' is not defined")%string.

(** Two iovecs [(24, 0)] and [(24, 10)] at address 0, a result slot at
    16, and a 10-byte buffer at 24. *)
Definition empty_iovec_first_mem : Memory :=
  mkMemory ([24; 0; 0; 0; 0; 0; 0; 0; 24; 0; 0; 0; 10; 0; 0; 0; 9; 9; 9; 9; 0; 0; 0; 0]
            ++ repeat 7 10 ++ [0; 0; 0; 0; 0; 0]).

(** One iovec [(24, 10)] at address 0 over the same buffer, and one
    iovec [(24, 2)]. *)
Definition one_iovec_mem : Memory :=
  mkMemory ([24; 0; 0; 0; 10; 0; 0; 0; 0; 0; 0; 0; 0; 0; 0; 0; 9; 9; 9; 9; 0; 0; 0; 0]
            ++ repeat 7 10 ++ [0; 0; 0; 0; 0; 0]).

Definition short_iovec_mem : Memory :=
  mkMemory ([24; 0; 0; 0; 2; 0; 0; 0; 0; 0; 0; 0; 0; 0; 0; 0; 9; 9; 9; 9; 0; 0; 0; 0]
            ++ repeat 7 10 ++ [0; 0; 0; 0; 0; 0]).

(** An 8-byte memory holding 7 everywhere, and a 16-byte one. *)
Definition sevens8 : Memory := mkMemory (repeat 7 8).
Definition sevens16 : Memory := mkMemory (repeat 7 16).

(** A guest with the arguments [a.out] and [-v] and the environment of
    the runtime, over a 64-byte memory. *)
Definition args_app : App :=
  mkApp ["a.out"; "-v"] [("USER", "alice")] (example_fs (mkMemory (repeat 7 64))) true
        (fun fs => (fs, Ok tt)).

(** * Properties *)

(** ** Bytes and typed arrays *)

Lemma charCode_range (c : ascii) : 0 <= charCode c < 256.
Proof.
  unfold charCode. pose proof (N_ascii_bounded c). lia.
Qed.

Lemma charCode_mod (c : ascii) : charCode c mod 256 = charCode c.
Proof.
  apply Z.mod_small, charCode_range.
Qed.

Lemma fromCharCode_charCode (c : ascii) : fromCharCode (charCode c) = c.
Proof.
  unfold fromCharCode. rewrite charCode_mod. unfold charCode.
  rewrite N2Z.id. apply ascii_N_embedding.
Qed.

Lemma char_codes_mod (s : string) :
  map (fun b => b mod 256) (char_codes s) = char_codes s.
Proof.
  unfold char_codes. rewrite map_map. apply map_ext. intro c. apply charCode_mod.
Qed.

Lemma char_codes_length (s : string) : len (char_codes s) = strlen s.
Proof.
  unfold len, strlen, char_codes. rewrite length_map. f_equal.
  induction s as [|c s IH]; simpl; congruence.
Qed.

Lemma text_of_char_codes (s : string) : text_of_bytes (char_codes s) = s.
Proof.
  unfold text_of_bytes, char_codes. rewrite map_map.
  rewrite (map_ext _ (fun c => c) fromCharCode_charCode), map_id.
  apply string_of_list_ascii_of_string.
Qed.

Lemma char_codes_inj (a b : string) : char_codes a = char_codes b -> a = b.
Proof.
  intro H. rewrite <- (text_of_char_codes a), <- (text_of_char_codes b). now rewrite H.
Qed.

Lemma len_app {A : Type} (l1 l2 : list A) : len (l1 ++ l2) = len l1 + len l2.
Proof.
  unfold len. rewrite length_app. lia.
Qed.

Lemma len_nonneg {A : Type} (l : list A) : 0 <= len l.
Proof.
  unfold len. lia.
Qed.

Lemma typed_get_middle (pre : list Z) (x : Z) (post : list Z) :
  typed_get (pre ++ x :: post) (len pre) = Some x.
Proof.
  unfold typed_get, len.
  destruct (Z.ltb_spec (Z.of_nat (List.length pre)) 0) as [H|H]; [lia|].
  rewrite Nat2Z.id, nth_error_app2 by lia.
  now rewrite Nat.sub_diag.
Qed.

(** An index outside the middle part of [pre ++ mid ++ post] does not see
    which middle part of that length is there. *)
Lemma typed_get_outside (pre mid mid' post : list Z) (i : Z) :
  List.length mid = List.length mid' ->
  i < len pre \/ len pre + len mid <= i ->
  typed_get (pre ++ mid ++ post) i = typed_get (pre ++ mid' ++ post) i.
Proof.
  unfold typed_get, len. intros Hlen Hi.
  destruct (Z.ltb_spec i 0) as [H|H]; [reflexivity|].
  destruct Hi as [Hi|Hi].
  - rewrite !nth_error_app1 by lia. reflexivity.
  - rewrite !(nth_error_app2 pre) by lia.
    rewrite !nth_error_app2 by lia. now rewrite Hlen.
Qed.

Lemma read_bytes_middle (m : Memory) (bs pre post : list Z) :
  u8 m = pre ++ bs ++ post ->
  read_bytes m (len pre) (List.length bs) = map Some bs.
Proof.
  revert pre. induction bs as [|b bs IH]; intros pre H; simpl; [reflexivity|].
  f_equal.
  - unfold read8. rewrite H. apply typed_get_middle.
  - replace (len pre + 1) with (len (pre ++ [b])) by (rewrite len_app; reflexivity).
    apply IH. rewrite H, <- app_assoc. reflexivity.
Qed.

Lemma splice_length (a : list Z) (i : nat) (bs : list Z) :
  (i + List.length bs <= List.length a)%nat ->
  List.length (splice a i bs) = List.length a.
Proof.
  intro H. unfold splice. rewrite !length_app, length_firstn, length_skipn. lia.
Qed.

(** Storing one more element right after a stored block. *)
Lemma splice_splice_next (a : list Z) (i : nat) (bs : list Z) (x : Z) :
  (i + List.length bs < List.length a)%nat ->
  splice (splice a i bs) (i + List.length bs) [x] = splice a i (bs ++ [x]).
Proof.
  intro H. unfold splice at 1.
  assert (Hpre : List.length (firstn i a) = i) by (rewrite length_firstn; lia).
  assert (E1 : firstn (i + List.length bs) (splice a i bs) = firstn i a ++ bs).
  { unfold splice. rewrite app_assoc.
    rewrite firstn_app.
    rewrite firstn_all2 by (rewrite length_app; lia).
    replace (i + List.length bs - List.length (firstn i a ++ bs))%nat with 0%nat
      by (rewrite length_app; lia).
    simpl. apply app_nil_r. }
  assert (E2 : skipn (i + List.length bs + List.length [x]) (splice a i bs)
               = skipn (i + List.length (bs ++ [x])) a).
  { unfold splice. rewrite app_assoc.
    rewrite skipn_app.
    rewrite skipn_all2 by (rewrite length_app; simpl; lia).
    replace (i + List.length bs + List.length [x] - List.length (firstn i a ++ bs))%nat
      with 1%nat by (rewrite length_app; simpl; lia).
    cbn [app]. rewrite skipn_skipn. f_equal. rewrite length_app. simpl. lia. }
  rewrite E1, E2. unfold splice. rewrite <- !app_assoc. reflexivity.
Qed.

(** ** Memory: [writeStr] *)

Lemma write_array_ok (m : Memory) (o : Z) (bs : list Z) :
  0 <= o -> o + len bs <= byteLength m ->
  write_array m o bs
  = Ok (mkMemory (splice (u8 m) (Z.to_nat o) (map (fun b => b mod 256) bs)), len bs).
Proof.
  intros Ho Hb. unfold write_array.
  destruct (Z.ltb_spec o 0); [lia|].
  destruct (Z.ltb_spec (byteLength m) (o + len bs)); [lia|]. reflexivity.
Qed.

Lemma writeStr_ok (m : Memory) (o : Z) (text : string) :
  0 <= o -> o + strlen text < byteLength m ->
  writeStr m o text
  = Ok (mkMemory (splice (u8 m) (Z.to_nat o) (char_codes text ++ [0])), strlen text + 1).
Proof.
  intros Ho Hb. unfold writeStr, write. pose proof (char_codes_length text) as Hl.
  rewrite write_array_ok by lia. cbn [bind].
  rewrite char_codes_mod. unfold write8, byteLength in *. cbn [u8].
  unfold len in *.
  rewrite splice_length by lia.
  destruct (Z.ltb_spec (o + Z.of_nat (List.length (char_codes text))) 0); [lia|].
  destruct (Z.leb_spec (Z.of_nat (List.length (u8 m)))
                       (o + Z.of_nat (List.length (char_codes text)))); [lia|].
  cbn [orb]. do 2 f_equal.
  replace (Z.to_nat (o + Z.of_nat (List.length (char_codes text))))
    with (Z.to_nat o + List.length (char_codes text))%nat by lia.
  rewrite Z.mod_0_l by lia.
  f_equal. apply splice_splice_next. lia.
Qed.

Lemma splice_outside (a : list Z) (i : nat) (bs : list Z) (j : Z) :
  (i + List.length bs <= List.length a)%nat ->
  j < Z.of_nat i \/ Z.of_nat i + len bs <= j ->
  typed_get (splice a i bs) j = typed_get a j.
Proof.
  intros Hin Hj. unfold splice.
  assert (Hpre : len (firstn i a) = Z.of_nat i)
    by (unfold len; rewrite length_firstn; lia).
  transitivity
    (typed_get (firstn i a ++ firstn (List.length bs) (skipn i a)
                ++ skipn (i + List.length bs) a) j).
  - apply typed_get_outside.
    + rewrite length_firstn, length_skipn. symmetry. apply Nat.min_l. lia.
    + rewrite Hpre. exact Hj.
  - f_equal.
    replace (i + List.length bs)%nat with (List.length bs + i)%nat by lia.
    rewrite <- skipn_skipn. now rewrite !firstn_skipn.
Qed.

Lemma splice_read_bytes (a : list Z) (i : nat) (bs : list Z) :
  (i <= List.length a)%nat ->
  read_bytes (mkMemory (splice a i bs)) (Z.of_nat i) (List.length bs) = map Some bs.
Proof.
  intro Hin.
  replace (Z.of_nat i) with (len (firstn i a))
    by (unfold len; rewrite length_firstn; lia).
  apply read_bytes_middle with (post := skipn (i + List.length bs) a). reflexivity.
Qed.

Lemma writeStr_units_ok (m : Memory) (o : Z) (units : list Z) :
  0 <= o -> o + len units < byteLength m ->
  writeStr_units m o units
  = Ok (mkMemory (splice (u8 m) (Z.to_nat o) (map (fun u => u mod 256) units ++ [0])),
        len units + 1).
Proof.
  intros Ho Hb. unfold writeStr_units, write.
  rewrite write_array_ok by lia. cbn [bind].
  unfold write8, byteLength in *. cbn [u8]. unfold len in *.
  rewrite splice_length by (rewrite length_map; lia).
  destruct (Z.ltb_spec (o + Z.of_nat (List.length units)) 0); [lia|].
  destruct (Z.leb_spec (Z.of_nat (List.length (u8 m)))
                       (o + Z.of_nat (List.length units))); [lia|].
  cbn [orb]. do 2 f_equal.
  replace (Z.to_nat (o + Z.of_nat (List.length units)))
    with (Z.to_nat o + List.length (map (fun u => (u mod 256)%Z) units))%nat
    by (rewrite length_map; lia).
  rewrite Z.mod_0_l by lia.
  f_equal. apply splice_splice_next. rewrite length_map. lia.
Qed.

Lemma writeStr_as_units (m : Memory) (o : Z) (text : string) :
  writeStr m o text = writeStr_units m o (char_codes text).
Proof.
  unfold writeStr, writeStr_units, write. now rewrite char_codes_length.
Qed.

(** C7 (as amended). For every offset [o] and text such that the text
    and its terminator lie inside the buffer, [writeStr(o, text)] returns
    [text.length + 1], leaves one byte per code unit of the text (the
    unit modulo 256: the character code itself for a text of characters
    below 256) followed by one null byte at [o], and changes nothing
    else; in particular [writeStr(0, "ab")] returns 3 and the three
    bytes read back from offset 0 are [97, 98, 0] (which [readStr]
    decodes as ["ab"]). *)
Theorem writeStr_writes_text_and_terminator :
  (forall (m : Memory) (o : Z) (units : list Z),
      0 <= o -> o + len units < byteLength m ->
      exists m',
        writeStr_units m o units = Ok (m', len units + 1)
        /\ read_bytes m' o (S (List.length units))
           = map Some (map (fun u => u mod 256) units ++ [0])
        /\ byteLength m' = byteLength m
        /\ (forall i, i < o \/ o + len units < i -> read8 m' i = read8 m i))
  /\ (forall (m : Memory) (o : Z) (text : string),
         0 <= o -> o + strlen text < byteLength m ->
         exists m',
           writeStr m o text = Ok (m', strlen text + 1)
           /\ read_bytes m' o (S (String.length text)) = map Some (char_codes text ++ [0])
           /\ byteLength m' = byteLength m
           /\ (forall i, i < o \/ o + strlen text < i -> read8 m' i = read8 m i))
  /\ (forall m : Memory,
         3 <= byteLength m ->
         exists m',
           writeStr m 0 "ab" = Ok (m', 3)
           /\ read_bytes m' 0 3 = [Some 97; Some 98; Some 0]
           /\ Memory_readStr m' 0 3 = "ab").
Proof.
  assert (Units : forall (m : Memory) (o : Z) (units : list Z),
      0 <= o -> o + len units < byteLength m ->
      exists m',
        writeStr_units m o units = Ok (m', len units + 1)
        /\ read_bytes m' o (S (List.length units))
           = map Some (map (fun u => u mod 256) units ++ [0])
        /\ byteLength m' = byteLength m
        /\ (forall i, i < o \/ o + len units < i -> read8 m' i = read8 m i)).
  { intros m o units Ho Hb.
    assert (Hk : List.length (map (fun u => u mod 256) units ++ [0])
                 = S (List.length units))
      by (rewrite length_app, length_map; simpl; lia).
    assert (Hin : (Z.to_nat o + List.length (map (fun u => (u mod 256)%Z) units ++ [0%Z])
                   <= List.length (u8 m))%nat)
      by (rewrite Hk; unfold byteLength, len in Hb; lia).
    eexists. split; [apply writeStr_units_ok; assumption|]. split; [|split].
    - rewrite <- Hk.
      pose proof (splice_read_bytes (u8 m) (Z.to_nat o)
                    (map (fun u => u mod 256) units ++ [0])) as R.
      rewrite Z2Nat.id in R by lia. apply R. lia.
    - unfold byteLength, len. cbn [u8]. now rewrite splice_length.
    - intros i Hi. unfold read8. cbn [u8]. apply splice_outside; [exact Hin|].
      unfold len in *. rewrite Hk. lia. }
  assert (General : forall (m : Memory) (o : Z) (text : string),
      0 <= o -> o + strlen text < byteLength m ->
      exists m',
        writeStr m o text = Ok (m', strlen text + 1)
        /\ read_bytes m' o (S (String.length text)) = map Some (char_codes text ++ [0])
        /\ byteLength m' = byteLength m
        /\ (forall i, i < o \/ o + strlen text < i -> read8 m' i = read8 m i)).
  { intros m o text Ho Hb.
    pose proof (char_codes_length text) as Hl.
    assert (Hn : List.length (char_codes text) = String.length text)
      by (unfold len, strlen in Hl; lia).
    destruct (Units m o (char_codes text) Ho) as (m' & Hw & Hr & Hs & Hf); [lia|].
    rewrite char_codes_mod, Hn in Hr. rewrite Hl in Hw, Hf.
    exists m'. rewrite writeStr_as_units. repeat split; assumption. }
  split; [exact Units|]. split; [exact General|].
  intros m Hm. destruct (General m 0 "ab") as (m' & Hw & Hr & _).
  - lia.
  - unfold strlen. simpl. lia.
  - exists m'. split; [exact Hw|]. split; [exact Hr|].
    rewrite writeStr_ok in Hw by (unfold strlen; simpl; lia).
    injection Hw as <-. reflexivity.
Qed.

Lemma writeStr_writes_text_and_terminator_witness :
  (exists m',
      writeStr_units (mkMemory (repeat 7 8)) 2 [321; 98] = Ok (m', 3)
      /\ read_bytes m' 2 3 = [Some 65; Some 98; Some 0])
  /\ exists m',
      writeStr (mkMemory (repeat 7 8)) 0 "ab" = Ok (m', 3)
      /\ read_bytes m' 0 3 = [Some 97; Some 98; Some 0]
      /\ Memory_readStr m' 0 3 = "ab".
Proof.
  split.
  - destruct (proj1 writeStr_writes_text_and_terminator (mkMemory (repeat 7 8)) 2 [321; 98])
      as (m' & Hw & Hr & _).
    + lia.
    + vm_compute. reflexivity.
    + exists m'. split; [exact Hw|exact Hr].
  - apply (proj2 (proj2 writeStr_writes_text_and_terminator) (mkMemory (repeat 7 8))).
    vm_compute. discriminate.
Defined.

(** The claim of C7 as stated, for every offset and text, fails at the
    end of the buffer: [writeStr(6, "ab")] on 8 bytes stores the text and
    returns 3, and no terminator follows the text; [writeStr(7, "ab")]
    throws. *)
Lemma writeStr_no_terminator_at_buffer_end :
  (exists m',
      writeStr (mkMemory (repeat 7 8)) 6 "ab" = Ok (m', 3)
      /\ read_bytes m' 6 3 = [Some 97; Some 98; None])
  /\ writeStr (mkMemory (repeat 7 8)) 7 "ab"
     = Throw (RangeError "Invalid typed array length")
  /\ ~ (forall (m : Memory) (o : Z) (text : string),
          exists m',
            writeStr m o text = Ok (m', strlen text + 1)
            /\ read_bytes m' o (S (String.length text))
               = map Some (char_codes text ++ [0])).
Proof.
  split; [|split].
  - eexists. split; reflexivity.
  - reflexivity.
  - intro H. destruct (H (mkMemory (repeat 7 8)) 7 "ab") as (m' & Hw & _).
    discriminate Hw.
Qed.

(** ** [readStr] *)

Lemma readStr_loop_length (n : nat) (a : list Z) (i : Z) :
  (String.length (readStr_loop n a i) <= n)%nat.
Proof.
  revert i. induction n as [|n IH]; intro i; simpl; [lia|].
  destruct (typed_get a i) as [[| |]|]; simpl; try lia;
    specialize (IH (i + 1)); lia.
Qed.

(** A null byte [k] places after the start stops the loop there. *)
Lemma readStr_loop_null (n : nat) (a : list Z) (i : Z) (k : nat) :
  typed_get a (i + Z.of_nat k) = Some 0 ->
  (String.length (readStr_loop n a i) <= k)%nat.
Proof.
  revert i k. induction n as [|n IH]; intros i k H; simpl; [lia|].
  destruct k as [|k].
  - rewrite Z.add_0_r in H. rewrite H. simpl. lia.
  - assert (H' : typed_get a (i + 1 + Z.of_nat k) = Some 0)
      by (rewrite <- H; f_equal; lia).
    specialize (IH (i + 1) k H').
    destruct (typed_get a i) as [[| |]|]; simpl; lia.
Qed.

Lemma skipn_cons_nth (a : list Z) (i : nat) (x : Z) :
  nth_error a i = Some x -> skipn i a = x :: skipn (S i) a.
Proof.
  revert i. induction a as [|y a IH]; intros [|i] H; simpl in *; try discriminate.
  - congruence.
  - now apply IH.
Qed.

(** Inside the array the loop yields the bytes before the first null. *)
Lemma readStr_loop_until_null (n : nat) (a : list Z) (i : nat) :
  (i + n <= List.length a)%nat ->
  readStr_loop n a (Z.of_nat i) = text_of_bytes (until_null (firstn n (skipn i a))).
Proof.
  revert i. induction n as [|n IH]; intros i H; [reflexivity|].
  destruct (nth_error a i) as [x|] eqn:E.
  - rewrite (skipn_cons_nth a i x E). cbn [firstn until_null readStr_loop].
    unfold typed_get. destruct (Z.ltb_spec (Z.of_nat i) 0) as [L|L]; [lia|].
    rewrite Nat2Z.id, E.
    replace (Z.of_nat i + 1) with (Z.of_nat (S i)) by lia.
    rewrite IH by lia.
    destruct x; reflexivity.
  - apply nth_error_None in E. lia.
Qed.

Lemma readStr_until_null (m : Memory) (v : Z * Z) :
  in_bounds m v ->
  Memory_readStr m (fst v) (snd v) = text_of_bytes (until_null (buffer_bytes m v)).
Proof.
  destruct v as [b l]. unfold in_bounds, byteLength, len. cbn [fst snd].
  intros (Hb & Hl & Hin).
  unfold Memory_readStr, readStr, buffer_bytes. cbn [fst snd].
  destruct (Z.eqb_spec l (-1)); [lia|].
  replace (b + l - b) with l by lia.
  rewrite <- (Z2Nat.id b) at 1 by lia.
  apply readStr_loop_until_null. lia.
Qed.

Lemma until_null_no_null (bs : list Z) :
  Forall (fun b => b <> 0) bs -> until_null bs = bs.
Proof.
  induction 1 as [|b bs Hb _ IH]; simpl; [reflexivity|].
  destruct (Z.eqb_spec b 0); congruence.
Qed.

(** ** Strings *)

Lemma string_app_assoc (a b c : string) : ((a ++ b) ++ c = a ++ (b ++ c))%string.
Proof.
  induction a as [|x a IH]; simpl; congruence.
Qed.

Lemma string_app_nil_r (a : string) : (a ++ "")%string = a.
Proof.
  induction a as [|x a IH]; simpl; congruence.
Qed.

Lemma strlen_app (a b : string) : strlen (a ++ b) = strlen a + strlen b.
Proof.
  unfold strlen. induction a as [|x a IH]; simpl String.length; lia.
Qed.

Lemma strlen_nonneg (a : string) : 0 <= strlen a.
Proof.
  unfold strlen. lia.
Qed.

(** ** [host_write] *)

Lemma Forall_firstn {A : Type} (P : A -> Prop) (n : nat) (l : list A) :
  Forall P l -> Forall P (firstn n l).
Proof.
  intro H. revert n. induction H; intros [|n]; simpl; auto.
Qed.

Lemma Forall_skipn {A : Type} (P : A -> Prop) (n : nat) (l : list A) :
  Forall P l -> Forall P (skipn n l).
Proof.
  intro H. revert n. induction H; intros [|n]; simpl; auto.
Qed.

Lemma u32_get_range (a : list Z) (k v : Z) :
  bytes_ok a -> u32_get a k = Some v -> 0 <= v < 2 ^ 32.
Proof.
  intros Hok. unfold u32_get.
  destruct ((k <? 0) || (len a <? 4 * k + 4)); [discriminate|].
  pose proof (Forall_firstn _ 4 _ (Forall_skipn _ (Z.to_nat (4 * k)) _ Hok)) as F.
  destruct (firstn 4 (skipn (Z.to_nat (4 * k)) a)) as [|b0 [|b1 [|b2 [|b3 [|? ?]]]]];
    try discriminate.
  intro E.
  assert (E' : v = b0 + 256 * b1 + 65536 * b2 + 16777216 * b3) by congruence.
  clear E.
  inversion F as [|? ? H0 F1]; subst. inversion F1 as [|? ? H1 F2]; subst.
  inversion F2 as [|? ? H2 F3]; subst. inversion F3 as [|? ? H3 _]; subst.
  cbv beta in *. change (2 ^ 32) with 4294967296. lia.
Qed.

Lemma iovecs_at_nonneg (m : Memory) (n : nat) (iovs : Z) (l : list (Z * Z)) :
  bytes_ok (u8 m) -> iovecs_at m iovs n = Some l ->
  Forall (fun v => 0 <= fst v /\ 0 <= snd v) l.
Proof.
  intro Hok. revert iovs l. induction n as [|n IH]; intros iovs l H; simpl in H.
  - injection H as <-. constructor.
  - destruct (read32 m iovs) as [b|] eqn:Eb; [|discriminate].
    destruct (read32 m (iovs + 4)) as [le|] eqn:El; [|discriminate].
    destruct (iovecs_at m (iovs + 8) n) as [rest|] eqn:Er; [|discriminate].
    injection H as <-. constructor.
    + cbn [fst snd]. apply (u32_get_range _ _ _ Hok) in Eb, El. lia.
    + eapply IH. exact Er.
Qed.

Lemma host_write_loop_spec (n : nat) (m : Memory) (iovs : Z) (l : list (Z * Z))
  (str : string) (size : Z) :
  iovecs_at m iovs n = Some l ->
  host_write_loop n m iovs str (Some size)
  = ((str ++ forwarded_text m l)%string, Some (size + total_length l)).
Proof.
  revert iovs l str size. induction n as [|n IH]; intros iovs l str size H; simpl in H.
  - injection H as <-. simpl. now rewrite string_app_nil_r, Z.add_0_r.
  - destruct (read32 m iovs) as [b|] eqn:Eb; [|discriminate].
    destruct (read32 m (iovs + 4)) as [le|] eqn:El; [|discriminate].
    destruct (iovecs_at m (iovs + 8) n) as [rest|] eqn:Er; [|discriminate].
    injection H as <-. cbn [host_write_loop]. rewrite Eb, El.
    replace (iovs + 4 + 4) with (iovs + 8) by lia.
    cbn [js_add readStr_value]. rewrite (IH _ _ _ _ Er).
    unfold forwarded_text. cbn [map join_texts fold_right total_length fst snd].
    rewrite string_app_assoc, Z.add_assoc. reflexivity.
Qed.

Lemma host_write_ok (fs : MemFS) (fd iovs iovs_len nwritten_out : Z) (l : list (Z * Z)) :
  fd <= 2 ->
  iovecs_at (hostMem_ fs) iovs (Z.to_nat iovs_len) = Some l ->
  host_write fs fd iovs iovs_len nwritten_out
  = (hostWrite (set_hostMem fs (write32 (hostMem_ fs) nwritten_out (total_length l)))
               (forwarded_text (hostMem_ fs) l),
     Ok ESUCCESS).
Proof.
  intros Hfd H. unfold host_write, check.
  destruct (Z.leb_spec fd 2) as [_|]; [|lia]. cbn [assert].
  destruct fs as [s p sh ex me hm tr]. cbn [hostMem_ set_hostMem] in *.
  rewrite (host_write_loop_spec _ _ _ _ _ _ H). reflexivity.
Qed.

Lemma Memory_readStr_length (m : Memory) (b le : Z) :
  0 <= le -> strlen (Memory_readStr m b le) <= le.
Proof.
  intro H. unfold Memory_readStr, readStr, strlen.
  destruct (Z.eqb_spec le (-1)); [lia|].
  pose proof (readStr_loop_length (Z.to_nat (b + le - b)) (u8 m) b). lia.
Qed.

Lemma Memory_readStr_null (m : Memory) (b le k : Z) :
  0 <= k < le -> read8 m (b + k) = Some 0 -> strlen (Memory_readStr m b le) <= k.
Proof.
  intros Hk H. unfold Memory_readStr, readStr, strlen.
  destruct (Z.eqb_spec le (-1)); [lia|].
  pose proof (readStr_loop_null (Z.to_nat (b + le - b)) (u8 m) b (Z.to_nat k)) as L.
  rewrite Z2Nat.id in L by lia. specialize (L H). lia.
Qed.

Lemma total_length_cons (v : Z * Z) (l : list (Z * Z)) :
  total_length (v :: l) = snd v + total_length l.
Proof. reflexivity. Qed.

Lemma forwarded_text_cons (m : Memory) (v : Z * Z) (l : list (Z * Z)) :
  forwarded_text m (v :: l)
  = (Memory_readStr m (fst v) (snd v) ++ forwarded_text m l)%string.
Proof. reflexivity. Qed.

Lemma forwarded_text_length (m : Memory) (l : list (Z * Z)) :
  Forall (fun v => 0 <= fst v /\ 0 <= snd v) l ->
  strlen (forwarded_text m l) <= total_length l.
Proof.
  induction 1 as [|[b le] l [_ Hle] _ IH]; [reflexivity|].
  rewrite forwarded_text_cons, total_length_cons, strlen_app. cbn [fst snd] in *.
  pose proof (Memory_readStr_length m b le Hle). lia.
Qed.

Lemma forwarded_text_shorter (m : Memory) (l : list (Z * Z)) (b le k : Z) :
  Forall (fun v => 0 <= fst v /\ 0 <= snd v) l ->
  In (b, le) l -> 0 <= k < le -> read8 m (b + k) = Some 0 ->
  strlen (forwarded_text m l) < total_length l.
Proof.
  intros F Hin Hk H0. induction F as [|[b' le'] l [_ Hle] F IH]; [contradiction|].
  rewrite forwarded_text_cons, total_length_cons, strlen_app. cbn [fst snd] in *.
  destruct Hin as [E|Hin].
  - injection E as -> ->.
    pose proof (Memory_readStr_null m b le k Hk H0).
    pose proof (forwarded_text_length m l F). lia.
  - pose proof (Memory_readStr_length m b' le' Hle). specialize (IH Hin). lia.
Qed.

(** What is stored with [write32] is read back with [read32], modulo
    2^32. *)
Lemma le32_decode (v : Z) :
  0 <= v < 2 ^ 32 ->
  v mod 256 + 256 * ((v / 256) mod 256) + 65536 * ((v / 65536) mod 256)
  + 16777216 * ((v / 16777216) mod 256) = v.
Proof.
  change (2 ^ 32) with 4294967296. intro H.
  Z.div_mod_to_equations. lia.
Qed.

Lemma read32_write32 (m : Memory) (o v : Z) :
  0 <= sar2 o -> 4 * sar2 o + 4 <= byteLength m ->
  read32 (write32 m o v) o = Some (v mod 2 ^ 32).
Proof.
  intros Hk Hin. unfold read32, write32, u32_get, u32_set, byteLength, len in *.
  cbn [u8].
  destruct (Z.ltb_spec (sar2 o) 0) as [|_]; [lia|].
  destruct (Z.ltb_spec (Z.of_nat (List.length (u8 m))) (4 * sar2 o + 4)) as [|_]; [lia|].
  cbn [orb].
  assert (Hl : List.length (le32 (v mod 2 ^ 32)) = 4%nat) by reflexivity.
  rewrite splice_length by (rewrite Hl; lia).
  destruct (Z.ltb_spec (Z.of_nat (List.length (u8 m))) (4 * sar2 o + 4)) as [|_]; [lia|].
  cbn [orb]. unfold splice.
  rewrite skipn_app, skipn_all2 by (rewrite length_firstn; lia).
  rewrite length_firstn.
  replace (Z.to_nat (4 * sar2 o) - Nat.min (Z.to_nat (4 * sar2 o)) (List.length (u8 m)))%nat
    with 0%nat by lia.
  cbn [app skipn]. unfold le32. cbn [app firstn].
  f_equal. apply le32_decode. apply Z.mod_pos_bound. reflexivity.
Qed.

(** C4 (as amended). For every [host_write] on one of the standard
    streams 0, 1, 2 whose iovecs lie inside the guest memory, the text
    forwarded is, in order, each iovec buffer up to (not including) its
    first null byte; it is forwarded to the output sink exactly once; and
    the count stored for the guest is the sum of the iovec lengths.  When
    no buffer holds a null byte, the text is the concatenation of the
    buffers. *)
Theorem host_write_forwards_once :
  forall (fs : MemFS) (fd iovs iovs_len nwritten_out : Z) (l : list (Z * Z)),
    0 <= fd <= 2 ->
    iovecs_at (hostMem_ fs) iovs (Z.to_nat iovs_len) = Some l ->
    Forall (in_bounds (hostMem_ fs)) l ->
    let m := hostMem_ fs in
    let payload :=
      join_texts (map (fun v => text_of_bytes (until_null (buffer_bytes m v))) l) in
    host_write fs fd iovs iovs_len nwritten_out
    = (hostWrite (set_hostMem fs (write32 m nwritten_out (total_length l))) payload,
       Ok ESUCCESS)
    /\ (Forall (fun v => Forall (fun b => b <> 0) (buffer_bytes m v)) l ->
        payload = join_texts (map (fun v => text_of_bytes (buffer_bytes m v)) l)).
Proof.
  intros fs fd iovs iovs_len nwritten_out l Hfd Hl Hin m payload. split.
  - rewrite (host_write_ok fs fd iovs iovs_len nwritten_out l) by (lia || assumption).
    do 2 f_equal. unfold forwarded_text, payload. f_equal.
    apply map_ext_in. intros v Hv. apply readStr_until_null.
    rewrite Forall_forall in Hin. now apply Hin.
  - intro Hnn. unfold payload. f_equal. apply map_ext_in. intros v Hv.
    rewrite Forall_forall in Hnn. now rewrite until_null_no_null by now apply Hnn.
Qed.

Lemma host_write_forwards_once_witness :
  host_write (example_fs hello_mem) 1 0 1 8
  = (hostWrite (set_hostMem (example_fs hello_mem) (write32 hello_mem 8 6))
               ("Hello" ++ LF)%string,
     Ok ESUCCESS).
Proof.
  refine (proj1 (host_write_forwards_once (example_fs hello_mem) 1 0 1 8 [(16, 6)] _ _ _)).
  - lia.
  - reflexivity.
  - repeat constructor; cbn; lia.
Defined.

(** The claim of C4 as stated fails: a buffer holding the bytes
    [65, 0, 66] is forwarded as ["A"], not as its three bytes. *)
Lemma host_write_stops_at_null_byte :
  let fs := example_fs null_inside_mem in
  iovecs_at (hostMem_ fs) 0 1 = Some [(16, 3)]
  /\ buffer_bytes (hostMem_ fs) (16, 3) = [65; 0; 66]
  /\ writes (trace (fst (host_write fs 1 0 1 8))) = ["A"]
  /\ "A" <> text_of_bytes [65; 0; 66].
Proof.
  repeat split; try reflexivity. discriminate.
Qed.

(** The bridging scenario of the specification, evaluated: one [write]
    event carrying ["Hello\n"], and 6 read back as the count. *)
Example host_write_hello_event :
  let fs := fst (host_write (example_fs hello_mem) 1 0 1 8) in
  trace fs = [EvWrite ("Hello" ++ LF)] /\ read32 (hostMem_ fs) 8 = Some 6.
Proof.
  split; reflexivity.
Qed.

(** ** [App.run] *)

Lemma writes_app (t1 t2 : list event) : writes (t1 ++ t2) = writes t1 ++ writes t2.
Proof.
  induction t1 as [|[text| |text] t1 IH]; simpl; congruence.
Qed.

Lemma error_msg_contains_message (stack : exn -> string) (e : exn) (writeStack : bool) :
  contains (error_msg stack e writeStack) (message e).
Proof.
  unfold contains, error_msg. exists (ESC ++ "[91mError: ")%string.
  destruct writeStack.
  - exists (LF ++ stack e ++ ESC ++ "[0m" ++ LF)%string.
    rewrite !string_app_assoc. reflexivity.
  - exists (ESC ++ "[0m" ++ LF)%string.
    rewrite !string_app_assoc. reflexivity.
Qed.

(** C1. For a guest that ends with [proc_exit(code)]: with the sentinel
    code [run] returns [true] (the guest may be scheduled again) and
    throws nothing; with code 0 it returns normally, writes nothing to the
    output sink and throws nothing; with any other code it forbids further
    scheduling, forwards one formatted diagnostic that contains the
    failure message to the output sink, and rethrows the failure. *)
Theorem run_after_proc_exit :
  forall (stack : exn -> string) (app : App) (fs : MemFS) (code : Z),
    _start app (memfs app) = (fs, Throw (ProcExit code)) ->
    let app' := fst (run stack app) in
    let r := snd (run stack app) in
    (code = RAF_PROC_EXIT_CODE ->
     r = Ok (Some true)
     /\ API_run stack app = Ok (Some app')
     /\ allowRequestAnimationFrame app' = allowRequestAnimationFrame app
     /\ writes (trace (memfs app')) = writes (trace fs))
    /\ (code = 0 ->
        r = Ok (Some false)
        /\ writes (trace (memfs app')) = writes (trace fs))
    /\ (code <> 0 -> code <> RAF_PROC_EXIT_CODE ->
        r = Throw (ProcExit code)
        /\ allowRequestAnimationFrame app' = false
        /\ writes (trace (memfs app'))
           = writes (trace fs) ++ [error_msg stack (ProcExit code) false]
        /\ contains (error_msg stack (ProcExit code) false) (message (ProcExit code))).
Proof.
  intros stack app fs code H app' r. subst app' r. unfold API_run, run. rewrite H.
  split; [|split].
  - intros ->. cbn. rewrite writes_app. cbn. now rewrite app_nil_r.
  - intros ->. cbn. rewrite writes_app. cbn. now rewrite app_nil_r.
  - intros H0 HR.
    destruct (Z.eqb_spec code RAF_PROC_EXIT_CODE) as [|_]; [contradiction|].
    destruct (Z.eqb_spec code 0) as [|_]; [contradiction|].
    split; [reflexivity|]. split; [reflexivity|].
    split; [|apply error_msg_contains_message].
    cbn [fst write_error set_memfs memfs hostWrite emit trace
         set_allowRequestAnimationFrame console_log].
    rewrite !writes_app. cbn [writes]. now rewrite app_nil_r.
Qed.

Lemma run_after_proc_exit_witness :
  let app := example_app (example_fs hello_mem) (ProcExit 1) in
  snd (run (fun _ => "") app) = Throw (ProcExit 1)
  /\ allowRequestAnimationFrame (fst (run (fun _ => "") app)) = false
  /\ writes (trace (memfs (fst (run (fun _ => "") app))))
     = writes (trace (example_fs hello_mem))
       ++ [error_msg (fun _ => "") (ProcExit 1) false]
  /\ contains (error_msg (fun _ => "") (ProcExit 1) false) (message (ProcExit 1)).
Proof.
  refine (proj2 (proj2 (run_after_proc_exit (fun _ => "")
                          (example_app (example_fs hello_mem) (ProcExit 1))
                          (example_fs hello_mem) 1 _)) _ _).
  - reflexivity.
  - discriminate.
  - discriminate.
Defined.

(** The diagnostic of a guest that exits with code 1. *)
Example error_msg_exit_1 :
  error_msg (fun _ => "") (ProcExit 1) false
  = (ESC ++ "[91mError: process exited with code 1." ++ ESC ++ "[0m" ++ LF)%string.
Proof. reflexivity. Qed.

(** C6. [clock_time_get] and [poll_oneoff] throw [NotImplemented] on
    every call, whatever their arguments, and write no result anywhere;
    a guest stopped by that exception makes [run] forward a diagnostic
    with the exception's message to the output sink and rethrow it. *)
Theorem unimplemented_syscalls_throw :
  (forall (app : App) (clock_id precision time_out : Z),
      clock_time_get app clock_id precision time_out
      = (app, Throw (NotImplemented "wasi_unstable" "clock_time_get")))
  /\ (forall (app : App) (in_ptr out_ptr nsubscriptions nevents_out : Z),
         poll_oneoff app in_ptr out_ptr nsubscriptions nevents_out
         = (app, Throw (NotImplemented "wasi_unstable" "poll_oneoff")))
  /\ (forall (stack : exn -> string) (app : App) (fs : MemFS) (fieldname : string),
         _start app (memfs app) = (fs, Throw (NotImplemented "wasi_unstable" fieldname)) ->
         let e := NotImplemented "wasi_unstable" fieldname in
         run stack app = (set_memfs app (hostWrite fs (error_msg stack e true)), Throw e)
         /\ contains (error_msg stack e true)
                     ("wasi_unstable." ++ fieldname ++ " not implemented.")).
Proof.
  split; [reflexivity|]. split; [reflexivity|].
  intros stack app fs fieldname H e. split.
  - unfold run. rewrite H. reflexivity.
  - apply (error_msg_contains_message stack e true).
Qed.

Lemma unimplemented_syscalls_throw_witness :
  let e := NotImplemented "wasi_unstable" "clock_time_get" in
  let app := example_app (example_fs hello_mem) e in
  run (fun _ => "at clock_time_get") app
  = (set_memfs app (hostWrite (example_fs hello_mem)
                              (error_msg (fun _ => "at clock_time_get") e true)),
     Throw e)
  /\ contains (error_msg (fun _ => "at clock_time_get") e true)
              "wasi_unstable.clock_time_get not implemented.".
Proof.
  refine (proj2 (proj2 unimplemented_syscalls_throw) (fun _ => "at clock_time_get")
                (example_app (example_fs hello_mem)
                             (NotImplemented "wasi_unstable" "clock_time_get"))
                (example_fs hello_mem) "clock_time_get" _).
  reflexivity.
Defined.

(** ** [MemFS.getFileContents] *)

Lemma view_contents_length (m : Memory) (addr size : Z) :
  0 <= addr -> 0 <= size -> addr + size <= byteLength m ->
  len (view_contents m (mkView addr size)) = size.
Proof.
  unfold view_contents, byteLength, len. cbn [view_length byteOffset]. intros Ha Hs Hin.
  rewrite length_firstn, length_skipn. lia.
Qed.

Lemma new_Uint8Array_ok (m : Memory) (addr size : Z) :
  0 <= addr -> 0 <= size -> addr + size <= byteLength m ->
  new_Uint8Array m addr size = Ok (mkView addr size).
Proof.
  intros Ha Hs Hin. unfold new_Uint8Array.
  destruct (Z.ltb_spec addr 0); [lia|]. destruct (Z.ltb_spec size 0); [lia|].
  destruct (Z.ltb_spec (byteLength m) (addr + size)); [lia|]. reflexivity.
Qed.

Lemma new_Uint8Array_throws (m : Memory) (addr size : Z) :
  addr < 0 \/ size < 0 \/ byteLength m < addr + size ->
  new_Uint8Array m addr size = Throw (RangeError "Invalid typed array length").
Proof.
  intro H. unfold new_Uint8Array.
  destruct (Z.ltb_spec addr 0); [reflexivity|].
  destruct (Z.ltb_spec size 0); [reflexivity|].
  destruct (Z.ltb_spec (byteLength m) (addr + size)); [reflexivity|]. lia.
Qed.

(** *** The modelled guest: the walk over the node table *)

Lemma word_of_le32 (v : Z) (rest : list Z) :
  0 <= v < 2 ^ 32 -> word_of (le32 v ++ rest) = Some v.
Proof.
  intro H. unfold le32. cbn [app word_of]. f_equal. now apply le32_decode.
Qed.

Lemma bytes_eqb_eq (a b : list Z) : bytes_eqb a b = true <-> a = b.
Proof.
  revert b. induction a as [|x a IH]; intros [|y b]; cbn [bytes_eqb];
    try (split; [reflexivity|reflexivity]); try (split; discriminate).
  rewrite andb_true_iff, Z.eqb_eq, IH. split.
  - intros [-> ->]. reflexivity.
  - intro E. injection E as -> ->. now split.
Qed.

Lemma bytes_eqb_refl (a : list Z) : bytes_eqb a a = true.
Proof. now apply bytes_eqb_eq. Qed.

Lemma bytes_eqb_neq (a b : list Z) : a <> b -> bytes_eqb a b = false.
Proof.
  intro H. destruct (bytes_eqb a b) eqn:E; [|reflexivity].
  apply bytes_eqb_eq in E. contradiction.
Qed.

Lemma encode_node_length (f : fnode) :
  len (encode_node f) = 9 + len (fpath f) + len (fcontent f).
Proof.
  unfold encode_node, len. cbn [List.length]. rewrite !length_app.
  change (List.length (le32 _)) with 4%nat.
  change (List.length (le32 (Z.of_nat (List.length (fcontent f))))) with 4%nat. lia.
Qed.

Lemma skipn_exact {A : Type} (a b : list A) (n : nat) :
  n = List.length a -> skipn n (a ++ b) = b.
Proof.
  intros ->. rewrite skipn_app, skipn_all, Nat.sub_diag. reflexivity.
Qed.

Lemma firstn_exact {A : Type} (a b : list A) (n : nat) :
  n = List.length a -> firstn n (a ++ b) = a.
Proof.
  intros ->. rewrite firstn_app, firstn_all, Nat.sub_diag. cbn [firstn]. apply app_nil_r.
Qed.

(** One step of the walk, over the bytes of a node. *)
Lemma find_node_step (fuel : nat) (path : list Z) (at_ : Z) (f : fnode) (rest : list Z)
  (found : option Z) :
  len (fpath f) < 2 ^ 32 -> len (fcontent f) < 2 ^ 32 ->
  find_node (S fuel) path at_ (encode_node f ++ rest) found
  = find_node fuel path (at_ + len (encode_node f)) rest
              (if bytes_eqb (fpath f) path then Some at_ else found).
Proof.
  intros Hp Hc. rewrite encode_node_length.
  pose proof (len_nonneg (fpath f)) as Hp0. pose proof (len_nonneg (fcontent f)) as Hc0.
  unfold encode_node. cbn [app find_node]. rewrite <- !app_assoc.
  rewrite word_of_le32 by lia.
  assert (E4 : forall v X, skipn 4 (le32 v ++ X) = X) by reflexivity.
  assert (E8 : forall v w X, skipn 8 (le32 v ++ le32 w ++ X) = X) by reflexivity.
  rewrite E4, word_of_le32, E8 by lia.
  destruct (Z.ltb_spec (len (fpath f ++ fcontent f ++ rest))
                       (len (fpath f) + len (fcontent f))) as [Hlt|_].
  { rewrite !len_app in Hlt. pose proof (len_nonneg rest). lia. }
  rewrite firstn_exact by (unfold len; lia).
  rewrite app_assoc, skipn_exact by (rewrite length_app; unfold len; lia).
  f_equal. lia.
Qed.

Lemma find_node_miss (files : list fnode) :
  forall (fuel : nat) (path : list Z) (at_ : Z) (found : option Z),
    Forall (fun f => len (fpath f) < 2 ^ 32 /\ len (fcontent f) < 2 ^ 32) files ->
    Forall (fun f => fpath f <> path) files ->
    (List.length files < fuel)%nat ->
    find_node fuel path at_ (flat_map encode_node files) found = Some found.
Proof.
  induction files as [|f files IH]; intros fuel path at_ found Hok Hne Hfuel.
  - destruct fuel; [cbn in Hfuel; lia|]. reflexivity.
  - destruct fuel as [|fuel]; [cbn in Hfuel; lia|].
    inversion Hok as [|? ? [Hp Hc] Hok']; subst.
    inversion Hne as [|? ? Hf Hne']; subst.
    cbn [flat_map]. rewrite find_node_step by assumption.
    rewrite bytes_eqb_neq by assumption.
    apply IH; try assumption. cbn [List.length] in Hfuel. lia.
Qed.

Lemma find_node_hit (pre : list fnode) :
  forall (f : fnode) (post : list fnode) (fuel : nat) (path : list Z) (at_ : Z)
         (found : option Z),
    Forall (fun f => len (fpath f) < 2 ^ 32 /\ len (fcontent f) < 2 ^ 32)
           (pre ++ f :: post) ->
    fpath f = path ->
    Forall (fun g => fpath g <> path) post ->
    (List.length (pre ++ f :: post) < fuel)%nat ->
    find_node fuel path at_ (flat_map encode_node (pre ++ f :: post)) found
    = Some (Some (at_ + len (flat_map encode_node pre))).
Proof.
  induction pre as [|g pre IH]; intros f post fuel path at_ found Hok Hf Hne Hfuel.
  - destruct fuel as [|fuel]; [cbn in Hfuel; lia|].
    cbn [app] in *. inversion Hok as [|? ? [Hp Hc] Hok']; subst.
    cbn [flat_map]. rewrite find_node_step by assumption.
    rewrite bytes_eqb_refl.
    rewrite find_node_miss; try assumption.
    + change (len (@nil Z)) with 0. now rewrite Z.add_0_r.
    + cbn [List.length] in Hfuel. lia.
  - destruct fuel as [|fuel]; [cbn in Hfuel; lia|].
    cbn [app] in *. inversion Hok as [|? ? [Hp Hc] Hok']; subst.
    cbn [flat_map]. rewrite find_node_step by assumption.
    rewrite (IH f post fuel (fpath f)); try assumption; try reflexivity.
    + rewrite len_app. do 2 f_equal. lia.
    + cbn [List.length] in Hfuel. lia.
Qed.

Lemma table_size (files : list fnode) :
  (List.length files <= List.length (flat_map encode_node files))%nat.
Proof.
  induction files as [|f files IH]; [reflexivity|].
  cbn [flat_map]. rewrite length_app. cbn [List.length].
  pose proof (encode_node_length f) as H. unfold len in H. lia.
Qed.

(** *** The modelled guest: its exports on a memory that holds a table *)

Lemma skipn_at (A B : list Z) (n : Z) : n = len A -> skipn (Z.to_nat n) (A ++ B) = B.
Proof.
  intros ->. apply skipn_exact. unfold len. lia.
Qed.

Lemma firstn_at (A B : list Z) (n : Z) : n = len A -> firstn (Z.to_nat n) (A ++ B) = A.
Proof.
  intros ->. apply firstn_exact. unfold len. lia.
Qed.

Lemma guest_path_ok (pb table : list Z) (n : Z) :
  len pb = PATH_BUF_SIZE -> 0 <= n <= PATH_BUF_SIZE ->
  guest_path (mkMemory (pb ++ table)) n = Some (firstn (Z.to_nat n) pb).
Proof.
  intros Hpb Hn. unfold guest_path, byteLength. cbn [u8]. rewrite len_app.
  pose proof (len_nonneg table).
  destruct (Z.ltb_spec n 0); [lia|].
  destruct (Z.ltb_spec PATH_BUF_SIZE n); [lia|].
  destruct (Z.ltb_spec (len pb + len table) PATH_BUF_SIZE); [lia|].
  cbn [orb]. f_equal. rewrite firstn_app.
  replace (Z.to_nat n - List.length pb)%nat with 0%nat by (unfold len in *; lia).
  cbn [firstn]. apply app_nil_r.
Qed.

Lemma guest_add_ok (kind : Z) (pb table : list Z) (n size : Z) :
  len pb = PATH_BUF_SIZE -> 0 <= n <= PATH_BUF_SIZE -> 0 <= size < 2 ^ 31 ->
  guest_add kind (mkMemory (pb ++ table)) n size
  = Ok (mkMemory ((pb ++ table)
                  ++ encode_node (mkFnode kind (firstn (Z.to_nat n) pb)
                                          (repeat 0 (Z.to_nat size)))),
        len (pb ++ table)).
Proof.
  intros Hpb Hn Hs. unfold guest_add. rewrite guest_path_ok by assumption.
  destruct (Z.ltb_spec size 0); [lia|]. destruct (Z.leb_spec (2 ^ 31) size); [lia|].
  reflexivity.
Qed.

Lemma node_shape (A : list Z) (f : fnode) (R : list Z) :
  A ++ encode_node f ++ R
  = (A ++ [fkind f]) ++ le32 (len (fpath f))
    ++ le32 (len (fcontent f)) ++ fpath f ++ fcontent f ++ R.
Proof.
  unfold encode_node. cbn [app]. rewrite <- !app_assoc. reflexivity.
Qed.

Lemma guest_GetFileNodeAddress_ok (A : list Z) (f : fnode) (R : list Z) :
  PATH_BUF_SIZE <= len A -> len (fpath f) < 2 ^ 32 ->
  guest_GetFileNodeAddress (mkMemory (A ++ encode_node f ++ R)) (len A)
  = Ok (mkMemory (A ++ encode_node f ++ R), len A + 9 + len (fpath f)).
Proof.
  intros HA Hp. unfold guest_GetFileNodeAddress. cbn [u8].
  destruct (Z.ltb_spec (len A) PATH_BUF_SIZE); [lia|].
  rewrite node_shape at 1.
  rewrite skipn_at by (rewrite len_app; reflexivity).
  rewrite word_of_le32 by (pose proof (len_nonneg (fpath f)); lia).
  reflexivity.
Qed.

Lemma guest_GetFileNodeSize_ok (A : list Z) (f : fnode) (R : list Z) :
  PATH_BUF_SIZE <= len A -> len (fcontent f) < 2 ^ 32 ->
  guest_GetFileNodeSize (mkMemory (A ++ encode_node f ++ R)) (len A)
  = Ok (mkMemory (A ++ encode_node f ++ R), len (fcontent f)).
Proof.
  intros HA Hc. unfold guest_GetFileNodeSize. cbn [u8].
  destruct (Z.ltb_spec (len A) PATH_BUF_SIZE); [lia|].
  rewrite node_shape at 1. rewrite app_assoc.
  rewrite skipn_at
    by (rewrite !len_app; change (len [fkind f]) with 1;
        change (len (le32 (len (fpath f)))) with 4; lia).
  rewrite word_of_le32 by (pose proof (len_nonneg (fcontent f)); lia).
  reflexivity.
Qed.

Lemma guest_FindNode_miss (pb : list Z) (files : list fnode) (n : Z) :
  len pb = PATH_BUF_SIZE -> 0 <= n <= PATH_BUF_SIZE ->
  Forall (fun f => len (fpath f) < 2 ^ 32 /\ len (fcontent f) < 2 ^ 32) files ->
  Forall (fun f => fpath f <> firstn (Z.to_nat n) pb) files ->
  guest_FindNode (mkMemory (pb ++ flat_map encode_node files)) n = Throw NotFound.
Proof.
  intros Hpb Hn Hok Hne. unfold guest_FindNode. rewrite guest_path_ok by assumption.
  cbn [u8]. rewrite skipn_at by (now rewrite Hpb).
  rewrite find_node_miss; try assumption; [reflexivity|].
  rewrite length_app. pose proof (table_size files). lia.
Qed.

Lemma guest_FindNode_hit (pb : list Z) (pre : list fnode) (f : fnode) (post : list fnode)
  (n : Z) :
  len pb = PATH_BUF_SIZE -> 0 <= n <= PATH_BUF_SIZE ->
  Forall (fun f => len (fpath f) < 2 ^ 32 /\ len (fcontent f) < 2 ^ 32)
         (pre ++ f :: post) ->
  fpath f = firstn (Z.to_nat n) pb ->
  Forall (fun g => fpath g <> firstn (Z.to_nat n) pb) post ->
  guest_FindNode (mkMemory (pb ++ flat_map encode_node (pre ++ f :: post))) n
  = Ok (mkMemory (pb ++ flat_map encode_node (pre ++ f :: post)),
        len (pb ++ flat_map encode_node pre)).
Proof.
  intros Hpb Hn Hok Hf Hne. unfold guest_FindNode. rewrite guest_path_ok by assumption.
  cbn [u8]. rewrite skipn_at by (now rewrite Hpb).
  rewrite (find_node_hit pre f post); try assumption.
  - rewrite len_app, Hpb. reflexivity.
  - rewrite (length_app pb). pose proof (table_size (pre ++ f :: post)). lia.
Qed.

(** The contents of a new node, stored by the host at the address the
    guest gave for them. *)
Lemma write_node_contents (A : list Z) (kind : Z) (path : list Z) (contents : buf) :
  let bytes := buf_bytes contents in
  write (mkMemory (A ++ encode_node (mkFnode kind path (repeat 0 (Z.to_nat (len bytes))))))
        (len A + 9 + len path) contents
  = Ok (mkMemory (A ++ encode_node (mkFnode kind path (map (fun b => b mod 256) bytes))),
        len bytes).
Proof.
  intro bytes.
  assert (Hz : len (repeat 0 (Z.to_nat (len bytes))) = len bytes)
    by (unfold len; rewrite repeat_length; lia).
  assert (Hm : len (map (fun b => b mod 256) bytes) = len bytes)
    by (unfold len; now rewrite length_map).
  set (H := [kind] ++ le32 (len path) ++ le32 (len bytes) ++ path).
  assert (E0 : A ++ encode_node (mkFnode kind path (repeat 0 (Z.to_nat (len bytes))))
               = (A ++ H) ++ repeat 0 (Z.to_nat (len bytes))).
  { unfold encode_node, H. cbn [fkind fpath fcontent app]. rewrite Hz.
    rewrite <- !app_assoc. reflexivity. }
  assert (E1 : A ++ encode_node (mkFnode kind path (map (fun b => b mod 256) bytes))
               = (A ++ H) ++ map (fun b => b mod 256) bytes).
  { unfold encode_node, H. cbn [fkind fpath fcontent app]. rewrite Hm.
    rewrite <- !app_assoc. reflexivity. }
  assert (HH : len (A ++ H) = len A + 9 + len path).
  { unfold H. rewrite !len_app. change (len [kind]) with 1.
    change (len (le32 (len path))) with 4. change (len (le32 (len bytes))) with 4. lia. }
  rewrite E0, E1, <- HH.
  assert (Ew : write (mkMemory ((A ++ H) ++ repeat 0 (Z.to_nat (len bytes))))
                     (len (A ++ H)) contents
               = write_array (mkMemory ((A ++ H) ++ repeat 0 (Z.to_nat (len bytes))))
                             (len (A ++ H)) bytes).
  { unfold write, bytes, buf_bytes. now destruct contents. }
  rewrite Ew, write_array_ok.
  - do 2 f_equal. cbn [u8]. unfold splice.
    rewrite firstn_at by reflexivity.
    rewrite skipn_all2; [now rewrite app_nil_r|].
    rewrite length_app, repeat_length, length_map. unfold len. lia.
  - apply len_nonneg.
  - unfold byteLength. cbn [u8]. rewrite !len_app, Hz. lia.
Qed.

(** *** The host over the modelled guest *)

Lemma write_path_table (fs : MemFS) (files : list fnode) (path : string) :
  table_holds fs files -> strlen path <= PATH_BUF_SIZE ->
  exists pb,
    len pb = PATH_BUF_SIZE
    /\ firstn (Z.to_nat (strlen path)) pb = char_codes path
    /\ write_path fs path = (set_mem fs (mkMemory (pb ++ flat_map encode_node files)), Ok tt).
Proof.
  intros (Hex & Hok & pb0 & Hpb & Hu) Hlen.
  pose proof (char_codes_length path) as Hc. pose proof (strlen_nonneg path) as H0.
  exists (char_codes path ++ skipn (Z.to_nat (strlen path)) pb0).
  split; [|split].
  - rewrite len_app, Hc. unfold len in *. rewrite length_skipn. lia.
  - apply firstn_at. now rewrite Hc.
  - destruct fs as [s0 p0 sh ex me hm tr]. cbn [exports mem] in *. subst ex.
    destruct me as [bytes]. cbn [u8] in Hu. subst bytes.
    unfold write_path, call_guest. cbn [exports mem set_mem GetPathBuf memfs_guest write].
    rewrite write_array_ok.
    + f_equal. unfold set_mem. cbn [stdinStr stdinStrPos sharedMem exports mem hostMem_ trace u8].
      do 2 f_equal. rewrite char_codes_mod. unfold splice.
      change (Z.to_nat 0) with 0%nat. cbn [firstn app Nat.add].
      rewrite skipn_app.
      replace (List.length (char_codes path) - List.length pb0)%nat with 0%nat
        by (unfold len in *; lia).
      cbn [skipn]. rewrite <- app_assoc. do 2 f_equal.
      unfold len in Hc. f_equal. lia.
    + lia.
    + unfold byteLength. cbn [u8]. rewrite len_app.
      pose proof (len_nonneg (flat_map encode_node files)). lia.
Qed.

Lemma guest_GetFileNodeAddress_last (A : list Z) (f : fnode) :
  PATH_BUF_SIZE <= len A -> len (fpath f) < 2 ^ 32 ->
  guest_GetFileNodeAddress (mkMemory (A ++ encode_node f)) (len A)
  = Ok (mkMemory (A ++ encode_node f), len A + 9 + len (fpath f)).
Proof.
  intros HA Hp. pose proof (guest_GetFileNodeAddress_ok A f [] HA Hp) as H.
  now rewrite app_nil_r in H.
Qed.

Lemma buf_length (contents : buf) :
  match contents with Bytes bs => len bs | Text s => strlen s end = len (buf_bytes contents).
Proof.
  destruct contents as [bs|t]; [reflexivity|]. symmetry. apply char_codes_length.
Qed.

(** A registration adds its node to the table. *)
Lemma register_table (fs : MemFS) (files : list fnode) (r : registration) :
  table_holds fs files -> reg_fits r ->
  exists fs',
    register fs r = (fs', Ok tt) /\ table_holds fs' (files ++ [node_of r]).
Proof.
  intros Ht [Hlen Hsize].
  assert (HP : PATH_BUF_SIZE = 256) by reflexivity.
  destruct (write_path_table fs files (reg_path r) Ht Hlen) as (pb & Hpb & Hfirst & Hw).
  destruct Ht as (Hex & Hok & _).
  pose proof (char_codes_length (reg_path r)) as Hc.
  pose proof (strlen_nonneg (reg_path r)) as H0.
  assert (HA : PATH_BUF_SIZE <= len (pb ++ flat_map encode_node files))
    by (rewrite len_app; pose proof (len_nonneg (flat_map encode_node files)); lia).
  assert (Hshape : forall f,
             (pb ++ flat_map encode_node files) ++ encode_node f
             = pb ++ flat_map encode_node (files ++ [f])).
  { intro f. rewrite flat_map_app. cbn [flat_map]. now rewrite app_nil_r, app_assoc. }
  destruct fs as [s0 p0 sh ex me hm tr]. cbn [exports] in Hex. subst ex.
  unfold set_mem in Hw. cbn [stdinStr stdinStrPos sharedMem exports mem hostMem_ trace] in Hw.
  destruct r as [path contents|path]; cbn [reg_path node_of] in *.
  - pose proof (len_nonneg (buf_bytes contents)) as Hb0.
    unfold register, addFile. rewrite Hw, buf_length.
    unfold call_guest, set_mem.
    cbn [stdinStr stdinStrPos sharedMem exports mem hostMem_ trace AddFileNode
         GetFileNodeAddress memfs_guest].
    rewrite guest_add_ok by lia. rewrite Hfirst.
    cbn [stdinStr stdinStrPos sharedMem exports mem hostMem_ trace AddFileNode
         GetFileNodeAddress memfs_guest].
    rewrite guest_GetFileNodeAddress_last by (cbn [fpath]; lia).
    cbn [stdinStr stdinStrPos sharedMem exports mem hostMem_ trace fpath].
    rewrite write_node_contents. eexists. split; [reflexivity|].
    rewrite Hshape. split; [reflexivity|]. split.
    + apply Forall_app. split; [exact Hok|]. constructor; [|constructor].
      cbn [fpath fcontent]. split; [lia|].
      unfold len in *. rewrite length_map. lia.
    + exists pb. now split.
  - unfold register, addDirectory. rewrite Hw.
    unfold call_guest, set_mem.
    cbn [stdinStr stdinStrPos sharedMem exports mem hostMem_ trace AddDirectoryNode
         memfs_guest].
    rewrite guest_add_ok by lia. rewrite Hfirst.
    change (repeat 0 (Z.to_nat 0)) with (@nil Z).
    eexists. split; [reflexivity|].
    cbn [mem exports]. rewrite Hshape. split; [reflexivity|]. split.
    + apply Forall_app. split; [exact Hok|]. constructor; [|constructor].
      cbn [fpath fcontent]. split; [lia|]. reflexivity.
    + exists pb. now split.
Qed.

Lemma register_all_table (rs : list registration) :
  forall (fs : MemFS) (files : list fnode),
    table_holds fs files -> Forall reg_fits rs ->
    exists fs',
      register_all fs rs = (fs', Ok tt) /\ table_holds fs' (files ++ map node_of rs).
Proof.
  induction rs as [|r rs IH]; intros fs files Ht Hfit.
  - exists fs. split; [reflexivity|]. cbn [map]. now rewrite app_nil_r.
  - inversion Hfit as [|? ? Hr Hrs]; subst.
    destruct (register_table fs files r Ht Hr) as (fs1 & E1 & Ht1).
    destruct (IH fs1 (files ++ [node_of r]) Ht1 Hrs) as (fs' & E & Ht').
    exists fs'. split.
    + cbn [register_all]. now rewrite E1.
    + cbn [map]. now rewrite <- app_assoc in Ht'.
Qed.

(** A lookup of a path that heads no node of the table, and of one that
    does. *)
Lemma getFileContents_table_miss (fs : MemFS) (files : list fnode) (path : string) :
  table_holds fs files -> strlen path <= PATH_BUF_SIZE ->
  Forall (fun f => fpath f <> char_codes path) files ->
  exists fs', getFileContents fs path = (fs', Throw NotFound).
Proof.
  intros Ht Hlen Hne.
  destruct (write_path_table fs files path Ht Hlen) as (pb & Hpb & Hfirst & Hw).
  destruct Ht as (Hex & Hok & _). pose proof (strlen_nonneg path) as H0.
  destruct fs as [s0 p0 sh ex me hm tr]. cbn [exports] in Hex. subst ex.
  unfold set_mem in Hw. cbn [stdinStr stdinStrPos sharedMem exports mem hostMem_ trace] in Hw.
  unfold getFileContents. rewrite Hw. unfold call_guest.
  cbn [stdinStr stdinStrPos sharedMem exports mem hostMem_ trace FindNode memfs_guest].
  rewrite guest_FindNode_miss; try assumption; try lia.
  - eexists. reflexivity.
  - now rewrite Hfirst.
Qed.

Lemma getFileContents_table_hit (fs : MemFS) (pre : list fnode) (f : fnode)
  (post : list fnode) (path : string) :
  table_holds fs (pre ++ f :: post) -> strlen path <= PATH_BUF_SIZE ->
  fpath f = char_codes path ->
  Forall (fun g => fpath g <> char_codes path) post ->
  exists fs' v,
    getFileContents fs path = (fs', Ok v)
    /\ view_length v = len (fcontent f)
    /\ view_contents (mem fs') v = fcontent f.
Proof.
  intros Ht Hlen Hf Hne.
  destruct (write_path_table fs (pre ++ f :: post) path Ht Hlen)
    as (pb & Hpb & Hfirst & Hw).
  destruct Ht as (Hex & Hok & _). pose proof (strlen_nonneg path) as H0.
  assert (Hfok : len (fpath f) < 2 ^ 32 /\ len (fcontent f) < 2 ^ 32).
  { rewrite Forall_forall in Hok. apply Hok. apply in_elt. }
  destruct Hfok as [Hfp Hfc].
  set (A := pb ++ flat_map encode_node pre).
  assert (HA : PATH_BUF_SIZE <= len A)
    by (unfold A; rewrite len_app; pose proof (len_nonneg (flat_map encode_node pre)); lia).
  assert (Hshape : pb ++ flat_map encode_node (pre ++ f :: post)
                   = A ++ encode_node f ++ flat_map encode_node post).
  { unfold A. rewrite flat_map_app. cbn [flat_map]. now rewrite <- app_assoc. }
  destruct fs as [s0 p0 sh ex me hm tr]. cbn [exports] in Hex. subst ex.
  unfold set_mem in Hw. cbn [stdinStr stdinStrPos sharedMem exports mem hostMem_ trace] in Hw.
  unfold getFileContents. rewrite Hw. unfold call_guest, set_mem.
  cbn [stdinStr stdinStrPos sharedMem exports mem hostMem_ trace FindNode memfs_guest].
  rewrite guest_FindNode_hit; try assumption; try lia.
  2:{ now rewrite Hfirst. }
  2:{ now rewrite Hfirst. }
  fold A.
  cbn [stdinStr stdinStrPos sharedMem exports mem hostMem_ trace GetFileNodeAddress
       GetFileNodeSize memfs_guest].
  rewrite Hshape.
  rewrite guest_GetFileNodeAddress_ok by assumption.
  cbn [stdinStr stdinStrPos sharedMem exports mem hostMem_ trace GetFileNodeAddress
       GetFileNodeSize memfs_guest].
  rewrite guest_GetFileNodeSize_ok by assumption.
  cbn [stdinStr stdinStrPos sharedMem exports mem hostMem_ trace].
  pose proof (len_nonneg A) as HA0. pose proof (len_nonneg (fpath f)) as Hp0.
  pose proof (len_nonneg (fcontent f)) as Hc0.
  rewrite new_Uint8Array_ok.
  - eexists. eexists. split; [reflexivity|]. cbn [view_length mem]. split; [reflexivity|].
    unfold view_contents. cbn [view_length byteOffset u8].
    rewrite node_shape. rewrite !app_assoc. rewrite <- (app_assoc _ (fcontent f)).
    rewrite skipn_at.
    + now apply firstn_at.
    + rewrite !len_app. change (len [fkind f]) with 1.
      change (len (le32 (len (fpath f)))) with 4.
      change (len (le32 (len (fcontent f)))) with 4. lia.
  - lia.
  - lia.
  - unfold byteLength. cbn [u8]. rewrite !len_app, encode_node_length.
    pose proof (len_nonneg (flat_map encode_node post)). lia.
Qed.

Lemma node_of_path (r : registration) : fpath (node_of r) = char_codes (reg_path r).
Proof. now destruct r. Qed.

Lemma nodes_without_path (rs : list registration) (path : string) :
  Forall (fun r => reg_path r <> path) rs ->
  Forall (fun f => fpath f <> char_codes path) (map node_of rs).
Proof.
  intro H. apply Forall_map. eapply Forall_impl; [|exact H].
  intros r Hr. cbv beta. rewrite node_of_path. intro E. apply Hr. now apply char_codes_inj.
Qed.

(** C2. With the filesystem guest modelled from the specification,
    starting from an empty node table: every sequence of [addFile] and
    [addDirectory] calls that the guest has room for succeeds, and after
    it [getFileContents] fails with [NotFound] for every path that none
    of them registered, and for a path registered as a file it returns
    a view whose length is the size of the contents registered last
    under the path, over those contents. *)
Theorem getFileContents_after_registrations :
  forall (fs0 : MemFS) (rs : list registration),
    exports fs0 = memfs_guest ->
    byteLength (mem fs0) = PATH_BUF_SIZE ->
    Forall reg_fits rs ->
    exists fs,
      register_all fs0 rs = (fs, Ok tt)
      /\ (forall path : string,
             strlen path <= PATH_BUF_SIZE ->
             Forall (fun r => reg_path r <> path) rs ->
             exists fs', getFileContents fs path = (fs', Throw NotFound))
      /\ (forall (path : string) (contents : buf) (before after : list registration),
             rs = before ++ RegFile path contents :: after ->
             Forall (fun r => reg_path r <> path) after ->
             exists fs' v,
               getFileContents fs path = (fs', Ok v)
               /\ view_length v = len (buf_bytes contents)
               /\ view_contents (mem fs') v
                  = map (fun b => b mod 256) (buf_bytes contents)).
Proof.
  intros fs0 rs Hex Hsize Hfit.
  assert (Ht0 : table_holds fs0 []).
  { split; [exact Hex|]. split; [constructor|].
    exists (u8 (mem fs0)). split; [exact Hsize|]. cbn [flat_map]. now rewrite app_nil_r. }
  destruct (register_all_table rs fs0 [] Ht0 Hfit) as (fs & E & Ht).
  cbn [app] in Ht. exists fs. split; [exact E|]. split.
  - intros path Hlen Hne.
    apply (getFileContents_table_miss fs (map node_of rs)); try assumption.
    now apply nodes_without_path.
  - intros path contents before after -> Hne.
    rewrite map_app in Ht. cbn [map] in Ht.
    assert (Hlen : strlen path <= PATH_BUF_SIZE).
    { rewrite Forall_forall in Hfit.
      apply (Hfit (RegFile path contents)). apply in_elt. }
    destruct (getFileContents_table_hit fs (map node_of before)
                (node_of (RegFile path contents)) (map node_of after) path Ht Hlen)
      as (fs' & v & Hg & Hl & Hc).
    + reflexivity.
    + now apply nodes_without_path.
    + exists fs', v. split; [exact Hg|]. cbn [node_of fcontent] in Hl, Hc.
      split; [|exact Hc]. rewrite Hl. unfold len. now rewrite length_map.
Qed.

Lemma getFileContents_after_registrations_witness :
  exists fs,
    register_all empty_memfs [RegDirectory "src/"; RegFile "src/a.txt" (Bytes [104; 105; 10])]
    = (fs, Ok tt)
    /\ (exists fs', getFileContents fs "src/b.txt" = (fs', Throw NotFound))
    /\ exists fs' v,
        getFileContents fs "src/a.txt" = (fs', Ok v)
        /\ view_length v = 3
        /\ view_contents (mem fs') v = [104; 105; 10].
Proof.
  destruct (getFileContents_after_registrations empty_memfs
              [RegDirectory "src/"; RegFile "src/a.txt" (Bytes [104; 105; 10])])
    as (fs & E & Hmiss & Hhit).
  - reflexivity.
  - reflexivity.
  - constructor; [split; [vm_compute; discriminate|exact I]|].
    constructor; [split; [vm_compute; discriminate|vm_compute; reflexivity]|constructor].
  - exists fs. split; [exact E|]. split.
    + apply Hmiss.
      * vm_compute. discriminate.
      * repeat constructor; discriminate.
    + apply (Hhit "src/a.txt" (Bytes [104; 105; 10]) [RegDirectory "src/"] []).
      * reflexivity.
      * constructor.
Defined.

(** The archive round trip of the specification over the modelled guest:
    after the load, [getFileContents("src/a.txt")] returns exactly the 3
    bytes of the file, [src/] is registered (as a node without
    contents), and a path of no entry is not found. *)
Example untar_then_getFileContents :
  match untar 3 round_trip_archive empty_memfs with
  | Some (_, fs, r) =>
      r = Ok tt
      /\ (let '(fs', v) := getFileContents fs "src/a.txt" in
          match v with
          | Ok v => view_contents (mem fs') v = [104; 105; 10]
          | Throw _ => False
          end)
      /\ snd (getFileContents fs "src/") = Ok (mkView 269 0)
      /\ snd (getFileContents fs "a.txt") = Throw NotFound
  | None => False
  end.
Proof.
  vm_compute. repeat split.
Qed.

(** ** [Tar] *)

Lemma readEntry_unsupported (t : Tar) :
  valid_header t -> type_flag t <> "0" -> type_flag t <> "5" ->
  exists t',
    readEntry t
    = (t', [EvConsoleLog ("type " ++ type_flag t)], Throw (AssertError "assertion failed.")).
Proof.
  unfold valid_header, type_flag. intros [Hin Hmagic] H0 H5.
  unfold readEntry. cbv [Tar_readOctal Tar_readStr alignUp]. cbn [tar_u8 offset].
  replace (offset t + 100 + 8 + 8 + 8 + 12 + 12 + 8) with (offset t + 156) by lia.
  replace (offset t + 156 + 1 + 100) with (offset t + 257) by lia.
  destruct (Z.ltb_spec (len (tar_u8 t)) (offset t + 512)) as [|_]; [lia|].
  rewrite Hmagic, String.eqb_refl. cbn [negb].
  apply String.eqb_neq in H0, H5. rewrite H0, H5. cbn [negb assert].
  eexists. reflexivity.
Qed.

(** C5. An archive entry (a header inside the archive that carries the
    magic) whose type flag is neither ['0'] nor ['5'] makes [readEntry]
    throw the assertion error, and the load fails with it: wherever in the
    archive the entry stands, [untar] stops there with that error, the
    entry is not skipped, and nothing of it reaches the filesystem, which
    holds what the entries before it put there (and the console line). *)
Theorem untar_rejects_unsupported_type :
  forall (t t' : Tar) (memfs memfs' : MemFS),
    untar_reaches t memfs t' memfs' ->
    valid_header t' -> type_flag t' <> "0" -> type_flag t' <> "5" ->
    snd (readEntry t') = Throw (AssertError "assertion failed.")
    /\ exists (n : nat) (t'' : Tar),
        forall fuel : nat,
          (n <= fuel)%nat ->
          untar fuel t memfs
          = Some (t'', emit memfs' (EvConsoleLog ("type " ++ type_flag t')),
                  Throw (AssertError "assertion failed.")).
Proof.
  intros t t' memfs memfs' Hreach Hv H0 H5.
  destruct (readEntry_unsupported t' Hv H0 H5) as [t'' E].
  split; [now rewrite E|].
  induction Hreach as [t memfs|t t1 t' memfs memfs1 memfs' log e Hr He _ IH].
  - exists 1%nat, t''. intros [|fuel] Hf; [lia|].
    cbn [untar]. rewrite E. reflexivity.
  - destruct (IH Hv H0 H5 E) as (n & t3 & Hn).
    exists (S n), t3. intros [|fuel] Hf; [lia|].
    cbn [untar]. rewrite Hr, He. apply Hn. lia.
Qed.

Lemma untar_rejects_unsupported_type_witness :
  snd (readEntry link_archive_at_link) = Throw (AssertError "assertion failed.")
  /\ exists (n : nat) (t'' : Tar),
      forall fuel : nat,
        (n <= fuel)%nat ->
        untar fuel link_archive (example_fs hello_mem)
        = Some (t'', emit (fst (addDirectory (example_fs hello_mem) "src/"))
                          (EvConsoleLog ("type " ++ type_flag link_archive_at_link)),
                Throw (AssertError "assertion failed.")).
Proof.
  apply (untar_rejects_unsupported_type link_archive link_archive_at_link
           (example_fs hello_mem) (fst (addDirectory (example_fs hello_mem) "src/"))).
  - eapply reaches_entry.
    + vm_compute. reflexivity.
    + vm_compute. reflexivity.
    + apply reaches_start.
  - split; [vm_compute; discriminate|vm_compute; reflexivity].
  - vm_compute. discriminate.
  - vm_compute. discriminate.
Defined.

(** Loading the whole example archive: the directory before the link is
    registered (its path is the last one written to the guest's path
    buffer), the load stops at the link with the assertion error, and the
    file after it is never read. *)
Example untar_link_archive :
  match untar 4 link_archive (example_fs hello_mem) with
  | Some (t, fs, r) =>
      r = Throw (AssertError "assertion failed.")
      /\ offset t = 1024
      /\ Memory_readStr (mem fs) 0 (-1) = "src/"
      /\ trace fs = [EvConsoleLog "type 2"]
  | None => False
  end.
Proof.
  vm_compute. repeat split.
Qed.

(** ** [formatErrorMsg] *)

Lemma GetSubstitution_no_dollar (matched before after template : string) :
  has_dollar template = false ->
  GetSubstitution matched before after template = template.
Proof.
  induction template as [|c rest IH]; [reflexivity|].
  cbn [has_dollar GetSubstitution]. intro H. apply orb_false_elim in H as [Hc Hrest].
  rewrite Hc. f_equal. now apply IH.
Qed.

(** With a file name that holds no dollar sign, [replace] puts the name
    itself in the place of the first occurrence of the pattern. *)
Lemma replace_no_dollar (str pattern replacement : string) :
  has_dollar replacement = false ->
  replace str pattern replacement = replace_verbatim str pattern replacement.
Proof.
  intro H. unfold replace, replace_verbatim.
  destruct (index 0 pattern str); [|reflexivity].
  now rewrite GetSubstitution_no_dollar.
Qed.

Lemma formatErrorMsg_no_dollar (msg activeTabName : string) :
  has_dollar activeTabName = false ->
  formatErrorMsg msg activeTabName
  = concat LF (map (fun line => replace_verbatim line "<exec>" activeTabName)
                   (let lines := split (ascii_of_nat 10) msg in
                    firstn 1 lines ++ skipn 7 lines)).
Proof.
  intro H. unfold formatErrorMsg. f_equal. apply map_ext. intro line.
  now apply replace_no_dollar.
Qed.

(** The traceback of the documentation, formatted for [example.py]. *)
Example formatErrorMsg_example_py :
  formatErrorMsg name_error_traceback "example.py"
  = ("Traceback (most recent call last):" ++ LF
     ++ "  File " ++ DQ ++ "example.py" ++ DQ ++ ", line 1, in <module>" ++ LF
     ++ "NameError: name 'x' is not defined")%string.
Proof. reflexivity. Qed.

(** C8. The token of the execution wrapper is to be rewritten to the
    active file name on each line shown.  [formatErrorMsg] hands the file
    name to [replace] as a replacement template: for the file name
    [cash$$.py] the line shown names [cash$.py], and for [a$&b.py] it
    names [a<exec>b.py]; neither is the active file name. *)
Theorem formatErrorMsg_expands_dollar_patterns :
  formatErrorMsg name_error_traceback "cash$$.py"
  = ("Traceback (most recent call last):" ++ LF
     ++ "  File " ++ DQ ++ "cash$.py" ++ DQ ++ ", line 1, in <module>" ++ LF
     ++ "NameError: name 'x' is not defined")%string
  /\ formatErrorMsg name_error_traceback "a$&b.py"
     = ("Traceback (most recent call last):" ++ LF
        ++ "  File " ++ DQ ++ "a<exec>b.py" ++ DQ ++ ", line 1, in <module>" ++ LF
        ++ "NameError: name 'x' is not defined")%string.
Proof.
  split; reflexivity.
Qed.

(** ** [host_read] *)

(** The input scenario of the specification: the line ["42\n"] arrives
    while the guest waits on a 10-byte iovec; 3 bytes land in the buffer,
    3 is the count, and the mailbox is cleared.  With no line the read
    stays blocked after its request. *)
Example host_read_42 :
  match host_read (Some ("42" ++ LF)%string) (example_fs one_iovec_mem) 0 0 1 16 with
  | Completed fs r =>
      r = Ok ESUCCESS
      /\ read32 (hostMem_ fs) 16 = Some 3
      /\ buffer_bytes (hostMem_ fs) (24, 10) = [52; 50; 10; 7; 7; 7; 7; 7; 7; 7]
      /\ sharedMem fs = repeat 0 16
      /\ trace fs = [EvReadStdin]
  | Blocked _ => False
  end
  /\ host_read None (example_fs one_iovec_mem) 0 0 1 16
     = Blocked (hostRead (example_fs one_iovec_mem)).
Proof.
  vm_compute. repeat split.
Qed.

(** C3. A read is to deliver min(total iovec capacity, available bytes)
    bytes.  With the line ["42\n"] in the mailbox and the iovecs
    [(24, 0)] and [(24, 10)] (capacity 10, 3 bytes available),
    [host_read] stops at the empty first iovec: it stores the count 0 and
    leaves the buffer untouched, where 3 bytes were to be delivered. *)
Theorem host_read_stops_at_empty_iovec :
  let fs := example_fs empty_iovec_first_mem in
  iovecs_at (hostMem_ fs) 0 2 = Some [(24, 0); (24, 10)]
  /\ Z.min (total_length [(24, 0); (24, 10)]) (strlen ("42" ++ LF)) = 3
  /\ match host_read (Some ("42" ++ LF)%string) fs 0 0 2 16 with
     | Completed fs' r =>
         r = Ok ESUCCESS
         /\ read32 (hostMem_ fs') 16 = Some 0
         /\ buffer_bytes (hostMem_ fs') (24, 10) = repeat 7 10
         /\ stdinStr fs' = ("42" ++ LF)%string
         /\ stdinStrPos fs' = Some 0
     | Blocked _ => False
     end.
Proof.
  vm_compute. repeat split.
Qed.

Lemma store_from_length (bs view : list Z) (i : nat) :
  List.length (store_from view i bs) = List.length view.
Proof.
  revert view i. induction bs as [|b bs IH]; intros view i; cbn [store_from]; [reflexivity|].
  rewrite IH. destruct (Nat.ltb_spec i (List.length view)); [|reflexivity].
  apply splice_length. simpl. lia.
Qed.

Lemma mailbox_after_wait_length (shared seen : list Z) (input : option string) :
  mailbox_after_wait shared input = Some seen -> List.length seen = List.length shared.
Proof.
  unfold mailbox_after_wait, Atomics_wait.
  destruct (u32_get shared 0) as [[| |]|]; try destruct input;
    intro H; try discriminate; injection H as <-;
    try reflexivity; unfold deliver, deliver_units; apply store_from_length.
Qed.

(** Whatever string is pending plays no part in a read.  While the
    control word is 0 and no line is delivered, the read stays blocked;
    when a read returns, its result and its whole final state are the
    same whatever string was pending before. *)
Lemma host_read_pending_irrelevant
  (input : option string) (fs : MemFS) (fd iovs iovs_len nread : Z)
  (str : string) (pos : option Z) :
  let old := set_pending fs str pos in
  (u32_get (sharedMem fs) 0 = Some 0 ->
   host_read None old fd iovs iovs_len nread = Blocked (hostRead old))
  /\ (forall (fs' : MemFS) (r : Z),
         host_read input fs fd iovs iovs_len nread = Completed fs' (Ok r) ->
         host_read input old fd iovs iovs_len nread = Completed fs' (Ok r)).
Proof.
  intros old. subst old.
  destruct fs as [s0 p0 shared ex me hm tr].
  unfold host_read, set_pending, mailbox_after_wait, hostRead, emit.
  cbn [sharedMem stdinStr stdinStrPos exports mem hostMem_ trace]. split.
  - intro H0. unfold Atomics_wait. now rewrite H0.
  - intros fs' r.
    destruct (Atomics_wait shared input) as [|delivered| |]; try discriminate.
    + unfold set_sharedMem, setStdinStr, set_hostMem, set_stdinStrPos, check.
      cbn [sharedMem stdinStr stdinStrPos exports mem hostMem_ trace].
      destruct (scan_payload shared) as [payload|] eqn:Es; [|discriminate].
      destruct (assert (fd =? 0)); [|discriminate].
      destruct (host_read_loop (Z.to_nat iovs_len) hm iovs payload 0 0) as [[m q] [size|e]];
        [|discriminate].
      intro H. exact H.
    + unfold set_sharedMem, setStdinStr, set_hostMem, set_stdinStrPos, check.
      cbn [sharedMem stdinStr stdinStrPos exports mem hostMem_ trace].
      destruct (scan_payload delivered) as [payload|] eqn:Es; [|discriminate].
      destruct (assert (fd =? 0)); [|discriminate].
      destruct (host_read_loop (Z.to_nat iovs_len) hm iovs payload 0 0) as [[m q] [size|e]];
        [|discriminate].
      intro H. exact H.
Qed.

(** A read that has returned: what it found and what it left. *)
Lemma host_read_returned
  (input : option string) (fs fs' : MemFS) (fd iovs iovs_len nread r : Z) :
  host_read input fs fd iovs iovs_len nread = Completed fs' (Ok r) ->
  exists seen payload m q size,
    mailbox_after_wait (sharedMem fs) input = Some seen
    /\ scan_payload seen = Some payload
    /\ host_read_loop (Z.to_nat iovs_len) (hostMem_ fs) iovs payload 0 0 = (m, q, Ok size)
    /\ fs' = mkMemFS payload q (repeat 0 (List.length (sharedMem fs))) (exports fs) (mem fs)
                     (write32 m nread (or_zero size)) (trace fs ++ [EvReadStdin]).
Proof.
  destruct fs as [s0 p0 shared ex me hm tr].
  unfold host_read, hostRead, emit, mailbox_after_wait.
  cbn [sharedMem stdinStr stdinStrPos exports mem hostMem_ trace].
  destruct (Atomics_wait shared input) as [|delivered| |] eqn:Ew; try discriminate.
  - unfold set_sharedMem, setStdinStr, set_hostMem, set_stdinStrPos, check, fill0.
    cbn [sharedMem stdinStr stdinStrPos exports mem hostMem_ trace].
    destruct (scan_payload shared) as [payload|] eqn:Es; [|discriminate].
    destruct (assert (fd =? 0)); [|discriminate].
    destruct (host_read_loop (Z.to_nat iovs_len) hm iovs payload 0 0)
      as [[m q] [size|e]] eqn:El; [|discriminate].
    intro H. exists shared, payload, m, q, size.
    repeat split; try assumption. congruence.
  - assert (Hlen : List.length delivered = List.length shared).
    { apply (mailbox_after_wait_length shared delivered input).
      unfold mailbox_after_wait. now rewrite Ew. }
    unfold set_sharedMem, setStdinStr, set_hostMem, set_stdinStrPos, check, fill0.
    cbn [sharedMem stdinStr stdinStrPos exports mem hostMem_ trace].
    destruct (scan_payload delivered) as [payload|] eqn:Es; [|discriminate].
    destruct (assert (fd =? 0)); [|discriminate].
    destruct (host_read_loop (Z.to_nat iovs_len) hm iovs payload 0 0)
      as [[m q] [size|e]] eqn:El; [|discriminate].
    intro H. exists delivered, payload, m, q, size.
    repeat split; try assumption. rewrite <- Hlen. congruence.
Qed.

Lemma u32_get_zeros (n : nat) : (4 <= n)%nat -> u32_get (repeat 0 n) 0 = Some 0.
Proof.
  intro H. unfold u32_get, len. rewrite repeat_length.
  destruct (Z.ltb_spec (Z.of_nat n) (4 * 0 + 4)); [lia|].
  do 4 (destruct n as [|n]; [lia|]). reflexivity.
Qed.

Lemma mailbox_after_wait_size (shared seen : list Z) (input : option string) :
  mailbox_after_wait shared input = Some seen -> (4 <= List.length shared)%nat.
Proof.
  unfold mailbox_after_wait, Atomics_wait, u32_get, len.
  destruct (Z.ltb_spec (Z.of_nat (List.length shared)) (4 * 0 + 4)) as [|H];
    [discriminate|]. intros _. lia.
Qed.

(** Two reads in a row: the first finds ["hello"] and a 2-byte iovec, and
    delivers ["he"]; the second finds ["x"] and a 10-byte iovec, and
    delivers ["x"] alone: the three bytes left over are gone. *)
Example host_read_drops_leftover :
  match host_read (Some "hello") (example_fs short_iovec_mem) 0 0 1 16 with
  | Completed fs1 _ =>
      read32 (hostMem_ fs1) 16 = Some 2
      /\ stdinStr fs1 = "hello" /\ stdinStrPos fs1 = Some 2
      /\ match host_read (Some "x") (set_hostMem fs1 one_iovec_mem) 0 0 1 16 with
         | Completed fs2 _ =>
             read32 (hostMem_ fs2) 16 = Some 1
             /\ buffer_bytes (hostMem_ fs2) (24, 10) = [120; 7; 7; 7; 7; 7; 7; 7; 7; 7]
         | Blocked _ => False
         end
  | Blocked _ => False
  end.
Proof.
  vm_compute. repeat split.
Qed.

(** *** The count of a read over iovecs of positive length *)

Lemma skipn_nth_error (l : list Z) (p : nat) :
  skipn p l = match nth_error l p with
              | Some x => x :: skipn (S p) l
              | None => []
              end.
Proof.
  revert p. induction l as [|y l IH]; intros [|p]; try reflexivity.
  cbn [nth_error]. rewrite <- IH. reflexivity.
Qed.

Lemma firstn_skipn_ext (n p : nat) (l1 l2 : list Z) :
  (forall j, (p <= j < p + n)%nat -> nth_error l1 j = nth_error l2 j) ->
  firstn n (skipn p l1) = firstn n (skipn p l2).
Proof.
  revert p. induction n as [|n IH]; intros p H; [reflexivity|].
  rewrite (skipn_nth_error l1 p), (skipn_nth_error l2 p), (H p) by lia.
  destruct (nth_error l2 p); [|reflexivity].
  cbn [firstn]. f_equal. apply IH. intros j Hj. apply H. lia.
Qed.

Lemma typed_get_of_nat (a : list Z) (j : nat) : typed_get a (Z.of_nat j) = nth_error a j.
Proof.
  unfold typed_get. destruct (Z.ltb_spec (Z.of_nat j) 0); [lia|]. now rewrite Nat2Z.id.
Qed.

Lemma u32_get_splice_outside (a : list Z) (i : nat) (bs : list Z) (k : Z) :
  (i + List.length bs <= List.length a)%nat ->
  4 * k + 4 <= Z.of_nat i \/ Z.of_nat i + len bs <= 4 * k ->
  u32_get (splice a i bs) k = u32_get a k.
Proof.
  intros Hin Hk. unfold u32_get, len. rewrite splice_length by exact Hin.
  destruct ((k <? 0) || (Z.of_nat (List.length a) <? 4 * k + 4)) eqn:E; [reflexivity|].
  apply orb_false_elim in E as [E _]. apply Z.ltb_ge in E.
  rewrite (firstn_skipn_ext 4 (Z.to_nat (4 * k)) (splice a i bs) a); [reflexivity|].
  intros j Hj. rewrite <- !typed_get_of_nat. apply splice_outside; [exact Hin|].
  unfold len in *. lia.
Qed.

Lemma write_array_frame (m m' : Memory) (o n : Z) (bs : list Z) (p : Z) :
  write_array m o bs = Ok (m', n) ->
  word_clear p (o, len bs) ->
  read32 m' p = read32 m p.
Proof.
  unfold write_array, word_clear, byteLength, len. cbn [fst snd].
  destruct (Z.ltb_spec o 0); [discriminate|].
  destruct (Z.ltb_spec (Z.of_nat (List.length (u8 m)))
                       (o + Z.of_nat (List.length bs))); [discriminate|].
  cbn [orb]. intros E Hc. injection E as <- _. unfold read32. cbn [u8].
  apply u32_get_splice_outside.
  - rewrite length_map. lia.
  - unfold len. rewrite length_map. lia.
Qed.

Lemma write_array_byteLength (m m' : Memory) (o n : Z) (bs : list Z) :
  write_array m o bs = Ok (m', n) -> byteLength m' = byteLength m.
Proof.
  unfold write_array, byteLength, len.
  destruct (Z.ltb_spec o 0); [discriminate|].
  destruct (Z.ltb_spec (Z.of_nat (List.length (u8 m)))
                       (o + Z.of_nat (List.length bs))); [discriminate|].
  cbn [orb]. intros E. injection E as <- _. cbn [u8].
  rewrite splice_length; [reflexivity|]. rewrite length_map. lia.
Qed.

Lemma descriptors_clear_tail (n : nat) (iovs : Z) (v : Z * Z) (l : list (Z * Z)) :
  descriptors_clear iovs n (v :: l) ->
  descriptors_clear iovs n [v] /\ descriptors_clear iovs n l.
Proof.
  revert iovs. induction n as [|n IH]; intros iovs; cbn [descriptors_clear]; [tauto|].
  intros (H1 & H2 & H3). apply IH in H3 as [H3 H4].
  inversion H1; subst. inversion H2; subst. repeat split; auto.
Qed.

Lemma iovecs_at_frame (n : nat) (iovs : Z) (m m' : Memory) (o k : Z) (bs : list Z) :
  write_array m o bs = Ok (m', k) ->
  descriptors_clear iovs n [(o, len bs)] ->
  iovecs_at m' iovs n = iovecs_at m iovs n.
Proof.
  intro W. revert iovs. induction n as [|n IH]; intros iovs; [reflexivity|].
  cbn [descriptors_clear iovecs_at]. intros (H1 & H2 & H3).
  inversion H1; subst. inversion H2; subst.
  rewrite (write_array_frame _ _ _ _ _ iovs W), (write_array_frame _ _ _ _ _ (iovs + 4) W)
    by assumption.
  now rewrite IH.
Qed.

Lemma descriptors_clear_shrink (n : nat) (iovs b le le' : Z) :
  0 <= le' <= le ->
  descriptors_clear iovs n [(b, le)] -> descriptors_clear iovs n [(b, le')].
Proof.
  intro H. revert iovs. induction n as [|n IH]; intros iovs; cbn [descriptors_clear]; [tauto|].
  intros (H1 & H2 & H3). inversion H1; subst. inversion H2; subst.
  unfold word_clear in *. cbn [fst snd] in *.
  repeat split; [constructor; [cbn [fst snd]; lia|constructor] ..|]. now apply IH.
Qed.

Lemma substring_length (s : string) (n m : nat) :
  (n + m <= String.length s)%nat -> String.length (substring n m s) = m.
Proof.
  revert n m. induction s as [|c s IH]; intros [|n] [|m] H; simpl in *;
    try reflexivity; try lia.
  - now rewrite IH by lia.
  - apply IH. lia.
  - apply IH. lia.
Qed.

Lemma substr_length (str : string) (pos n : Z) :
  0 <= pos -> 0 <= n -> pos + n <= strlen str -> strlen (substr str pos n) = n.
Proof.
  unfold strlen, substr. intros Hp Hn H. rewrite substring_length; lia.
Qed.

Lemma total_length_nonneg (l : list (Z * Z)) :
  Forall (fun v => 0 < snd v) l -> 0 <= total_length l.
Proof.
  induction 1 as [|v l Hv _ IH]; [reflexivity|]. rewrite total_length_cons. lia.
Qed.

Lemma in_bounds_byteLength (m m' : Memory) (l : list (Z * Z)) :
  byteLength m' = byteLength m -> Forall (in_bounds m) l -> Forall (in_bounds m') l.
Proof.
  intros E H. induction H as [|v l Hv _ IH]; constructor; [|exact IH].
  unfold in_bounds in *. now rewrite E.
Qed.

(** Over iovecs of positive length, in bounds and clear of their own
    descriptors, the loop of [host_read] advances by min(total capacity,
    bytes left). *)
Lemma host_read_loop_count (n : nat) :
  forall (m : Memory) (iovs : Z) (l : list (Z * Z)) (str : string) (pos size : Z),
    iovecs_at m iovs n = Some l ->
    Forall (fun v => 0 < snd v) l ->
    Forall (in_bounds m) l ->
    descriptors_clear iovs n l ->
    0 <= pos <= strlen str ->
    exists m',
      host_read_loop n m iovs str pos size
      = (m', Some (pos + Z.min (total_length l) (strlen str - pos)),
         Ok (Some (size + Z.min (total_length l) (strlen str - pos))))
      /\ byteLength m' = byteLength m.
Proof.
  induction n as [|n IH]; intros m iovs l str pos size Hl Hpos Hin Hclear Hp.
  - cbn [iovecs_at] in Hl. injection Hl as <-. exists m. split; [|reflexivity].
    cbn [host_read_loop total_length fold_right].
    replace (Z.min 0 (strlen str - pos)) with 0 by lia. now rewrite !Z.add_0_r.
  - cbn [iovecs_at] in Hl.
    destruct (read32 m iovs) as [b|] eqn:Eb; [|discriminate].
    destruct (read32 m (iovs + 4)) as [le|] eqn:El; [|discriminate].
    destruct (iovecs_at m (iovs + 8) n) as [rest|] eqn:Er; [|discriminate].
    injection Hl as <-.
    inversion Hpos as [|? ? Hle Hpos']; subst.
    inversion Hin as [|? ? Hb Hin']; subst.
    destruct Hb as (Hb0 & _ & Hb1). cbn [fst snd] in *.
    cbn [descriptors_clear] in Hclear. destruct Hclear as (_ & _ & Hclear).
    apply descriptors_clear_tail in Hclear as [Hclear1 Hclear].
    pose proof (total_length_nonneg rest Hpos') as Hrest.
    rewrite total_length_cons. cbn [snd].
    cbn [host_read_loop]. rewrite Eb, El. cbn [or_zero].
    replace (iovs + 4 + 4) with (iovs + 8) by lia.
    set (lenToWrite := Z.min le (strlen str - pos)).
    destruct (Z.eqb_spec lenToWrite 0) as [E0|E0].
    + exists m. split; [|reflexivity].
      replace (Z.min (le + total_length rest) (strlen str - pos)) with 0 by lia.
      now rewrite !Z.add_0_r.
    + assert (Hlen : len (char_codes (substr str pos lenToWrite)) = lenToWrite)
        by (rewrite char_codes_length; apply substr_length; lia).
      cbn [write].
      pose proof (write_array_ok m b (char_codes (substr str pos lenToWrite))) as W.
      rewrite Hlen in W. specialize (W Hb0 ltac:(lia)).
      set (m1 := mkMemory _) in W. rewrite W.
      assert (Hbl : byteLength m1 = byteLength m)
        by (apply (write_array_byteLength _ _ _ _ _ W)).
      destruct (Z.eqb_spec lenToWrite le) as [Efull|Eshort]; cbn [negb].
      * destruct (IH m1 (iovs + 8) rest str (pos + lenToWrite) (size + lenToWrite))
          as (m' & Eloop & Hbl').
        -- rewrite <- Er. apply (iovecs_at_frame n (iovs + 8) m m1 b lenToWrite _ W).
           rewrite Hlen.
           apply (descriptors_clear_shrink n (iovs + 8) b le lenToWrite); [lia|exact Hclear1].
        -- exact Hpos'.
        -- now apply (in_bounds_byteLength m).
        -- exact Hclear.
        -- lia.
        -- exists m'. split; [|congruence]. rewrite Eloop. do 3 f_equal; lia.
      * exists m1. split; [|exact Hbl]. do 3 f_equal; lia.
Qed.

(** X15. A read on descriptor 0 that finds a terminated payload in the
    mailbox, over iovecs of positive length that lie inside the memory and
    do not cover their own descriptors: the count stored for the guest is
    min(total capacity, length of the payload), the payload becomes the
    pending string read up to the count, and the mailbox is zeroed. *)
Lemma host_read_count :
  forall (input : option string) (fs : MemFS) (iovs iovs_len nread : Z)
         (seen : list Z) (payload : string) (l : list (Z * Z)),
    mailbox_after_wait (sharedMem fs) input = Some seen ->
    scan_payload seen = Some payload ->
    iovecs_at (hostMem_ fs) iovs (Z.to_nat iovs_len) = Some l ->
    Forall (fun v => 0 < snd v) l ->
    Forall (in_bounds (hostMem_ fs)) l ->
    descriptors_clear iovs (Z.to_nat iovs_len) l ->
    let count := Z.min (total_length l) (strlen payload) in
    exists m',
      host_read input fs 0 iovs iovs_len nread
      = Completed (mkMemFS payload (Some count) (repeat 0 (List.length (sharedMem fs)))
                           (exports fs) (mem fs) (write32 m' nread count)
                           (trace fs ++ [EvReadStdin]))
                  (Ok ESUCCESS).
Proof.
  intros input fs iovs iovs_len nread seen payload l Hseen Hscan Hl Hpos Hin Hclear count.
  pose proof (mailbox_after_wait_length _ _ _ Hseen) as Hlen.
  destruct (host_read_loop_count (Z.to_nat iovs_len) (hostMem_ fs) iovs l payload 0 0
              Hl Hpos Hin Hclear) as (m' & Eloop & _).
  { pose proof (strlen_nonneg payload). lia. }
  rewrite Z.sub_0_r, !Z.add_0_l in Eloop. fold count in Eloop.
  exists m'. destruct fs as [s0 p0 shared ex me hm tr].
  unfold host_read, mailbox_after_wait, hostRead, emit in *.
  cbn [sharedMem stdinStr stdinStrPos exports mem hostMem_ trace] in *.
  assert (E : match Atomics_wait shared input with
              | WaitForever => None
              | WaitRangeError => Some (Throw (RangeError "Invalid atomic access index"))
              | WaitNotEqual => Some (Ok shared)
              | WaitOk delivered => Some (Ok delivered)
              end = Some (Ok seen)).
  { destruct (Atomics_wait shared input); try discriminate; congruence. }
  rewrite E.
  unfold set_sharedMem, setStdinStr, set_hostMem, set_stdinStrPos, check, fill0.
  cbn [sharedMem stdinStr stdinStrPos exports mem hostMem_ trace].
  rewrite Hscan. cbn [Z.eqb assert]. rewrite Eloop. cbn [or_zero].
  now rewrite Hlen.
Qed.

(** X17. Every read that returns leaves the mailbox zeroed, at its size:
    no byte of the line is left for a later read. *)
Lemma host_read_clears_mailbox :
  forall (input : option string) (fs fs' : MemFS) (fd iovs iovs_len nread r : Z),
    host_read input fs fd iovs iovs_len nread = Completed fs' (Ok r) ->
    sharedMem fs' = repeat 0 (List.length (sharedMem fs)).
Proof.
  intros input fs fs' fd iovs iovs_len nread r.
  destruct fs as [s0 p0 shared ex me hm tr].
  unfold host_read, hostRead, emit.
  cbn [sharedMem stdinStr stdinStrPos exports mem hostMem_ trace].
  destruct (Atomics_wait shared input) as [|delivered| |] eqn:Ew; try discriminate.
  - unfold set_sharedMem, setStdinStr, set_hostMem, set_stdinStrPos, check, fill0.
    cbn [sharedMem stdinStr stdinStrPos exports mem hostMem_ trace].
    destruct (scan_payload shared) as [payload|]; [|discriminate].
    destruct (assert (fd =? 0)); [|discriminate].
    destruct (host_read_loop (Z.to_nat iovs_len) hm iovs payload 0 0) as [[m q] [size|e]];
      [|discriminate].
    intro H. injection H as <- _. reflexivity.
  - assert (Hlen : List.length delivered = List.length shared).
    { apply (mailbox_after_wait_length shared delivered input).
      unfold mailbox_after_wait. now rewrite Ew. }
    unfold set_sharedMem, setStdinStr, set_hostMem, set_stdinStrPos, check, fill0.
    cbn [sharedMem stdinStr stdinStrPos exports mem hostMem_ trace].
    destruct (scan_payload delivered) as [payload|]; [|discriminate].
    destruct (assert (fd =? 0)); [|discriminate].
    destruct (host_read_loop (Z.to_nat iovs_len) hm iovs payload 0 0) as [[m q] [size|e]];
      [|discriminate].
    intro H. injection H as <- _. cbn [sharedMem]. now rewrite Hlen.
Qed.

(** * Further properties of the runtime *)

(** ** Memory accessors *)

Lemma to_int32_small (o : Z) : - 2 ^ 31 <= o < 2 ^ 31 -> to_int32 o = o.
Proof.
  intro H. unfold to_int32. rewrite Z.mod_small; lia.
Qed.

Lemma sar2_small (o : Z) : 0 <= o < 2 ^ 31 -> sar2 o = o / 4.
Proof.
  intro H. unfold sar2. rewrite to_int32_small by lia.
  rewrite Z.shiftr_div_pow2 by lia. reflexivity.
Qed.

Lemma sar2_negative (o : Z) : - 2 ^ 31 <= o < 0 -> sar2 o < 0.
Proof.
  intro H. unfold sar2. rewrite to_int32_small by lia.
  rewrite Z.shiftr_div_pow2 by lia. change (2 ^ 2) with 4.
  apply Z.div_lt_upper_bound; lia.
Qed.

Lemma splice_inside (a : list Z) (i : nat) (bs : list Z) (k : nat) :
  (i + List.length bs <= List.length a)%nat ->
  typed_get (splice a i bs) (Z.of_nat i + Z.of_nat k) = nth_error bs k \/
  (List.length bs <= k)%nat.
Proof.
  intro Hin. destruct (Nat.lt_ge_cases k (List.length bs)) as [Hk|Hk]; [left|now right].
  rewrite <- Nat2Z.inj_add, typed_get_of_nat. unfold splice.
  rewrite nth_error_app2 by (rewrite length_firstn; lia).
  rewrite length_firstn.
  replace (i + k - Nat.min i (List.length a))%nat with k by lia.
  now rewrite nth_error_app1.
Qed.

Lemma splice_byteLength (a : list Z) (i : nat) (bs : list Z) :
  (i + List.length bs <= List.length a)%nat ->
  byteLength (mkMemory (splice a i bs)) = byteLength (mkMemory a).
Proof.
  intro H. unfold byteLength, len. cbn [u8]. now rewrite splice_length.
Qed.

Lemma mkMemory_u8 (m : Memory) : mkMemory (u8 m) = m.
Proof. now destruct m. Qed.

(** X1. A stored byte is read back modulo 256 and no other byte changes;
    a store outside the buffer changes nothing. *)
Theorem write8_then_read8 :
  forall (m : Memory) (o v : Z),
    (0 <= o < byteLength m ->
     read8 (write8 m o v) o = Some (v mod 256)
     /\ byteLength (write8 m o v) = byteLength m
     /\ forall i, i <> o -> read8 (write8 m o v) i = read8 m i)
    /\ (o < 0 \/ byteLength m <= o -> write8 m o v = m).
Proof.
  intros m o v. split.
  - intro H. unfold write8.
    destruct (Z.ltb_spec o 0); [lia|]. destruct (Z.leb_spec (byteLength m) o); [lia|].
    cbn [orb]. unfold byteLength, len in *.
    assert (Hin : (Z.to_nat o + List.length [(v mod 256)%Z] <= List.length (u8 m))%nat)
      by (simpl; lia).
    split; [|split].
    + unfold read8. cbn [u8].
      destruct (splice_inside (u8 m) (Z.to_nat o) [v mod 256] 0 Hin) as [E|E];
        [|simpl in E; lia].
      rewrite Z2Nat.id, Z.add_0_r in E by lia. exact E.
    + cbn [u8]. now rewrite splice_length.
    + intros i Hi. unfold read8. cbn [u8]. apply splice_outside; [exact Hin|].
      unfold len. simpl. lia.
  - intro H. unfold write8.
    destruct (Z.ltb_spec o 0); [reflexivity|].
    destruct (Z.leb_spec (byteLength m) o); [reflexivity|]. lia.
Qed.

Lemma write8_then_read8_witness :
  read8 (write8 sevens8 3 300) 3 = Some 44
  /\ byteLength (write8 sevens8 3 300) = 8
  /\ (forall i, i <> 3 -> read8 (write8 sevens8 3 300) i = read8 sevens8 i)
  /\ write8 sevens8 8 1 = sevens8.
Proof.
  pose proof (write8_then_read8 sevens8 3 300) as [H _].
  pose proof (write8_then_read8 sevens8 8 1) as [_ H'].
  specialize (H ltac:(cbn; lia)). specialize (H' ltac:(cbn; lia)).
  destruct H as (H1 & H2 & H3). repeat split; assumption.
Defined.

Lemma write32_u8 (m : Memory) (o v : Z) :
  0 <= sar2 o -> 4 * sar2 o + 4 <= byteLength m ->
  u8 (write32 m o v) = splice (u8 m) (Z.to_nat (4 * sar2 o)) (le32 (v mod 2 ^ 32)).
Proof.
  intros Hk Hin. unfold write32, u32_set, byteLength in *. cbn [u8].
  destruct (Z.ltb_spec (sar2 o) 0); [lia|].
  destruct (Z.ltb_spec (len (u8 m)) (4 * sar2 o + 4)); [lia|]. reflexivity.
Qed.

(** X2. A 32-bit store inside the buffer is read back modulo 2^32 at the
    same offset, keeps the size of the buffer, and changes no byte
    outside the aligned word that holds the offset. *)
Theorem write32_then_read32 :
  forall (m : Memory) (o v : Z),
    0 <= o < 2 ^ 31 -> 4 * (o / 4) + 4 <= byteLength m ->
    read32 (write32 m o v) o = Some (v mod 2 ^ 32)
    /\ byteLength (write32 m o v) = byteLength m
    /\ forall i, i < 4 * (o / 4) \/ 4 * (o / 4) + 4 <= i ->
                 read8 (write32 m o v) i = read8 m i.
Proof.
  intros m o v Ho Hin. pose proof (sar2_small o Ho) as Hs.
  assert (Hk : 0 <= sar2 o) by (rewrite Hs; apply Z.div_pos; lia).
  rewrite <- Hs in *.
  assert (Hl : (Z.to_nat (4 * sar2 o)%Z + List.length (le32 (v mod 2 ^ 32)%Z)
                <= List.length (u8 m))%nat)
    by (unfold byteLength, len in Hin;
        change (List.length (le32 (v mod 2 ^ 32))) with 4%nat; lia).
  split; [|split].
  - now apply read32_write32.
  - unfold byteLength, len. rewrite write32_u8 by assumption. now rewrite splice_length.
  - intros i Hi. unfold read8. rewrite write32_u8 by assumption.
    apply splice_outside; [exact Hl|]. unfold len.
    change (List.length (le32 (v mod 2 ^ 32))) with 4%nat. lia.
Qed.

Lemma write32_then_read32_witness :
  read32 (write32 sevens8 4 (2 ^ 32 + 5)) 4 = Some 5
  /\ byteLength (write32 sevens8 4 (2 ^ 32 + 5)) = 8
  /\ forall i, i < 4 \/ 8 <= i ->
               read8 (write32 sevens8 4 (2 ^ 32 + 5)) i = read8 sevens8 i.
Proof.
  apply (write32_then_read32 sevens8 4 (2 ^ 32 + 5)).
  - lia.
  - cbn. lia.
Defined.

(** X3. The two low bits of the offset are ignored: [read32] and
    [write32] at an offset act on the aligned word that holds it. *)
Theorem read32_write32_ignore_low_bits :
  forall (m : Memory) (o v : Z),
    0 <= o < 2 ^ 31 ->
    read32 m o = read32 m (4 * (o / 4))
    /\ write32 m o v = write32 m (4 * (o / 4)) v.
Proof.
  intros m o v Ho.
  assert (H4 : 0 <= 4 * (o / 4) < 2 ^ 31).
  { pose proof (Z.mul_div_le o 4). pose proof (Z.div_pos o 4). lia. }
  assert (E : sar2 (4 * (o / 4)) = sar2 o).
  { rewrite !sar2_small by assumption.
    rewrite Z.mul_comm, Z.div_mul by lia. reflexivity. }
  unfold read32, write32. now rewrite E.
Qed.

Lemma read32_write32_ignore_low_bits_witness :
  read32 hello_mem 7 = read32 hello_mem 4
  /\ write32 hello_mem 7 9 = write32 hello_mem 4 9.
Proof.
  apply (read32_write32_ignore_low_bits hello_mem 7 9). lia.
Defined.

(** X4. Outside the buffer a 32-bit read is [undefined] and a 32-bit
    store does nothing; this is so at every negative offset, which is how
    a pointer into the upper half of a 4 GiB memory arrives. *)
Theorem read32_write32_out_of_range :
  forall (m : Memory) (o v : Z),
    (sar2 o < 0 \/ byteLength m < 4 * sar2 o + 4 ->
     read32 m o = None /\ write32 m o v = m)
    /\ (- 2 ^ 31 <= o < 0 -> read32 m o = None /\ write32 m o v = m).
Proof.
  intros m o v.
  assert (G : sar2 o < 0 \/ byteLength m < 4 * sar2 o + 4 ->
              read32 m o = None /\ write32 m o v = m).
  { intro H. unfold read32, write32, u32_get, u32_set, byteLength in *.
    assert (E : (sar2 o <? 0) || (len (u8 m) <? 4 * sar2 o + 4) = true).
    { apply orb_true_iff. destruct H; [left; now apply Z.ltb_lt|right; now apply Z.ltb_lt]. }
    rewrite E. split; [reflexivity|apply mkMemory_u8]. }
  split; [exact G|]. intro H. apply G. left. now apply sar2_negative.
Qed.

Lemma read32_write32_out_of_range_witness :
  (read32 sevens8 8 = None /\ write32 sevens8 8 1 = sevens8)
  /\ (read32 sevens8 (-4) = None /\ write32 sevens8 (-4) 1 = sevens8).
Proof.
  split.
  - apply (proj1 (read32_write32_out_of_range sevens8 8 1)). right. cbn. lia.
  - apply (proj2 (read32_write32_out_of_range sevens8 (-4) 1)). lia.
Defined.

Lemma read32_write32_other (m : Memory) (p q v : Z) :
  sar2 q <> sar2 p -> read32 (write32 m p v) q = read32 m q.
Proof.
  intro Hne. unfold read32, write32, u32_set. cbn [u8].
  destruct ((sar2 p <? 0) || (len (u8 m) <? 4 * sar2 p + 4)) eqn:E; [reflexivity|].
  apply orb_false_elim in E as [E1 E2]. apply Z.ltb_ge in E1, E2. unfold len in E2.
  apply u32_get_splice_outside.
  - change (List.length (le32 (v mod 2 ^ 32))) with 4%nat. lia.
  - unfold len. change (List.length (le32 (v mod 2 ^ 32))) with 4%nat. lia.
Qed.

Lemma write32_byteLength (m : Memory) (o v : Z) :
  byteLength (write32 m o v) = byteLength m.
Proof.
  unfold write32, u32_set, byteLength. cbn [u8].
  destruct ((sar2 o <? 0) || (len (u8 m) <? 4 * sar2 o + 4)) eqn:E; [reflexivity|].
  apply orb_false_elim in E as [E1 E2]. apply Z.ltb_ge in E1, E2. unfold len in *.
  rewrite splice_length; [reflexivity|].
  change (List.length (le32 (v mod 2 ^ 32))) with 4%nat. lia.
Qed.

(** X5. [write64] leaves the low value in the word at the offset and the
    high value in the next word, each modulo 2^32. *)
Theorem write64_then_read32 :
  forall (m : Memory) (o vlo vhi : Z),
    0 <= o -> o + 4 < 2 ^ 31 -> 4 * (o / 4) + 8 <= byteLength m ->
    read32 (write64 m o vlo vhi) o = Some (vlo mod 2 ^ 32)
    /\ read32 (write64 m o vlo vhi) (o + 4) = Some (vhi mod 2 ^ 32).
Proof.
  intros m o vlo vhi Ho H31 Hin.
  assert (Hs : sar2 o = o / 4) by (apply sar2_small; lia).
  assert (Hs4 : sar2 (o + 4) = o / 4 + 1).
  { rewrite sar2_small by lia.
    replace (o + 4) with (o + 1 * 4) by lia. now rewrite Z.div_add by lia. }
  assert (Hk : 0 <= o / 4) by (apply Z.div_pos; lia).
  unfold write64. split.
  - rewrite read32_write32_other by lia.
    apply read32_write32; rewrite Hs; lia.
  - apply read32_write32; rewrite ?write32_byteLength, Hs4; lia.
Qed.

Lemma write64_then_read32_witness :
  read32 (write64 sevens16 4 3 0) 4 = Some 3
  /\ read32 (write64 sevens16 4 3 0) 8 = Some 0.
Proof.
  apply (write64_then_read32 sevens16 4 3 0).
  - lia.
  - lia.
  - cbn. lia.
Defined.

(** X6. [write] throws a [RangeError] exactly when the bytes do not fit
    in the buffer from the offset on, and then stores nothing; otherwise
    it returns the number of bytes, which are read back modulo 256, and
    it changes no other byte. *)
Theorem write_in_and_out_of_bounds :
  forall (m : Memory) (o : Z) (b : buf),
    let n := len (buf_bytes b) in
    (o < 0 \/ byteLength m < o + n ->
     write m o b = Throw (RangeError "Invalid typed array length"))
    /\ (0 <= o /\ o + n <= byteLength m ->
        exists m',
          write m o b = Ok (m', n)
          /\ read_bytes m' o (List.length (buf_bytes b))
             = map (fun x => Some (x mod 256)) (buf_bytes b)
          /\ byteLength m' = byteLength m
          /\ forall i, i < o \/ o + n <= i -> read8 m' i = read8 m i).
Proof.
  intros m o b n.
  assert (E : write m o b = write_array m o (buf_bytes b)) by now destruct b.
  rewrite E. subst n. split.
  - intro H. unfold write_array.
    destruct (Z.ltb_spec o 0); [reflexivity|].
    destruct (Z.ltb_spec (byteLength m) (o + len (buf_bytes b))); [reflexivity|]. lia.
  - intros [Ho Hin]. rewrite write_array_ok by assumption.
    eexists. split; [reflexivity|].
    assert (Hl : (Z.to_nat o + List.length (map (fun x => (x mod 256)%Z) (buf_bytes b))
                  <= List.length (u8 m))%nat)
      by (rewrite length_map; unfold byteLength, len in Hin; lia).
    split; [|split].
    + pose proof (splice_read_bytes (u8 m) (Z.to_nat o)
                    (map (fun x => x mod 256) (buf_bytes b))) as R.
      rewrite Z2Nat.id, length_map, map_map in R by lia. apply R. lia.
    + unfold byteLength, len. cbn [u8]. now rewrite splice_length.
    + intros i Hi. unfold read8. cbn [u8]. apply splice_outside; [exact Hl|].
      unfold len in *. rewrite length_map. lia.
Qed.

Lemma write_in_and_out_of_bounds_witness :
  write sevens8 7 (Bytes [1; 2]) = Throw (RangeError "Invalid typed array length")
  /\ exists m',
      write sevens8 6 (Bytes [257; 2]) = Ok (m', 2)
      /\ read_bytes m' 6 2 = [Some 1; Some 2]
      /\ byteLength m' = 8
      /\ forall i, i < 6 \/ 8 <= i -> read8 m' i = read8 sevens8 i.
Proof.
  split.
  - apply (proj1 (write_in_and_out_of_bounds sevens8 7 (Bytes [1; 2]))). right. cbn. lia.
  - apply (proj2 (write_in_and_out_of_bounds sevens8 6 (Bytes [257; 2]))). cbn. lia.
Defined.

(** ** [writeStr] and [readStr] together *)

(** The loop of [readStr] over bytes that hold no null, followed by a
    null byte or by the end of the fuel. *)
Lemma readStr_loop_text (codes pre post : list Z) (fuel : nat) :
  Forall (fun b => b <> 0) codes ->
  (List.length codes <= fuel)%nat ->
  readStr_loop fuel (pre ++ codes ++ 0 :: post) (len pre) = text_of_bytes codes.
Proof.
  revert pre fuel. induction codes as [|c cs IH]; intros pre fuel Hnz Hf.
  - destruct fuel as [|fuel]; [reflexivity|].
    cbn [readStr_loop app]. now rewrite typed_get_middle.
  - destruct fuel as [|fuel]; [simpl in Hf; lia|].
    inversion Hnz as [|? ? Hc Hcs]; subst.
    cbn [readStr_loop]. change ((c :: cs) ++ 0 :: post) with (c :: cs ++ 0 :: post).
    rewrite typed_get_middle.
    replace (len pre + 1) with (len (pre ++ [c])) by (rewrite len_app; reflexivity).
    replace (pre ++ c :: cs ++ 0 :: post) with ((pre ++ [c]) ++ cs ++ 0 :: post)
      by (rewrite <- app_assoc; reflexivity).
    rewrite IH by (simpl in Hf; assumption || lia).
    destruct c; [contradiction| |]; reflexivity.
Qed.

Lemma until_null_split (codes post : list Z) :
  exists tail, codes ++ 0 :: post = until_null codes ++ 0 :: tail.
Proof.
  induction codes as [|c cs [tail IH]]; [now exists post|].
  cbn [until_null app]. destruct (Z.eqb_spec c 0) as [->|Hc].
  - now exists (cs ++ 0 :: post).
  - exists tail. cbn [app]. now rewrite IH.
Qed.

Lemma until_null_nonzero (codes : list Z) : Forall (fun b => b <> 0) (until_null codes).
Proof.
  induction codes as [|c cs IH]; [constructor|].
  cbn [until_null]. destruct (Z.eqb_spec c 0); [constructor|now constructor].
Qed.

Lemma until_null_length (codes : list Z) :
  (List.length (until_null codes) <= List.length codes)%nat.
Proof.
  induction codes as [|c cs IH]; [simpl; lia|].
  cbn [until_null]. destruct (c =? 0); simpl; lia.
Qed.

(** X7. A string written with [writeStr] is read back by [readStr] from
    the same offset up to its first null character: a text that holds no
    null character is read back whole, with no length given or with any
    length that covers it. *)
Theorem writeStr_then_readStr :
  forall (m : Memory) (o : Z) (text : string),
    0 <= o -> o + strlen text < byteLength m ->
    exists m',
      writeStr m o text = Ok (m', strlen text + 1)
      /\ Memory_readStr m' o (-1) = text_of_bytes (until_null (char_codes text))
      /\ (Forall (fun b => b <> 0) (char_codes text) ->
          forall n, n = -1 \/ strlen text <= n -> Memory_readStr m' o n = text).
Proof.
  intros m o text Ho Hb. eexists. split; [now apply writeStr_ok|].
  pose proof (char_codes_length text) as Hl. unfold len, strlen in Hl.
  unfold byteLength, len, strlen in Hb.
  set (pre := firstn (Z.to_nat o) (u8 m)).
  set (post := skipn (Z.to_nat o + List.length (char_codes text ++ [0])) (u8 m)).
  assert (Hpre : len pre = o)
    by (unfold len, pre; rewrite length_firstn; lia).
  assert (Hshape : splice (u8 m) (Z.to_nat o) (char_codes text ++ [0])
                   = pre ++ char_codes text ++ 0 :: post)
    by (unfold splice; fold pre post; now rewrite <- app_assoc).
  assert (Hlen : List.length (splice (u8 m) (Z.to_nat o) (char_codes text ++ [0]))
                 = List.length (u8 m))
    by (apply splice_length; rewrite length_app; simpl; lia).
  unfold Memory_readStr, readStr. cbn [u8]. split.
  - rewrite Z.eqb_refl, Hlen, Hshape, <- Hpre.
    destruct (until_null_split (char_codes text) post) as [tail ->].
    apply readStr_loop_text; [apply until_null_nonzero|].
    pose proof (until_null_length (char_codes text)). unfold len in *. lia.
  - intros Hnz n Hn.
    transitivity (text_of_bytes (char_codes text)); [|apply text_of_char_codes].
    rewrite Hlen, Hshape, <- Hpre.
    apply readStr_loop_text; [exact Hnz|].
    destruct (Z.eqb_spec n (-1)); unfold len, strlen in *; lia.
Qed.

Lemma writeStr_then_readStr_witness :
  exists m',
    writeStr sevens8 2 "ab" = Ok (m', 3)
    /\ Memory_readStr m' 2 (-1) = text_of_bytes (until_null (char_codes "ab"))
    /\ Memory_readStr m' 2 (-1) = "ab"
    /\ Memory_readStr m' 2 5 = "ab".
Proof.
  destruct (writeStr_then_readStr sevens8 2 "ab") as (m' & H1 & H2 & H3).
  - lia.
  - cbn. lia.
  - exists m'. split; [exact H1|]. split; [exact H2|].
    assert (Hnz : Forall (fun b => b <> 0) (char_codes "ab"))
      by (repeat constructor; discriminate).
    split; apply (H3 Hnz); [left; reflexivity|right; cbn; lia].
Defined.

(** X8. At the end of the buffer [writeStr] does not behave as inside it:
    when the text ends exactly at the end of the buffer the text is
    stored, the terminator is dropped without notice and the result is
    still the length plus one; when the text itself does not fit,
    [writeStr] throws a [RangeError]. *)
Theorem writeStr_at_end_of_buffer :
  forall (m : Memory) (o : Z) (text : string),
    (0 <= o -> o + strlen text = byteLength m ->
     writeStr m o text
     = Ok (mkMemory (firstn (Z.to_nat o) (u8 m) ++ char_codes text), strlen text + 1))
    /\ (o < 0 \/ byteLength m < o + strlen text ->
        writeStr m o text = Throw (RangeError "Invalid typed array length")).
Proof.
  intros m o text. pose proof (char_codes_length text) as Hl. split.
  - intros Ho He. unfold writeStr, write.
    rewrite write_array_ok by lia. cbn [bind]. rewrite char_codes_mod.
    unfold write8, byteLength, len, strlen in *. cbn [u8].
    rewrite splice_length by lia.
    destruct (Z.leb_spec (Z.of_nat (List.length (u8 m)))
                         (o + Z.of_nat (List.length (char_codes text)))) as [_|]; [|lia].
    rewrite orb_true_r. do 2 f_equal. unfold splice.
    rewrite skipn_all2 by lia. now rewrite app_nil_r.
  - intro H. unfold writeStr, write, write_array.
    destruct (Z.ltb_spec o 0); [reflexivity|].
    destruct (Z.ltb_spec (byteLength m) (o + len (char_codes text))); [reflexivity|]. lia.
Qed.

Lemma writeStr_at_end_of_buffer_witness :
  writeStr sevens8 6 "ab"
  = Ok (mkMemory (firstn 6 (u8 sevens8) ++ char_codes "ab"), 3)
  /\ writeStr sevens8 7 "ab" = Throw (RangeError "Invalid typed array length").
Proof.
  split.
  - apply (proj1 (writeStr_at_end_of_buffer sevens8 6 "ab")).
    + lia.
    + reflexivity.
  - apply (proj2 (writeStr_at_end_of_buffer sevens8 7 "ab")). right. cbn. lia.
Defined.

Lemma readStr_loop_outside (fuel : nat) (a : list Z) (i : Z) :
  len a <= i -> readStr_loop fuel a i = nul_chars fuel.
Proof.
  revert i. induction fuel as [|fuel IH]; intros i H; [reflexivity|].
  cbn [readStr_loop nul_chars]. unfold typed_get.
  destruct (Z.ltb_spec i 0); [now rewrite IH by lia|].
  destruct (nth_error a (Z.to_nat i)) eqn:E.
  - assert (L : (Z.to_nat i < List.length a)%nat)
      by (apply nth_error_Some; congruence).
    unfold len in H. lia.
  - now rewrite IH by lia.
Qed.

(** X9. [readStr] does not stop at the end of the buffer: with a length
    given, each index past the end yields a character of code 0, so a
    read that starts at or past the end returns that many null
    characters. *)
Theorem readStr_past_the_end :
  forall (m : Memory) (o n : Z),
    byteLength m <= o -> 0 <= n ->
    Memory_readStr m o n = nul_chars (Z.to_nat n)
    /\ strlen (Memory_readStr m o n) = n.
Proof.
  intros m o n Ho Hn. unfold Memory_readStr, readStr, byteLength in *.
  destruct (Z.eqb_spec n (-1)); [lia|].
  replace (o + n - o) with n by lia.
  rewrite readStr_loop_outside by assumption. split; [reflexivity|].
  unfold strlen. rewrite <- (Z2Nat.id n) at 2 by lia. f_equal.
  induction (Z.to_nat n) as [|k IH]; simpl; congruence.
Qed.

Lemma readStr_past_the_end_witness :
  Memory_readStr sevens8 8 2 = nul_chars 2 /\ strlen (Memory_readStr sevens8 8 2) = 2.
Proof.
  apply (readStr_past_the_end sevens8 8 2).
  - cbn. lia.
  - lia.
Defined.

(** ** [copy_out] and [copy_in] *)

Lemma buffer_bytes_splice (a : list Z) (i : nat) (bs : list Z) :
  (i + List.length bs <= List.length a)%nat ->
  buffer_bytes (mkMemory (splice a i bs)) (Z.of_nat i, len bs) = bs.
Proof.
  intro H. unfold buffer_bytes, len, splice. cbn [fst snd u8]. rewrite !Nat2Z.id.
  rewrite skipn_app, skipn_all2 by (rewrite length_firstn; lia).
  rewrite length_firstn. replace (i - Nat.min i (List.length a))%nat with 0%nat by lia.
  cbn [app skipn]. rewrite firstn_app, firstn_all, Nat.sub_diag. cbn [firstn].
  apply app_nil_r.
Qed.

Lemma splice_same (a : list Z) (i n : nat) :
  (i + n <= List.length a)%nat -> splice a i (firstn n (skipn i a)) = a.
Proof.
  intro H. unfold splice.
  assert (L : List.length (firstn n (skipn i a)) = n)
    by (rewrite length_firstn, length_skipn; lia).
  rewrite L. replace (i + n)%nat with (n + i)%nat by lia.
  rewrite <- skipn_skipn. now rewrite !firstn_skipn.
Qed.

Lemma view_contents_length_nat (m : Memory) (o n : Z) :
  0 <= o -> 0 <= n -> o + n <= byteLength m ->
  List.length (view_contents m (mkView o n)) = Z.to_nat n.
Proof.
  intros Ho Hn Hin. pose proof (view_contents_length m o n Ho Hn Hin) as H.
  unfold len in H. lia.
Qed.

(** X10. [copy_out] copies [size] bytes of the filesystem memory into the
    guest memory and touches nothing else: the destination range then
    holds the bytes of the source range, every other byte of the guest
    memory and the whole filesystem memory are as before.  When either
    range is not inside its memory it throws a [RangeError] and copies
    nothing. *)
Theorem copy_out_copies_range :
  forall (fs : MemFS) (clang_dst memfs_src size : Z),
    (0 <= clang_dst /\ 0 <= memfs_src /\ 0 <= size
     /\ clang_dst + size <= byteLength (hostMem_ fs)
     /\ memfs_src + size <= byteLength (mem fs) ->
     exists m',
       copy_out fs clang_dst memfs_src size = (set_hostMem fs m', Ok tt)
       /\ buffer_bytes m' (clang_dst, size) = buffer_bytes (mem fs) (memfs_src, size)
       /\ byteLength m' = byteLength (hostMem_ fs)
       /\ forall i, i < clang_dst \/ clang_dst + size <= i ->
                    read8 m' i = read8 (hostMem_ fs) i)
    /\ (clang_dst < 0 \/ memfs_src < 0 \/ size < 0
        \/ byteLength (hostMem_ fs) < clang_dst + size
        \/ byteLength (mem fs) < memfs_src + size ->
        copy_out fs clang_dst memfs_src size
        = (fs, Throw (RangeError "Invalid typed array length"))).
Proof.
  intros fs d s n. unfold copy_out. split.
  - intros (Hd & Hs & Hn & Hid & His).
    rewrite !new_Uint8Array_ok by assumption. eexists. split; [reflexivity|].
    pose proof (view_contents_length_nat (mem fs) s n Hs Hn His) as Hl.
    assert (Hin : (Z.to_nat d + List.length (view_contents (mem fs) (mkView s n))
                   <= List.length (u8 (hostMem_ fs)))%nat)
      by (rewrite Hl; unfold byteLength, len in Hid; lia).
    unfold view_set. cbn [byteOffset]. split; [|split].
    + pose proof (buffer_bytes_splice (u8 (hostMem_ fs)) (Z.to_nat d)
                    (view_contents (mem fs) (mkView s n)) Hin) as B.
      unfold len in B. rewrite Hl, !Z2Nat.id in B by lia. exact B.
    + unfold byteLength, len. cbn [u8]. now rewrite splice_length.
    + intros i Hi. unfold read8. cbn [u8]. apply splice_outside; [exact Hin|].
      unfold len. rewrite Hl. lia.
  - intro H.
    destruct (Z_lt_ge_dec d 0) as [Hd|Hd];
      [now rewrite new_Uint8Array_throws by lia|].
    destruct (Z_lt_ge_dec n 0) as [Hn|Hn];
      [now rewrite new_Uint8Array_throws by lia|].
    destruct (Z_lt_ge_dec (byteLength (hostMem_ fs)) (d + n)) as [Hb|Hb];
      [now rewrite new_Uint8Array_throws by lia|].
    rewrite new_Uint8Array_ok by lia.
    now rewrite new_Uint8Array_throws by lia.
Qed.

Lemma copy_out_copies_range_witness :
  (exists m',
      copy_out one_file_fs 16 8 3 = (set_hostMem one_file_fs m', Ok tt)
      /\ buffer_bytes m' (16, 3) = buffer_bytes (mem one_file_fs) (8, 3)
      /\ byteLength m' = byteLength (hostMem_ one_file_fs)
      /\ forall i, i < 16 \/ 16 + 3 <= i -> read8 m' i = read8 (hostMem_ one_file_fs) i)
  /\ copy_out one_file_fs 16 14 3
     = (one_file_fs, Throw (RangeError "Invalid typed array length")).
Proof.
  split.
  - apply (proj1 (copy_out_copies_range one_file_fs 16 8 3)). cbn. lia.
  - apply (proj2 (copy_out_copies_range one_file_fs 16 14 3)). cbn. lia.
Defined.

(** X11. Copying a range of the guest memory into the filesystem memory
    with [copy_in] and back to where it came from with [copy_out] leaves
    the guest memory as it was. *)
Theorem copy_in_then_copy_out :
  forall (fs : MemFS) (memfs_addr clang_addr size : Z),
    0 <= memfs_addr -> 0 <= clang_addr -> 0 <= size ->
    memfs_addr + size <= byteLength (mem fs) ->
    clang_addr + size <= byteLength (hostMem_ fs) ->
    exists fs1 fs2,
      copy_in fs memfs_addr clang_addr size = (fs1, Ok tt)
      /\ copy_out fs1 clang_addr memfs_addr size = (fs2, Ok tt)
      /\ hostMem_ fs2 = hostMem_ fs
      /\ buffer_bytes (mem fs2) (memfs_addr, size)
         = buffer_bytes (hostMem_ fs) (clang_addr, size).
Proof.
  intros fs d s n Hd Hs Hn Hid His.
  pose proof (view_contents_length_nat (hostMem_ fs) s n Hs Hn His) as Hl.
  assert (Hin : (Z.to_nat d + List.length (view_contents (hostMem_ fs) (mkView s n))
                 <= List.length (u8 (mem fs)))%nat)
    by (rewrite Hl; unfold byteLength, len in Hid; lia).
  assert (B : buffer_bytes
                (view_set (mem fs) (mkView d n) (view_contents (hostMem_ fs) (mkView s n)))
                (d, n)
              = buffer_bytes (hostMem_ fs) (s, n)).
  { pose proof (buffer_bytes_splice (u8 (mem fs)) (Z.to_nat d)
                  (view_contents (hostMem_ fs) (mkView s n)) Hin) as B.
    unfold len in B. rewrite Hl, !Z2Nat.id in B by lia. exact B. }
  do 2 eexists. split; [|split; [|split]].
  - unfold copy_in. rewrite !new_Uint8Array_ok by assumption. reflexivity.
  - unfold copy_out. cbn [hostMem_ mem set_mem].
    rewrite new_Uint8Array_ok by assumption.
    rewrite new_Uint8Array_ok; [reflexivity|assumption|assumption|].
    unfold byteLength, len, view_set. cbn [u8]. rewrite splice_length by exact Hin.
    exact Hid.
  - cbn [hostMem_ set_hostMem mem set_mem]. unfold view_set at 1. cbn [byteOffset].
    change (view_contents ?m (mkView d n)) with (buffer_bytes m (d, n)).
    rewrite B. unfold buffer_bytes. cbn [fst snd].
    rewrite splice_same by (unfold byteLength, len in His; lia).
    apply mkMemory_u8.
  - cbn [mem set_hostMem set_mem]. exact B.
Qed.

Lemma copy_in_then_copy_out_witness :
  exists fs1 fs2,
    copy_in one_file_fs 4 16 6 = (fs1, Ok tt)
    /\ copy_out fs1 16 4 6 = (fs2, Ok tt)
    /\ hostMem_ fs2 = hostMem_ one_file_fs
    /\ buffer_bytes (mem fs2) (4, 6) = buffer_bytes (hostMem_ one_file_fs) (16, 6).
Proof.
  apply (copy_in_then_copy_out one_file_fs 4 16 6); cbn; lia.
Defined.

(** ** More on [host_write] *)

Lemma set_hostMem_check (fs : MemFS) : set_hostMem fs (check (hostMem_ fs)) = fs.
Proof. now destruct fs. Qed.

Lemma strlen_text_of_bytes (bs : list Z) : strlen (text_of_bytes bs) = len bs.
Proof.
  unfold strlen, len, text_of_bytes. f_equal.
  induction bs as [|b bs IH]; simpl; congruence.
Qed.

Lemma buffer_bytes_length (m : Memory) (v : Z * Z) :
  in_bounds m v -> len (buffer_bytes m v) = snd v.
Proof.
  intros (Hb & Hl & Hin). unfold buffer_bytes, len, byteLength in *.
  rewrite length_firstn, length_skipn. unfold len in Hin. lia.
Qed.

Lemma until_null_prefix (pre post : list Z) :
  Forall (fun b => b <> 0) pre -> until_null (pre ++ 0 :: post) = pre.
Proof.
  induction 1 as [|b bs Hb _ IH]; [reflexivity|].
  cbn [app until_null]. destruct (Z.eqb_spec b 0); congruence.
Qed.

(** The length of the text made of each buffer up to its first null
    byte, against the sum of the lengths of the buffers. *)
Lemma texts_until_null_length (m : Memory) (l : list (Z * Z)) :
  Forall (in_bounds m) l ->
  let text := join_texts (map (fun v => text_of_bytes (until_null (buffer_bytes m v))) l) in
  strlen text <= total_length l
  /\ (Forall (fun v => Forall (fun b => b <> 0) (buffer_bytes m v)) l ->
      strlen text = total_length l)
  /\ (forall v pre post,
         In v l -> buffer_bytes m v = pre ++ 0 :: post ->
         strlen text < total_length l).
Proof.
  induction 1 as [|v l Hv _ IH]; cbn zeta in *.
  - repeat split; try reflexivity. intros v pre post [].
  - destruct IH as (IHle & IHeq & IHlt).
    cbn [map join_texts fold_right]. rewrite total_length_cons, strlen_app.
    fold (join_texts (map (fun v => text_of_bytes (until_null (buffer_bytes m v))) l)).
    rewrite strlen_text_of_bytes.
    pose proof (until_null_length (buffer_bytes m v)) as Hu.
    pose proof (buffer_bytes_length m v Hv) as Hb. unfold len in *.
    split; [lia|]. split.
    + intro Hnn. inversion Hnn as [|? ? Hnv Hnl]; subst.
      rewrite until_null_no_null by assumption. specialize (IHeq Hnl). lia.
    + intros w pre post [->|Hin] E.
      * rewrite E in Hu, Hb |- *. rewrite length_app in Hb. cbn [List.length] in Hb.
        assert (Hlt : (List.length (until_null (pre ++ 0%Z :: post))
                       < List.length (pre ++ 0%Z :: post))%nat).
        { pose proof (until_null_length pre) as Hp.
          assert (Eu : until_null (pre ++ 0 :: post) = until_null pre).
          { clear. induction pre as [|b bs IH]; cbn [app until_null]; [reflexivity|].
            destruct (b =? 0); [reflexivity|]. now rewrite IH. }
          rewrite Eu, length_app. cbn [List.length]. lia. }
        rewrite length_app in Hlt. cbn [List.length] in Hlt. lia.
      * specialize (IHlt w pre post Hin E). lia.
Qed.

(** C9. Whenever [host_write] returns (the descriptor is at most 2), the
    count it stores is the sum of the iovec length fields, whatever the
    buffers hold, and the text it forwards is never longer than the
    count.  With the buffers inside the memory, the text is made of each
    buffer up to its first null byte: it is as long as the count when no
    buffer holds a null byte, and when a buffer holds one before its
    stated length, what is forwarded of that buffer stops at that byte
    and the text is strictly shorter than the count. *)
Theorem host_write_count_ignores_contents :
  forall (fs : MemFS) (fd iovs iovs_len nwritten_out : Z) (l : list (Z * Z)),
    fd <= 2 ->
    bytes_ok (u8 (hostMem_ fs)) ->
    iovecs_at (hostMem_ fs) iovs (Z.to_nat iovs_len) = Some l ->
    let m := hostMem_ fs in
    exists text,
      host_write fs fd iovs iovs_len nwritten_out
      = (hostWrite (set_hostMem fs (write32 m nwritten_out (total_length l))) text,
         Ok ESUCCESS)
      /\ strlen text <= total_length l
      /\ (Forall (in_bounds m) l ->
          text = join_texts (map (fun v => text_of_bytes (until_null (buffer_bytes m v))) l)
          /\ (Forall (fun v => Forall (fun b => b <> 0) (buffer_bytes m v)) l ->
              strlen text = total_length l)
          /\ (forall v pre post,
                 In v l -> buffer_bytes m v = pre ++ 0 :: post ->
                 Forall (fun b => b <> 0) pre ->
                 until_null (buffer_bytes m v) = pre
                 /\ strlen text < total_length l)).
Proof.
  intros fs fd iovs iovs_len nwritten_out l Hfd Hok Hl m.
  pose proof (iovecs_at_nonneg _ _ _ _ Hok Hl) as Hnn.
  exists (forwarded_text m l).
  split; [now apply host_write_ok|]. split; [now apply forwarded_text_length|].
  intro Hin.
  assert (E : forwarded_text m l
              = join_texts (map (fun v => text_of_bytes (until_null (buffer_bytes m v))) l)).
  { unfold forwarded_text. f_equal. apply map_ext_in. intros v Hv.
    apply readStr_until_null. rewrite Forall_forall in Hin. now apply Hin. }
  rewrite E. destruct (texts_until_null_length m l Hin) as (_ & Heq & Hlt).
  split; [reflexivity|]. split; [exact Heq|].
  intros v pre post Hv Eb Hpre. split.
  - rewrite Eb. now apply until_null_prefix.
  - now apply (Hlt v pre post).
Qed.

Lemma host_write_count_ignores_contents_witness :
  exists text,
    host_write (example_fs null_inside_mem) 1 0 1 8
    = (hostWrite (set_hostMem (example_fs null_inside_mem)
                              (write32 null_inside_mem 8 (total_length [(16, 3)]))) text,
       Ok ESUCCESS)
    /\ text = "A"
    /\ until_null (buffer_bytes null_inside_mem (16, 3)) = [65]
    /\ strlen text < 3.
Proof.
  destruct (host_write_count_ignores_contents
              (example_fs null_inside_mem) 1 0 1 8 [(16, 3)])
    as (text & Hw & _ & H).
  - lia.
  - repeat constructor; lia.
  - reflexivity.
  - destruct H as (Ht & _ & Hnull).
    + repeat constructor; cbn; lia.
    + destruct (Hnull (16, 3) [65] [66]) as (Hu & Hlt).
      * left. reflexivity.
      * reflexivity.
      * repeat constructor. discriminate.
      * exists text. split; [exact Hw|]. split; [exact Ht|]. split; [exact Hu|exact Hlt].
Defined.

(** X12. [host_write] throws the assertion error exactly for a
    descriptor above 2, before any effect.  For every other descriptor
    (also a negative one) and every iovec array, it returns [ESUCCESS]
    and posts exactly one write event, even when there is no iovec. *)
Theorem host_write_descriptor_check :
  forall (fs : MemFS) (fd iovs iovs_len nwritten_out : Z),
    (2 < fd ->
     host_write fs fd iovs iovs_len nwritten_out
     = (fs, Throw (AssertError "assertion failed.")))
    /\ (fd <= 2 ->
        exists text size,
          host_write fs fd iovs iovs_len nwritten_out
          = (hostWrite (set_hostMem fs (write32 (hostMem_ fs) nwritten_out size)) text,
             Ok ESUCCESS)
          /\ (iovs_len <= 0 -> text = EmptyString /\ size = 0)).
Proof.
  intros fs fd iovs iovs_len nwritten_out. unfold host_write.
  rewrite set_hostMem_check. split.
  - intro H. destruct (Z.leb_spec fd 2); [lia|]. reflexivity.
  - intro H. destruct (Z.leb_spec fd 2); [|lia]. cbn [assert].
    destruct (host_write_loop (Z.to_nat iovs_len) (hostMem_ fs) iovs "" (Some 0))
      as [str size] eqn:E.
    exists str, (or_zero size). split; [reflexivity|].
    intro Hnone. replace (Z.to_nat iovs_len) with 0%nat in E by lia.
    cbn [host_write_loop] in E. injection E as <- <-. split; reflexivity.
Qed.

Lemma host_write_descriptor_check_witness :
  host_write (example_fs hello_mem) 3 0 1 8
  = (example_fs hello_mem, Throw (AssertError "assertion failed."))
  /\ exists text size,
      host_write (example_fs hello_mem) (-1) 0 0 8
      = (hostWrite (set_hostMem (example_fs hello_mem) (write32 hello_mem 8 size)) text,
         Ok ESUCCESS)
      /\ text = EmptyString /\ size = 0.
Proof.
  split.
  - apply (proj1 (host_write_descriptor_check (example_fs hello_mem) 3 0 1 8)). lia.
  - destruct (proj2 (host_write_descriptor_check (example_fs hello_mem) (-1) 0 0 8))
      as (text & size & H1 & H2); [lia|].
    exists text, size. split; [exact H1|]. apply H2. lia.
Defined.

(** X13. The count the guest finds after [host_write] is the sum of the
    iovec lengths modulo 2^32: it is the sum itself as long as the sum is
    below 2^32. *)
Theorem host_write_count_read_back :
  forall (fs : MemFS) (fd iovs iovs_len nwritten_out : Z) (l : list (Z * Z)),
    fd <= 2 ->
    bytes_ok (u8 (hostMem_ fs)) ->
    iovecs_at (hostMem_ fs) iovs (Z.to_nat iovs_len) = Some l ->
    0 <= nwritten_out < 2 ^ 31 ->
    4 * (nwritten_out / 4) + 4 <= byteLength (hostMem_ fs) ->
    let fs' := fst (host_write fs fd iovs iovs_len nwritten_out) in
    read32 (hostMem_ fs') nwritten_out = Some (total_length l mod 2 ^ 32)
    /\ (total_length l < 2 ^ 32 ->
        read32 (hostMem_ fs') nwritten_out = Some (total_length l)).
Proof.
  intros fs fd iovs iovs_len nwritten_out l Hfd Hok Hl Ho Hin fs'. subst fs'.
  rewrite (host_write_ok fs fd iovs iovs_len nwritten_out l Hfd Hl).
  cbn [fst]. destruct fs as [s p sh ex me hm tr].
  cbn [hostMem_ hostWrite emit set_hostMem] in *.
  assert (R : read32 (write32 hm nwritten_out (total_length l)) nwritten_out
              = Some (total_length l mod 2 ^ 32)).
  { pose proof (sar2_small nwritten_out Ho) as Hs.
    apply read32_write32; rewrite Hs; [apply Z.div_pos; lia|exact Hin]. }
  split; [exact R|]. intro Hlt. rewrite R. f_equal. apply Z.mod_small.
  split; [|exact Hlt].
  pose proof (iovecs_at_nonneg _ _ _ _ Hok Hl) as Hnn.
  clear - Hnn. induction Hnn as [|v l [_ Hv] _ IH]; [reflexivity|].
  rewrite total_length_cons. lia.
Qed.

Lemma host_write_count_read_back_witness :
  read32 (hostMem_ (fst (host_write (example_fs hello_mem) 1 0 1 8))) 8
  = Some (total_length [(16, 6)] mod 2 ^ 32)
  /\ read32 (hostMem_ (fst (host_write (example_fs hello_mem) 1 0 1 8))) 8
     = Some (total_length [(16, 6)]).
Proof.
  destruct (host_write_count_read_back (example_fs hello_mem) 1 0 1 8 [(16, 6)])
    as [H1 H2].
  - lia.
  - repeat constructor; lia.
  - reflexivity.
  - lia.
  - cbn. lia.
  - split; [exact H1|]. apply H2. cbn. lia.
Defined.

(** ** More on [host_read] *)

Lemma splice_splice_adjacent (a : list Z) (i : nat) (bs cs : list Z) :
  (i + List.length bs + List.length cs <= List.length a)%nat ->
  splice (splice a i bs) (i + List.length bs) cs = splice a i (bs ++ cs).
Proof.
  intro H. unfold splice at 1.
  assert (E1 : firstn (i + List.length bs) (splice a i bs) = firstn i a ++ bs).
  { unfold splice. rewrite app_assoc, firstn_app.
    rewrite firstn_all2 by (rewrite length_app, length_firstn; lia).
    replace (i + List.length bs - List.length (firstn i a ++ bs))%nat with 0%nat
      by (rewrite length_app, length_firstn; lia).
    cbn [firstn]. apply app_nil_r. }
  assert (E2 : skipn (i + List.length bs + List.length cs) (splice a i bs)
               = skipn (i + List.length (bs ++ cs)) a).
  { unfold splice. rewrite app_assoc, skipn_app.
    rewrite skipn_all2 by (rewrite length_app, length_firstn; lia).
    replace (i + List.length bs + List.length cs - List.length (firstn i a ++ bs))%nat
      with (List.length cs) by (rewrite length_app, length_firstn; lia).
    cbn [app]. rewrite skipn_skipn. f_equal. rewrite length_app. lia. }
  rewrite E1, E2. unfold splice. now rewrite <- !app_assoc.
Qed.

Lemma store_from_splice (bs view : list Z) (i : nat) :
  (i + List.length bs <= List.length view)%nat ->
  store_from view i bs = splice view i (map (fun b => b mod 256) bs).
Proof.
  revert view i. induction bs as [|b bs IH]; intros view i H.
  - cbn [store_from map]. symmetry.
    replace view with (splice view i (firstn 0 (skipn i view))) at 2
      by (apply splice_same; lia).
    reflexivity.
  - cbn [store_from map]. cbn [List.length] in H.
    destruct (Nat.ltb_spec i (List.length view)); [|lia].
    rewrite IH by (rewrite splice_length; simpl; lia).
    replace (S i) with (i + List.length [(b mod 256)%Z])%nat by (simpl; lia).
    rewrite splice_splice_adjacent by (simpl; rewrite length_map; lia).
    reflexivity.
Qed.

Lemma scan_payload_until_null (bs rest : list Z) :
  scan_payload (bs ++ 0 :: rest) = Some (text_of_bytes (until_null bs)).
Proof.
  induction bs as [|b bs IH]; [reflexivity|].
  cbn [app scan_payload until_null]. destruct (Z.eqb_spec b 0); [reflexivity|].
  now rewrite IH.
Qed.

Lemma scan_deliver_units (units shared : list Z) :
  len units < len shared ->
  scan_payload (deliver_units units shared)
  = Some (text_of_bytes (until_null (map (fun u => u mod 256) units))).
Proof.
  intro Hlen. unfold len in Hlen. unfold deliver_units.
  rewrite store_from_splice by (rewrite length_app; simpl; lia).
  rewrite map_app. unfold splice. cbn [firstn map app].
  rewrite <- app_assoc. cbn [app]. apply scan_payload_until_null.
Qed.

Lemma scan_deliver (value : string) (shared : list Z) :
  strlen value < len shared ->
  Forall (fun b => b <> 0) (char_codes value) ->
  scan_payload (deliver value shared) = Some value.
Proof.
  intros Hlen Hnz. unfold deliver.
  rewrite scan_deliver_units by (now rewrite char_codes_length).
  rewrite char_codes_mod, until_null_no_null by assumption.
  now rewrite text_of_char_codes.
Qed.

(** C10 (as amended). A read request asks for input and waits on the
    control word: while the word is 0 and no line is delivered it stays
    blocked, whatever string is pending.  When a read returns, the
    pending string has been replaced by the payload found in the mailbox,
    the same result and final state whatever was pending before, and the
    mailbox is zeroed.  So the bytes of that payload that did not fit
    reach no later read: the next read blocks until a line is delivered,
    and then its pending string is that line alone and what it copies to
    the guest is taken from that line, from its start. *)
Theorem host_read_replaces_pending :
  forall (input : option string) (fs : MemFS) (fd iovs iovs_len nread : Z)
         (str : string) (pos : option Z),
    let old := set_pending fs str pos in
    (u32_get (sharedMem fs) 0 = Some 0 ->
     host_read None old fd iovs iovs_len nread = Blocked (hostRead old))
    /\ (forall (fs' : MemFS) (r : Z),
           host_read input fs fd iovs iovs_len nread = Completed fs' (Ok r) ->
           host_read input old fd iovs iovs_len nread = Completed fs' (Ok r)
           /\ (exists seen,
                  mailbox_after_wait (sharedMem fs) input = Some seen
                  /\ scan_payload seen = Some (stdinStr fs'))
           /\ sharedMem fs' = repeat 0 (List.length (sharedMem fs))
           /\ (forall fd2 iovs2 iovs_len2 nread2 : Z,
                  host_read None fs' fd2 iovs2 iovs_len2 nread2 = Blocked (hostRead fs'))
           /\ (forall (value : string) (fd2 iovs2 iovs_len2 nread2 : Z)
                      (fs2 : MemFS) (r2 : Z),
                  strlen value < len (sharedMem fs) ->
                  Forall (fun b => b <> 0) (char_codes value) ->
                  host_read (Some value) fs' fd2 iovs2 iovs_len2 nread2
                  = Completed fs2 (Ok r2) ->
                  stdinStr fs2 = value
                  /\ exists m size,
                      host_read_loop (Z.to_nat iovs_len2) (hostMem_ fs') iovs2 value 0 0
                      = (m, stdinStrPos fs2, Ok size)
                      /\ hostMem_ fs2 = write32 m nread2 (or_zero size))).
Proof.
  intros input fs fd iovs iovs_len nread str pos old.
  destruct (host_read_pending_irrelevant input fs fd iovs iovs_len nread str pos)
    as [Hblock Hsame].
  split; [exact Hblock|].
  intros fs' r H. split; [now apply Hsame|].
  destruct (host_read_returned _ _ _ _ _ _ _ _ H)
    as (seen & payload & m & q & size & Hseen & Hscan & Hloop & ->).
  pose proof (mailbox_after_wait_size _ _ _ Hseen) as H4.
  cbn [stdinStr sharedMem hostMem_ stdinStrPos].
  split; [now exists seen|]. split; [reflexivity|]. split.
  - intros fd2 iovs2 iovs_len2 nread2.
    unfold host_read, hostRead, emit, Atomics_wait.
    cbn [sharedMem stdinStr stdinStrPos exports mem hostMem_ trace].
    now rewrite u32_get_zeros.
  - intros value fd2 iovs2 iovs_len2 nread2 fs2 r2 Hfit Hnz H2.
    destruct (host_read_returned _ _ _ _ _ _ _ _ H2)
      as (seen2 & payload2 & m2 & q2 & size2 & Hseen2 & Hscan2 & Hloop2 & ->).
    cbn [stdinStr sharedMem hostMem_ stdinStrPos] in *.
    unfold mailbox_after_wait, Atomics_wait in Hseen2.
    rewrite u32_get_zeros in Hseen2 by assumption.
    assert (Es : seen2 = deliver value (repeat 0 (List.length (sharedMem fs))))
      by congruence.
    rewrite Es, scan_deliver in Hscan2
      by (try assumption; unfold len in *; rewrite repeat_length; exact Hfit).
    assert (payload2 = value) by congruence. subst payload2.
    split; [reflexivity|]. now exists m2, size2.
Qed.

Lemma host_read_replaces_pending_witness :
  let fs := example_fs short_iovec_mem in
  let old := set_pending fs "stale" (Some 2) in
  host_read None old 0 0 1 16 = Blocked (hostRead old)
  /\ exists fs',
      host_read (Some "hello") old 0 0 1 16 = Completed fs' (Ok 0)
      /\ stdinStr fs' = "hello"
      /\ buffer_bytes (hostMem_ fs') (24, 10) = [104; 101; 7; 7; 7; 7; 7; 7; 7; 7]
      /\ host_read None fs' 0 0 1 16 = Blocked (hostRead fs')
      /\ exists fs2,
          host_read (Some "x") fs' 0 0 1 16 = Completed fs2 (Ok 0)
          /\ stdinStr fs2 = "x".
Proof.
  cbv zeta.
  destruct (host_read_replaces_pending (Some "hello") (example_fs short_iovec_mem)
              0 0 1 16 "stale" (Some 2)) as [_ Hret].
  split.
  - refine (proj1 (host_read_replaces_pending None (example_fs short_iovec_mem) 0 0 1 16
                     "stale" (Some 2)) _).
    reflexivity.
  - eexists.
    destruct (Hret _ 0 ltac:(vm_compute; reflexivity)) as (Hold & _ & _ & Hblock & Hnext).
    split; [exact Hold|]. split; [reflexivity|]. split; [reflexivity|].
    split; [apply Hblock|].
    eexists. split.
    + vm_compute. reflexivity.
    + refine (proj1 (Hnext "x" 0 0 1 16 _ 0 _ _ _)).
      * cbn. lia.
      * repeat constructor. discriminate.
      * vm_compute. reflexivity.
Defined.

(** The claim of C10 as stated, that every read first blocks for a fresh
    signal, fails when the control word is not 0: with the bytes of
    ["hi"] in the mailbox and no delivery, the read returns at once and
    hands those bytes to the guest. *)
Lemma host_read_returns_without_signal :
  let fs := set_sharedMem (example_fs one_iovec_mem) ([104; 105] ++ repeat 0 14) in
  exists fs',
    host_read None fs 0 0 1 16 = Completed fs' (Ok ESUCCESS)
    /\ stdinStr fs' = "hi"
    /\ read32 (hostMem_ fs') 16 = Some 2
    /\ buffer_bytes (hostMem_ fs') (24, 2) = [104; 105].
Proof.
  eexists. split; [vm_compute; reflexivity|]. repeat split.
Qed.

(** X14. What the controlling thread delivers and what the worker reads.
    The thread stores one byte per UTF-16 code unit of the line, the unit
    modulo 256, and a null byte after them.  For a line shorter than the
    mailbox, whatever the mailbox held before, the scan of the mailbox
    after the delivery yields those bytes up to the first null byte: a
    line of characters from 1 to 255 is read as it is, a wider character
    is read as its low byte, and the line is cut at a unit that is a
    multiple of 256.  With the control word at 0 the wait returns with
    that delivery. *)
Theorem deliver_then_scan :
  (forall (units shared : list Z),
      len units < len shared ->
      scan_payload (deliver_units units shared)
      = Some (text_of_bytes (until_null (map (fun u => u mod 256) units)))
      /\ List.length (deliver_units units shared) = List.length shared)
  /\ (forall (value : string) (shared : list Z),
         strlen value < len shared ->
         Forall (fun b => b <> 0) (char_codes value) ->
         scan_payload (deliver value shared) = Some value
         /\ List.length (deliver value shared) = List.length shared
         /\ (u32_get shared 0 = Some 0 ->
             mailbox_after_wait shared (Some value) = Some (deliver value shared))).
Proof.
  split.
  - intros units shared Hlen. split; [now apply scan_deliver_units|].
    apply store_from_length.
  - intros value shared Hlen Hnz. split; [now apply scan_deliver|]. split.
    + apply store_from_length.
    + intro H0. unfold mailbox_after_wait, Atomics_wait. now rewrite H0.
Qed.

Lemma deliver_then_scan_witness :
  (scan_payload (deliver_units [321; 256; 66] [0; 0; 0; 0; 9; 9; 9; 9])
   = Some (text_of_bytes (until_null (map (fun u => u mod 256) [321; 256; 66])))
   /\ text_of_bytes (until_null (map (fun u => u mod 256) [321; 256; 66])) = "A")
  /\ scan_payload (deliver "42" [0; 0; 0; 0; 9; 9; 9; 9]) = Some "42"
  /\ List.length (deliver "42" [0; 0; 0; 0; 9; 9; 9; 9]) = 8%nat
  /\ mailbox_after_wait [0; 0; 0; 0; 9; 9; 9; 9] (Some "42")
     = Some (deliver "42" [0; 0; 0; 0; 9; 9; 9; 9]).
Proof.
  split.
  - split; [|reflexivity].
    apply (proj1 deliver_then_scan [321; 256; 66] [0; 0; 0; 0; 9; 9; 9; 9]).
    cbn. lia.
  - destruct (proj2 deliver_then_scan "42" [0; 0; 0; 0; 9; 9; 9; 9]) as (H1 & H2 & H3).
    + cbn. lia.
    + repeat constructor; discriminate.
    + split; [exact H1|]. split; [exact H2|]. apply H3. reflexivity.
Defined.

Lemma host_read_count_witness :
  exists m',
    host_read (Some ("42" ++ LF)%string) (example_fs one_iovec_mem) 0 0 1 16
    = Completed (mkMemFS ("42" ++ LF)%string (Some 3) (repeat 0 16) null_exports
                         (mkMemory (repeat 0 16)) (write32 m' 16 3) [EvReadStdin])
                (Ok ESUCCESS).
Proof.
  refine (host_read_count (Some ("42" ++ LF)%string) (example_fs one_iovec_mem)
            0 1 16 (deliver ("42" ++ LF)%string (repeat 0 16)) ("42" ++ LF)%string
            [(24, 10)] _ _ _ _ _ _).
  - reflexivity.
  - reflexivity.
  - reflexivity.
  - repeat constructor.
  - repeat constructor; cbn; lia.
  - cbn. repeat split; repeat constructor; cbn; lia.
Defined.

Lemma write32_buffer_bytes (m : Memory) (p x : Z) (v : Z * Z) :
  0 <= fst v -> word_clear p v ->
  buffer_bytes (write32 m p x) v = buffer_bytes m v.
Proof.
  intros Hb Hc. unfold buffer_bytes, write32, u32_set, word_clear in *. cbn [u8].
  destruct ((sar2 p <? 0) || (len (u8 m) <? 4 * sar2 p + 4)) eqn:E; [reflexivity|].
  apply orb_false_elim in E as [E1 E2]. apply Z.ltb_ge in E1, E2. unfold len in E2.
  apply firstn_skipn_ext. intros j Hj. rewrite <- !typed_get_of_nat.
  apply splice_outside.
  - change (List.length (le32 (x mod 2 ^ 32))) with 4%nat. lia.
  - unfold len. change (List.length (le32 (x mod 2 ^ 32))) with 4%nat. lia.
Qed.

Lemma host_read_loop_single (m : Memory) (iovs : Z) (payload : string) (b le : Z) :
  read32 m iovs = Some b -> read32 m (iovs + 4) = Some le ->
  0 < le -> in_bounds m (b, le) ->
  let k := Z.min le (strlen payload) in
  exists m1,
    host_read_loop 1 m iovs payload 0 0 = (m1, Some k, Ok (Some k))
    /\ byteLength m1 = byteLength m
    /\ buffer_bytes m1 (b, k) = char_codes (substr payload 0 k)
    /\ forall i, i < b \/ b + k <= i -> read8 m1 i = read8 m i.
Proof.
  intros Eb El Hle (Hb0 & _ & Hb1) k. cbn [fst snd] in *.
  pose proof (strlen_nonneg payload) as Hp.
  cbn [host_read_loop]. rewrite Eb, El. cbn [or_zero]. rewrite Z.sub_0_r. fold k.
  destruct (Z.eqb_spec k 0) as [E0|E0].
  - exists m. rewrite E0. repeat split.
    unfold buffer_bytes, substr. cbn [fst snd Z.to_nat firstn]. now destruct payload.
  - assert (Hlen : len (char_codes (substr payload 0 k)) = k)
      by (rewrite char_codes_length; apply substr_length; lia).
    cbn [write]. rewrite write_array_ok by lia. rewrite char_codes_mod, !Z.add_0_l.
    set (m1 := mkMemory _).
    assert (Hin : (Z.to_nat b + List.length (char_codes (substr payload 0 k))
                   <= List.length (u8 m))%nat)
      by (unfold byteLength, len in *; lia).
    exists m1. split; [now destruct (negb (k =? le))|]. split; [|split].
    + unfold byteLength, len, m1. cbn [u8]. now rewrite splice_length.
    + pose proof (buffer_bytes_splice (u8 m) (Z.to_nat b)
                    (char_codes (substr payload 0 k)) Hin) as B.
      rewrite Hlen, Z2Nat.id in B by lia. exact B.
    + intros i Hi. unfold read8, m1. cbn [u8]. apply splice_outside; [exact Hin|].
      rewrite Hlen. lia.
Qed.

(** X16. With one iovec of positive length inside the memory, a read on
    descriptor 0 puts the first min(length of the iovec, length of the
    line) characters of the line at the start of the buffer, in order;
    the result slot being outside the buffer, the buffer holds them when
    the read returns. *)
Theorem host_read_fills_buffer :
  forall (input : option string) (fs : MemFS) (iovs nread : Z)
         (seen : list Z) (payload : string) (b le : Z),
    mailbox_after_wait (sharedMem fs) input = Some seen ->
    scan_payload seen = Some payload ->
    read32 (hostMem_ fs) iovs = Some b ->
    read32 (hostMem_ fs) (iovs + 4) = Some le ->
    0 < le -> in_bounds (hostMem_ fs) (b, le) -> word_clear nread (b, le) ->
    let k := Z.min le (strlen payload) in
    exists fs',
      host_read input fs 0 iovs 1 nread = Completed fs' (Ok ESUCCESS)
      /\ buffer_bytes (hostMem_ fs') (b, k) = char_codes (substr payload 0 k)
      /\ stdinStr fs' = payload /\ stdinStrPos fs' = Some k.
Proof.
  intros input fs iovs nread seen payload b le Hseen Hscan Eb El Hle Hin Hc k.
  destruct (host_read_loop_single (hostMem_ fs) iovs payload b le Eb El Hle Hin)
    as (m1 & Eloop & _ & Hbytes & _).
  fold k in Eloop, Hbytes.
  destruct fs as [s0 p0 shared ex me hm tr].
  unfold host_read, mailbox_after_wait, hostRead, emit in *.
  cbn [sharedMem stdinStr stdinStrPos exports mem hostMem_ trace] in *.
  assert (E : match Atomics_wait shared input with
              | WaitForever => None
              | WaitRangeError => Some (Throw (RangeError "Invalid atomic access index"))
              | WaitNotEqual => Some (Ok shared)
              | WaitOk delivered => Some (Ok delivered)
              end = Some (Ok seen)).
  { destruct (Atomics_wait shared input); try discriminate; congruence. }
  rewrite E.
  unfold set_sharedMem, setStdinStr, set_hostMem, set_stdinStrPos, check.
  cbn [sharedMem stdinStr stdinStrPos exports mem hostMem_ trace].
  rewrite Hscan. cbn [Z.eqb assert]. change (Z.to_nat 1) with 1%nat. rewrite Eloop.
  cbn [or_zero]. eexists. split; [reflexivity|].
  cbn [hostMem_ stdinStr stdinStrPos]. split; [|split; reflexivity].
  rewrite write32_buffer_bytes; [exact Hbytes|apply Hin|].
  destruct Hin as (Hb0 & _ & _). unfold word_clear in *. cbn [fst snd] in *. lia.
Qed.

Lemma host_read_fills_buffer_witness :
  exists fs',
    host_read (Some "hello") (example_fs short_iovec_mem) 0 0 1 16
    = Completed fs' (Ok ESUCCESS)
    /\ buffer_bytes (hostMem_ fs') (24, 2) = char_codes (substr "hello" 0 2)
    /\ stdinStr fs' = "hello" /\ stdinStrPos fs' = Some 2.
Proof.
  refine (host_read_fills_buffer (Some "hello") (example_fs short_iovec_mem) 0 16
            (deliver "hello" (repeat 0 16)) "hello" 24 2 _ _ _ _ _ _ _).
  - reflexivity.
  - reflexivity.
  - reflexivity.
  - reflexivity.
  - lia.
  - repeat split; cbn; lia.
  - left. vm_compute. discriminate.
Defined.

Lemma host_read_clears_mailbox_witness :
  exists fs',
    host_read (Some "hello") (example_fs short_iovec_mem) 0 0 1 16 = Completed fs' (Ok 0)
    /\ sharedMem fs' = repeat 0 16.
Proof.
  eexists. split; [vm_compute; reflexivity|].
  refine (host_read_clears_mailbox (Some "hello") (example_fs short_iovec_mem)
            _ 0 0 1 16 0 _).
  vm_compute. reflexivity.
Defined.

(** X18. A read on a descriptor other than 0 throws the assertion error
    only after it has asked for a line, waited for it and taken it: the
    line has become the pending string, the mailbox is zeroed, and the
    guest memory is untouched, so the line is lost to the guest. *)
Theorem host_read_wrong_descriptor :
  forall (input : option string) (fs : MemFS) (fd iovs iovs_len nread : Z)
         (seen : list Z) (payload : string),
    fd <> 0 ->
    mailbox_after_wait (sharedMem fs) input = Some seen ->
    scan_payload seen = Some payload ->
    host_read input fs fd iovs iovs_len nread
    = Completed (mkMemFS payload (Some 0) (repeat 0 (List.length (sharedMem fs)))
                         (exports fs) (mem fs) (hostMem_ fs) (trace fs ++ [EvReadStdin]))
                (Throw (AssertError "assertion failed.")).
Proof.
  intros input fs fd iovs iovs_len nread seen payload Hfd Hseen Hscan.
  pose proof (mailbox_after_wait_length _ _ _ Hseen) as Hlen.
  destruct fs as [s0 p0 shared ex me hm tr].
  unfold host_read, mailbox_after_wait, hostRead, emit in *.
  cbn [sharedMem stdinStr stdinStrPos exports mem hostMem_ trace] in *.
  assert (E : match Atomics_wait shared input with
              | WaitForever => None
              | WaitRangeError => Some (Throw (RangeError "Invalid atomic access index"))
              | WaitNotEqual => Some (Ok shared)
              | WaitOk delivered => Some (Ok delivered)
              end = Some (Ok seen)).
  { destruct (Atomics_wait shared input); try discriminate; congruence. }
  rewrite E.
  unfold set_sharedMem, setStdinStr, set_hostMem, set_stdinStrPos, check, fill0.
  cbn [sharedMem stdinStr stdinStrPos exports mem hostMem_ trace].
  rewrite Hscan. destruct (Z.eqb_spec fd 0); [contradiction|]. cbn [assert].
  now rewrite Hlen.
Qed.

Lemma host_read_wrong_descriptor_witness :
  host_read (Some "hello") (example_fs short_iovec_mem) 1 0 1 16
  = Completed (mkMemFS "hello" (Some 0) (repeat 0 16) null_exports
                       (mkMemory (repeat 0 16)) short_iovec_mem [EvReadStdin])
              (Throw (AssertError "assertion failed.")).
Proof.
  refine (host_read_wrong_descriptor (Some "hello") (example_fs short_iovec_mem) 1 0 1 16
            (deliver "hello" (repeat 0 16)) "hello" _ _ _).
  - discriminate.
  - reflexivity.
  - reflexivity.
Defined.

(** ** More on [App.run] *)

Lemma error_msg_contains_stack (stack : exn -> string) (e : exn) :
  contains (error_msg stack e true) (stack e).
Proof.
  unfold contains, error_msg.
  exists (ESC ++ "[91mError: " ++ message e ++ LF)%string, (ESC ++ "[0m" ++ LF)%string.
  rewrite !string_app_assoc. reflexivity.
Qed.

(** X19. A guest that returns from [_start] makes [run] return
    [undefined] with nothing written, so that [API.run] reports [null].
    A guest stopped by anything but a process exit makes [run] forward
    one diagnostic that holds the message and the call stack, leave the
    scheduling flag as it is, and rethrow. *)
Theorem run_after_return_or_trap :
  forall (stack : exn -> string) (app : App) (fs : MemFS),
    (_start app (memfs app) = (fs, Ok tt) ->
     run stack app = (set_memfs app fs, Ok None) /\ API_run stack app = Ok None)
    /\ (forall e,
           (forall code, e <> ProcExit code) ->
           _start app (memfs app) = (fs, Throw e) ->
           run stack app
           = (set_memfs app (hostWrite fs (error_msg stack e true)), Throw e)
           /\ allowRequestAnimationFrame (fst (run stack app))
              = allowRequestAnimationFrame app
           /\ contains (error_msg stack e true) (message e)
           /\ contains (error_msg stack e true) (stack e)).
Proof.
  intros stack app fs. split.
  - intro H. unfold API_run, run. rewrite H. split; reflexivity.
  - intros e Hne H.
    assert (E : run stack app
                = (set_memfs app (hostWrite fs (error_msg stack e true)), Throw e)).
    { unfold run. rewrite H. destruct e; try reflexivity. now destruct (Hne code). }
    split; [exact E|]. split; [now rewrite E|].
    split; [apply error_msg_contains_message|apply error_msg_contains_stack].
Qed.

Lemma run_after_return_or_trap_witness :
  (run (fun _ => "at main") args_app = (set_memfs args_app (memfs args_app), Ok None)
   /\ API_run (fun _ => "at main") args_app = Ok None)
  /\ let e := RuntimeError "unreachable" in
     let app := example_app (example_fs hello_mem) e in
     run (fun _ => "at main") app
     = (set_memfs app (hostWrite (example_fs hello_mem)
                                 (error_msg (fun _ => "at main") e true)), Throw e)
     /\ allowRequestAnimationFrame (fst (run (fun _ => "at main") app)) = true
     /\ contains (error_msg (fun _ => "at main") e true) "unreachable"
     /\ contains (error_msg (fun _ => "at main") e true) "at main".
Proof.
  split.
  - apply (proj1 (run_after_return_or_trap (fun _ => "at main") args_app (memfs args_app))).
    reflexivity.
  - apply (proj2 (run_after_return_or_trap (fun _ => "at main")
                    (example_app (example_fs hello_mem) (RuntimeError "unreachable"))
                    (example_fs hello_mem))).
    + intros code H. discriminate H.
    + reflexivity.
Defined.

(** ** [args_get] and [environ_get] *)

Lemma u32_get_ext (a a' : list Z) (k : Z) :
  List.length a' = List.length a ->
  (forall i, 4 * k <= i < 4 * k + 4 -> typed_get a' i = typed_get a i) ->
  u32_get a' k = u32_get a k.
Proof.
  intros Hl H. unfold u32_get, len. rewrite Hl.
  destruct ((k <? 0) || (Z.of_nat (List.length a) <? 4 * k + 4)) eqn:E; [reflexivity|].
  apply orb_false_elim in E as [E1 _]. apply Z.ltb_ge in E1.
  rewrite (firstn_skipn_ext 4 (Z.to_nat (4 * k)) a' a); [reflexivity|].
  intros j Hj. rewrite <- !typed_get_of_nat. apply H. lia.
Qed.

Lemma bytes_at_ext (a a' : list Z) (o : Z) (bs : list Z) :
  (forall i, o <= i < o + len bs -> typed_get a' i = typed_get a i) ->
  bytes_at a o bs -> bytes_at a' o bs.
Proof.
  intros H [Ho E]. split; [exact Ho|].
  transitivity (firstn (List.length bs) (skipn (Z.to_nat o) a)); [|exact E].
  apply firstn_skipn_ext. intros j Hj. rewrite <- !typed_get_of_nat. apply H.
  unfold len. lia.
Qed.

Lemma bytes_at_splice (a : list Z) (o : Z) (bs : list Z) :
  0 <= o -> (Z.to_nat o + List.length bs <= List.length a)%nat ->
  bytes_at (splice a (Z.to_nat o) bs) o bs.
Proof.
  intros Ho Hin. split; [exact Ho|].
  pose proof (buffer_bytes_splice a (Z.to_nat o) bs Hin) as B.
  unfold buffer_bytes, len in B. cbn [fst snd u8] in B.
  now rewrite !Nat2Z.id in B.
Qed.

Lemma readStr_of_bytes_at (m : Memory) (o : Z) (codes : list Z) :
  bytes_at (u8 m) o (codes ++ [0]) ->
  Forall (fun b => b <> 0) codes ->
  Memory_readStr m o (-1) = text_of_bytes codes.
Proof.
  intros [Ho E] Hnz.
  assert (Hn : (Z.to_nat o + List.length (codes ++ [0%Z]) <= List.length (u8 m))%nat).
  { pose proof (f_equal (@List.length Z) E) as L.
    rewrite length_firstn, length_skipn in L. apply Nat.min_l_iff in L.
    rewrite length_app in *. cbn [List.length] in *. lia. }
  rewrite length_app in Hn. cbn [List.length] in Hn.
  set (pre := firstn (Z.to_nat o) (u8 m)).
  set (post := skipn (List.length (codes ++ [0])) (skipn (Z.to_nat o) (u8 m))).
  assert (Ea : u8 m = pre ++ codes ++ 0 :: post).
  { rewrite <- (firstn_skipn (Z.to_nat o) (u8 m)) at 1. fold pre. f_equal.
    rewrite <- (firstn_skipn (List.length (codes ++ [0])) (skipn (Z.to_nat o) (u8 m))).
    fold post. rewrite E, <- app_assoc. reflexivity. }
  assert (Hpre : len pre = o) by (unfold len, pre; rewrite length_firstn; lia).
  unfold Memory_readStr, readStr. rewrite Z.eqb_refl.
  pose proof (readStr_loop_text codes pre post
                (Z.to_nat (Z.of_nat (List.length (u8 m)) - o)) Hnz) as R.
  rewrite <- Ea, Hpre in R. apply R. lia.
Qed.

Lemma strings_size_nonneg (args : list string) : 0 <= strings_size args.
Proof.
  induction args as [|arg rest IH]; [reflexivity|].
  cbn [strings_size fold_right]. fold (strings_size rest).
  pose proof (strlen_nonneg arg). lia.
Qed.

Lemma strings_size_cons (arg : string) (rest : list string) :
  strings_size (arg :: rest) = strlen arg + 1 + strings_size rest.
Proof. reflexivity. Qed.

Lemma aligned_word (o : Z) :
  0 <= o < 2 ^ 31 -> o mod 4 = 0 -> 4 * sar2 o = o.
Proof.
  intros Ho Ha. rewrite sar2_small by assumption.
  pose proof (Z.div_mod o 4). lia.
Qed.

(** The loop of [args_get] over a pointer table and a string buffer that
    lie inside the memory and apart from each other. *)
Lemma args_get_loop_layout (args : list string) :
  forall (m : Memory) (ptrs buf : Z),
    0 <= ptrs -> ptrs mod 4 = 0 -> 0 <= buf ->
    ptrs + 4 * len args <= byteLength m ->
    buf + strings_size args <= byteLength m ->
    byteLength m <= 2 ^ 31 ->
    ptrs + 4 * len args <= buf \/ buf + strings_size args <= ptrs ->
    exists m',
      args_get_loop m ptrs buf args
      = (m', Ok (ptrs + 4 * len args, buf + strings_size args))
      /\ byteLength m' = byteLength m
      /\ (forall i, ~ ptrs <= i < ptrs + 4 * len args ->
                    ~ buf <= i < buf + strings_size args ->
                    typed_get (u8 m') i = typed_get (u8 m) i)
      /\ strings_at m' ptrs buf args.
Proof.
  induction args as [|arg rest IH]; intros m ptrs buf Hp Ha Hb Hpin Hbin H31 Hdis.
  - exists m. cbn [args_get_loop strings_size fold_right strings_at].
    change (len (@nil string)) with 0. rewrite Z.mul_0_r, !Z.add_0_r.
    repeat split.
  - assert (Hlen : len (arg :: rest) = len rest + 1)
      by (unfold len; cbn [List.length]; lia).
    rewrite Hlen, strings_size_cons in *.
    pose proof (strings_size_nonneg rest) as Hs.
    pose proof (strlen_nonneg arg) as Hsa.
    pose proof (len_nonneg rest) as Hlr.
    pose proof (char_codes_length arg) as Hcl.
    assert (Hw : 4 * sar2 ptrs = ptrs) by (apply aligned_word; lia).
    cbn [args_get_loop].
    set (m1 := write32 m ptrs buf).
    assert (Hm1 : u8 m1 = splice (u8 m) (Z.to_nat ptrs) (le32 (buf mod 2 ^ 32))).
    { unfold m1. rewrite write32_u8 by lia. now rewrite Hw. }
    assert (Hbl1 : byteLength m1 = byteLength m) by apply write32_byteLength.
    rewrite writeStr_ok by lia.
    set (m2 := mkMemory (splice (u8 m1) (Z.to_nat buf) (char_codes arg ++ [0]))).
    assert (Hin2 : (Z.to_nat buf + List.length (char_codes arg ++ [0%Z])
                    <= List.length (u8 m1))%nat).
    { rewrite length_app. cbn [List.length].
      unfold byteLength, len in *. lia. }
    assert (Hbl2 : byteLength m2 = byteLength m).
    { unfold byteLength, len, m2 in *. cbn [u8]. rewrite splice_length by exact Hin2.
      exact Hbl1. }
    destruct (IH m2 (ptrs + 4) (buf + (strlen arg + 1))) as (m' & Eloop & Hbl' & Hfr & Hst);
      try lia.
    { rewrite <- Z.add_mod_idemp_l, Ha by lia. reflexivity. }
    exists m'. split; [|split; [|split]].
    + rewrite Eloop. do 3 f_equal; lia.
    + congruence.
    + intros i Hi1 Hi2. rewrite Hfr by lia.
      unfold m2. cbn [u8]. rewrite splice_outside; [|exact Hin2|].
      * rewrite Hm1. apply splice_outside.
        -- change (List.length (le32 (buf mod 2 ^ 32))) with 4%nat.
           unfold byteLength, len in *. lia.
        -- unfold len. change (List.length (le32 (buf mod 2 ^ 32))) with 4%nat. lia.
      * unfold len. rewrite length_app. cbn [List.length]. unfold len in Hcl. lia.
    + cbn [strings_at]. split; [|split; [|exact Hst]].
      * transitivity (read32 m1 ptrs).
        -- unfold read32. apply u32_get_ext.
           ++ unfold byteLength, len in *. lia.
           ++ intros i Hi. rewrite Hw in Hi. rewrite Hfr by lia.
              unfold m2. cbn [u8]. apply splice_outside; [exact Hin2|].
              unfold len. rewrite length_app. cbn [List.length]. unfold len in Hcl. lia.
        -- unfold m1. rewrite read32_write32 by lia. f_equal. apply Z.mod_small. lia.
      * apply (bytes_at_ext (u8 m2)).
        -- intros i Hi. rewrite len_app in Hi. change (len [0]) with 1 in Hi.
           apply Hfr; lia.
        -- unfold m2. cbn [u8]. now apply bytes_at_splice.
Qed.

Lemma strings_at_ext (args : list string) :
  forall (m m' : Memory) (ptrs buf : Z),
    0 <= ptrs -> ptrs mod 4 = 0 -> ptrs + 4 * len args <= 2 ^ 31 ->
    byteLength m' = byteLength m ->
    (forall i, ptrs <= i < ptrs + 4 * len args \/ buf <= i < buf + strings_size args ->
               typed_get (u8 m') i = typed_get (u8 m) i) ->
    strings_at m ptrs buf args -> strings_at m' ptrs buf args.
Proof.
  induction args as [|arg rest IH]; intros m m' ptrs buf Hp Ha H31 Hbl Hag Hst;
    [exact I|].
  assert (Hlen : len (arg :: rest) = len rest + 1)
    by (unfold len; cbn [List.length]; lia).
  rewrite Hlen, strings_size_cons in *.
  pose proof (strings_size_nonneg rest) as Hs.
  pose proof (strlen_nonneg arg) as Hsa.
  pose proof (len_nonneg rest) as Hlr.
  pose proof (char_codes_length arg) as Hcl.
  assert (Hw : 4 * sar2 ptrs = ptrs) by (apply aligned_word; lia).
  cbn [strings_at] in *. destruct Hst as (Hr & Hb & Hst). split; [|split].
  - rewrite <- Hr. unfold read32. apply u32_get_ext.
    + unfold byteLength, len in Hbl. lia.
    + intros i Hi. rewrite Hw in Hi. apply Hag. lia.
  - apply (bytes_at_ext (u8 m)); [|exact Hb].
    intros i Hi. rewrite len_app in Hi. change (len [0]) with 1 in Hi.
    destruct Hb as [Hb0 _]. apply Hag. lia.
  - apply (IH m); try assumption; try lia.
    + rewrite <- Z.add_mod_idemp_l, Ha by lia. reflexivity.
    + intros i Hi. destruct Hb as [Hb0 _]. apply Hag. lia.
Qed.

Lemma strings_at_readable (args : list string) :
  forall (m : Memory) (ptrs buf : Z),
    no_nul args ->
    strings_at m ptrs buf args ->
    read32 m (ptrs + 4 * len args) = Some 0 ->
    argv_readable m ptrs buf args.
Proof.
  induction args as [|arg rest IH]; intros m ptrs buf Hnn Hst Hz.
  - cbn [argv_readable]. change (len (@nil string)) with 0 in Hz.
    now rewrite Z.mul_0_r, Z.add_0_r in Hz.
  - inversion Hnn as [|? ? Harg Hrest]; subst.
    cbn [strings_at argv_readable] in *. destruct Hst as (Hr & Hb & Hst).
    split; [exact Hr|]. split.
    + rewrite (readStr_of_bytes_at m buf (char_codes arg) Hb Harg).
      apply text_of_char_codes.
    + apply IH; [exact Hrest|exact Hst|].
      rewrite <- Hz. f_equal. unfold len. cbn [List.length]. lia.
Qed.

Lemma set_App_mem_mem (app : App) (m : Memory) : App_mem (set_App_mem app m) = m.
Proof. reflexivity. Qed.

(** The table and the buffer of [args_get], for a list of strings: both
    inside a memory of at most 2 GiB, the table aligned, and the two
    apart. *)
Lemma strings_laid_out (args : list string) (m : Memory) (ptrs buf : Z) :
  0 <= ptrs -> ptrs mod 4 = 0 -> 0 <= buf ->
  ptrs + 4 * (len args + 1) <= byteLength m ->
  buf + strings_size args <= byteLength m ->
  byteLength m <= 2 ^ 31 ->
  ptrs + 4 * (len args + 1) <= buf \/ buf + strings_size args <= ptrs ->
  no_nul args ->
  exists m1 m',
    args_get_loop m ptrs buf args
    = (m1, Ok (ptrs + 4 * len args, buf + strings_size args))
    /\ m' = write32 m1 (ptrs + 4 * len args) 0
    /\ argv_readable m' ptrs buf args
    /\ byteLength m' = byteLength m
    /\ forall i, ~ ptrs <= i < ptrs + 4 * (len args + 1) ->
                 ~ buf <= i < buf + strings_size args ->
                 read8 m' i = read8 m i.
Proof.
  intros Hp Ha Hb Hpin Hbin H31 Hdis Hnn.
  pose proof (strings_size_nonneg args) as Hs. pose proof (len_nonneg args) as Hl.
  destruct (args_get_loop_layout args m ptrs buf) as (m1 & Eloop & Hbl1 & Hfr & Hst);
    try lia.
  set (q := ptrs + 4 * len args).
  assert (Hq : 0 <= q < 2 ^ 31) by (unfold q; lia).
  assert (Hqa : q mod 4 = 0).
  { unfold q. rewrite (Z.mul_comm 4), Z.mod_add by lia. exact Ha. }
  assert (Hw : 4 * sar2 q = q) by now apply aligned_word.
  assert (Hk : 0 <= sar2 q) by lia.
  assert (Hu : u8 (write32 m1 q 0) = splice (u8 m1) (Z.to_nat q) (le32 (0 mod 2 ^ 32))).
  { rewrite write32_u8 by (rewrite ?Hbl1; lia). now rewrite Hw. }
  assert (Hin : (Z.to_nat q + List.length (le32 (0 mod 2 ^ 32)) <= List.length (u8 m1))%nat).
  { change (List.length (le32 (0 mod 2 ^ 32))) with 4%nat.
    unfold byteLength, len in *. subst q. rewrite <- Hbl1 in Hpin. lia. }
  assert (Hfr2 : forall i, i < q \/ q + 4 <= i ->
                           typed_get (u8 (write32 m1 q 0)) i = typed_get (u8 m1) i).
  { intros i Hi. rewrite Hu. apply splice_outside; [exact Hin|].
    unfold len. change (List.length (le32 (0 mod 2 ^ 32))) with 4%nat. lia. }
  exists m1, (write32 m1 q 0). split; [exact Eloop|]. split; [reflexivity|].
  split; [|split].
  - apply strings_at_readable; [exact Hnn| |].
    + apply (strings_at_ext args m1); try assumption; try lia.
      * apply write32_byteLength.
      * intros i Hi. apply Hfr2. unfold q. lia.
    + fold q. rewrite read32_write32 by (rewrite ?Hbl1; lia). reflexivity.
  - rewrite write32_byteLength. exact Hbl1.
  - intros i Hi1 Hi2. unfold read8. rewrite Hfr2 by (unfold q; lia).
    apply Hfr; lia.
Qed.

(** X21. [args_get] lays the arguments out for the guest.  Given an
    aligned pointer table and a string buffer that lie inside a memory of
    at most 2 GiB, apart from each other, and arguments that hold no null
    character: the table holds the address of each argument, each
    address holds the argument as a null-terminated string, consecutive
    in the buffer, a null pointer ends the table, and no byte outside the
    table and the buffer changes. *)
Theorem args_get_lays_out_argv :
  forall (app : App) (argv_ptrs argv_buf : Z),
    let m := App_mem app in
    let n := len (argv app) in
    let size := strings_size (argv app) in
    0 <= argv_ptrs -> argv_ptrs mod 4 = 0 -> 0 <= argv_buf ->
    argv_ptrs + 4 * (n + 1) <= byteLength m ->
    argv_buf + size <= byteLength m ->
    byteLength m <= 2 ^ 31 ->
    argv_ptrs + 4 * (n + 1) <= argv_buf \/ argv_buf + size <= argv_ptrs ->
    no_nul (argv app) ->
    exists m',
      args_get app argv_ptrs argv_buf = (set_App_mem app m', Ok ESUCCESS)
      /\ argv_readable m' argv_ptrs argv_buf (argv app)
      /\ byteLength m' = byteLength m
      /\ forall i, ~ argv_ptrs <= i < argv_ptrs + 4 * (n + 1) ->
                   ~ argv_buf <= i < argv_buf + size ->
                   read8 m' i = read8 m i.
Proof.
  intros app ptrs buf m n size Hp Ha Hb Hpin Hbin H31 Hdis Hnn.
  destruct (strings_laid_out (argv app) m ptrs buf Hp Ha Hb Hpin Hbin H31 Hdis Hnn)
    as (m1 & m' & Eloop & -> & Hread & Hbl & Hfr).
  exists (write32 m1 (ptrs + 4 * len (argv app)) 0). split; [|split; [|split]].
  - unfold args_get. fold m. now rewrite Eloop.
  - exact Hread.
  - exact Hbl.
  - exact Hfr.
Qed.

Lemma args_get_lays_out_argv_witness :
  exists m',
    args_get args_app 0 16 = (set_App_mem args_app m', Ok ESUCCESS)
    /\ argv_readable m' 0 16 ["a.out"; "-v"]
    /\ byteLength m' = 64
    /\ forall i, ~ 0 <= i < 0 + 4 * (2 + 1) -> ~ 16 <= i < 16 + 9 ->
                 read8 m' i = read8 (mkMemory (repeat 7 64)) i.
Proof.
  apply (args_get_lays_out_argv args_app 0 16).
  - lia.
  - reflexivity.
  - lia.
  - cbn. lia.
  - cbn. lia.
  - cbn. lia.
  - left. cbn. lia.
  - repeat constructor; discriminate.
Defined.

Lemma sar2_next_word (o : Z) :
  0 <= o -> o + 4 < 2 ^ 31 -> sar2 o = o / 4 /\ sar2 (o + 4) = o / 4 + 1 /\ 0 <= o / 4.
Proof.
  intros Ho H31. split; [apply sar2_small; lia|]. split.
  - rewrite sar2_small by lia.
    replace (o + 4) with (o + 1 * 4) by lia. now rewrite Z.div_add by lia.
  - apply Z.div_pos; lia.
Qed.

(** Two 64-bit slots written one after the other, the words of the one
    apart from the words of the other. *)
Lemma two_slots_written (m : Memory) (o s a b : Z) :
  0 <= o -> o + 4 < 2 ^ 31 -> 4 * (o / 4) + 8 <= byteLength m ->
  0 <= s -> s + 4 < 2 ^ 31 -> 4 * (s / 4) + 8 <= byteLength m ->
  o / 4 + 2 <= s / 4 \/ s / 4 + 2 <= o / 4 ->
  let m' := write64 (write64 m o a 0) s b 0 in
  read32 m' o = Some (a mod 2 ^ 32) /\ read32 m' (o + 4) = Some 0
  /\ read32 m' s = Some (b mod 2 ^ 32) /\ read32 m' (s + 4) = Some 0.
Proof.
  intros Ho Ho31 Hoin Hs Hs31 Hsin Hapart m'.
  destruct (sar2_next_word o Ho Ho31) as (Eo & Eo4 & Hok).
  destruct (sar2_next_word s Hs Hs31) as (Es & Es4 & Hsk).
  unfold m', write64. repeat split.
  - rewrite !read32_write32_other by lia.
    apply read32_write32; rewrite Eo; lia.
  - rewrite !read32_write32_other by lia.
    apply read32_write32; rewrite ?write32_byteLength, Eo4; lia.
  - rewrite read32_write32_other by lia.
    apply read32_write32; rewrite ?write32_byteLength, Es; lia.
  - apply read32_write32; rewrite ?write32_byteLength, Es4; lia.
Qed.

Lemma args_size_loop (args : list string) (acc : Z) :
  fold_left (fun size arg => size + (strlen arg + 1)) args acc = acc + strings_size args.
Proof.
  revert acc. induction args as [|arg rest IH]; intro acc; cbn [fold_left].
  - unfold strings_size. cbn [fold_right]. lia.
  - rewrite IH, strings_size_cons. lia.
Qed.

Lemma environ_size_loop (env : list (string * string)) (acc : Z) :
  fold_left (fun size nv => size + (strlen (fst nv) + strlen (snd nv) + 2)) env acc
  = acc + strings_size (environ_strings env).
Proof.
  revert acc. induction env as [|[name value] rest IH]; intro acc; cbn [fold_left].
  - unfold strings_size. cbn [environ_strings map fold_right]. lia.
  - rewrite IH. unfold environ_strings. cbn [map fst snd].
    rewrite strings_size_cons, !strlen_app. change (strlen "=") with 1. lia.
Qed.

Lemma environ_get_loop_strings (env : list (string * string)) :
  forall (m : Memory) (ptrs buf : Z),
    environ_get_loop m ptrs buf env = args_get_loop m ptrs buf (environ_strings env).
Proof.
  induction env as [|[name value] rest IH]; intros m ptrs buf; [reflexivity|].
  unfold environ_strings. cbn [environ_get_loop args_get_loop map fst snd].
  destruct (writeStr (write32 m ptrs buf) buf (name ++ "=" ++ value)) as [[m1 n]|e];
    [apply IH|reflexivity].
Qed.

Lemma len_environ_strings (env : list (string * string)) :
  len (environ_strings env) = len env.
Proof.
  unfold len, environ_strings. now rewrite length_map.
Qed.

(** X20. [args_sizes_get] reports what [args_get] needs.  With the two
    result slots inside the memory and their words apart, the syscall
    returns [ESUCCESS], the slot at [argc_out] holds the number of
    arguments and the slot at [argv_buf_size_out] the sum of the lengths
    of the arguments with one terminator each, both modulo 2^32 with a
    zero high word; that sum is the distance by which the loop of
    [args_get] advances through the string buffer. *)
Theorem args_sizes_get_reports_layout :
  forall (app : App) (argc_out argv_buf_size_out : Z),
    0 <= argc_out -> argc_out + 4 < 2 ^ 31 ->
    4 * (argc_out / 4) + 8 <= byteLength (App_mem app) ->
    0 <= argv_buf_size_out -> argv_buf_size_out + 4 < 2 ^ 31 ->
    4 * (argv_buf_size_out / 4) + 8 <= byteLength (App_mem app) ->
    argc_out / 4 + 2 <= argv_buf_size_out / 4
    \/ argv_buf_size_out / 4 + 2 <= argc_out / 4 ->
    exists m',
      args_sizes_get app argc_out argv_buf_size_out = (set_App_mem app m', Ok ESUCCESS)
      /\ read32 m' argc_out = Some (len (argv app) mod 2 ^ 32)
      /\ read32 m' (argc_out + 4) = Some 0
      /\ read32 m' argv_buf_size_out = Some (strings_size (argv app) mod 2 ^ 32)
      /\ read32 m' (argv_buf_size_out + 4) = Some 0
      /\ forall m ptrs buf m1 ptrs1 buf1,
           args_get_loop m ptrs buf (argv app) = (m1, Ok (ptrs1, buf1)) ->
           buf1 - buf = strings_size (argv app).
Proof.
  intros app o s Ho Ho31 Hoin Hs Hs31 Hsin Hapart.
  eexists. split; [reflexivity|].
  rewrite args_size_loop, Z.add_0_l.
  destruct (two_slots_written (App_mem app) o s (len (argv app))
              (strings_size (argv app)) Ho Ho31 Hoin Hs Hs31 Hsin Hapart)
    as (H1 & H2 & H3 & H4).
  repeat (split; [assumption|]).
  generalize (argv app). intro args.
  induction args as [|arg rest IH]; intros m ptrs buf m1 ptrs1 buf1 E.
  - cbn [args_get_loop] in E. unfold strings_size. cbn [fold_right].
    assert (buf1 = buf) by congruence. lia.
  - cbn [args_get_loop] in E.
    destruct (writeStr (write32 m ptrs buf) buf arg) as [[m2 n]|e] eqn:Ew;
      [|discriminate].
    assert (n = strlen arg + 1).
    { unfold writeStr, bind in Ew.
      destruct (write (write32 m ptrs buf) buf (Text arg)) as [[m3 k]|e];
        congruence. }
    subst n. apply IH in E. rewrite strings_size_cons. lia.
Qed.

Lemma args_sizes_get_reports_layout_witness :
  exists m',
    args_sizes_get args_app 32 40 = (set_App_mem args_app m', Ok ESUCCESS)
    /\ read32 m' 32 = Some (2 mod 2 ^ 32)
    /\ read32 m' (32 + 4) = Some 0
    /\ read32 m' 40 = Some (9 mod 2 ^ 32)
    /\ read32 m' (40 + 4) = Some 0
    /\ forall m ptrs buf m1 ptrs1 buf1,
         args_get_loop m ptrs buf ["a.out"; "-v"] = (m1, Ok (ptrs1, buf1)) ->
         buf1 - buf = 9.
Proof.
  apply (args_sizes_get_reports_layout args_app 32 40).
  - lia.
  - lia.
  - cbn. lia.
  - lia.
  - lia.
  - cbn. lia.
  - left. cbn. lia.
Defined.

(** X22. [environ_sizes_get] reports what [environ_get] needs.  With the
    two result slots inside the memory and their words apart, the
    syscall returns [ESUCCESS], the slot at [environ_count_out] holds the
    number of variables and the slot at [environ_buf_size_out] the size
    of the strings [name=value] with one terminator each, both modulo
    2^32 with a zero high word; that size is the distance by which the
    loop of [environ_get] advances through the string buffer. *)
Theorem environ_sizes_get_reports_layout :
  forall (app : App) (environ_count_out environ_buf_size_out : Z),
    0 <= environ_count_out -> environ_count_out + 4 < 2 ^ 31 ->
    4 * (environ_count_out / 4) + 8 <= byteLength (App_mem app) ->
    0 <= environ_buf_size_out -> environ_buf_size_out + 4 < 2 ^ 31 ->
    4 * (environ_buf_size_out / 4) + 8 <= byteLength (App_mem app) ->
    environ_count_out / 4 + 2 <= environ_buf_size_out / 4
    \/ environ_buf_size_out / 4 + 2 <= environ_count_out / 4 ->
    exists m',
      environ_sizes_get app environ_count_out environ_buf_size_out
      = (set_App_mem app m', Ok ESUCCESS)
      /\ read32 m' environ_count_out = Some (len (environ app) mod 2 ^ 32)
      /\ read32 m' (environ_count_out + 4) = Some 0
      /\ read32 m' environ_buf_size_out
         = Some (strings_size (environ_strings (environ app)) mod 2 ^ 32)
      /\ read32 m' (environ_buf_size_out + 4) = Some 0
      /\ forall m ptrs buf m1 ptrs1 buf1,
           environ_get_loop m ptrs buf (environ app) = (m1, Ok (ptrs1, buf1)) ->
           buf1 - buf = strings_size (environ_strings (environ app)).
Proof.
  intros app o s Ho Ho31 Hoin Hs Hs31 Hsin Hapart.
  eexists. split; [reflexivity|].
  rewrite environ_size_loop, Z.add_0_l.
  destruct (two_slots_written (App_mem app) o s (len (environ app))
              (strings_size (environ_strings (environ app)))
              Ho Ho31 Hoin Hs Hs31 Hsin Hapart)
    as (H1 & H2 & H3 & H4).
  repeat (split; [assumption|]).
  generalize (environ app). intro env.
  induction env as [|[name value] rest IH]; intros m ptrs buf m1 ptrs1 buf1 E.
  - cbn [environ_get_loop] in E. unfold strings_size. cbn [environ_strings map fold_right].
    assert (buf1 = buf) by congruence. lia.
  - cbn [environ_get_loop] in E.
    destruct (writeStr (write32 m ptrs buf) buf (name ++ "=" ++ value))
      as [[m2 n]|e] eqn:Ew; [|discriminate].
    assert (n = strlen (name ++ "=" ++ value) + 1).
    { unfold writeStr, bind in Ew.
      destruct (write (write32 m ptrs buf) buf (Text (name ++ "=" ++ value)))
        as [[m3 k]|e]; congruence. }
    subst n. apply IH in E. unfold environ_strings in *. cbn [map fst snd].
    rewrite strings_size_cons. lia.
Qed.

Lemma environ_sizes_get_reports_layout_witness :
  exists m',
    environ_sizes_get args_app 32 40 = (set_App_mem args_app m', Ok ESUCCESS)
    /\ read32 m' 32 = Some (1 mod 2 ^ 32)
    /\ read32 m' (32 + 4) = Some 0
    /\ read32 m' 40 = Some (11 mod 2 ^ 32)
    /\ read32 m' (40 + 4) = Some 0
    /\ forall m ptrs buf m1 ptrs1 buf1,
         environ_get_loop m ptrs buf [("USER", "alice")] = (m1, Ok (ptrs1, buf1)) ->
         buf1 - buf = 11.
Proof.
  apply (environ_sizes_get_reports_layout args_app 32 40).
  - lia.
  - lia.
  - cbn. lia.
  - lia.
  - lia.
  - cbn. lia.
  - left. cbn. lia.
Defined.

(** X23. [environ_get] lays the environment out for the guest.  Given an
    aligned pointer table and a string buffer that lie inside a memory of
    at most 2 GiB, apart from each other, and names and values that hold
    no null character: the table holds the address of one string per
    variable, each address holds [name=value] as a null-terminated
    string, in the order of the names, a null pointer ends the table,
    and no byte outside the table and the buffer changes. *)
Theorem environ_get_lays_out_environ :
  forall (app : App) (environ_ptrs environ_buf : Z),
    let m := App_mem app in
    let strs := environ_strings (environ app) in
    let n := len (environ app) in
    0 <= environ_ptrs -> environ_ptrs mod 4 = 0 -> 0 <= environ_buf ->
    environ_ptrs + 4 * (n + 1) <= byteLength m ->
    environ_buf + strings_size strs <= byteLength m ->
    byteLength m <= 2 ^ 31 ->
    environ_ptrs + 4 * (n + 1) <= environ_buf
    \/ environ_buf + strings_size strs <= environ_ptrs ->
    no_nul strs ->
    exists m',
      environ_get app environ_ptrs environ_buf = (set_App_mem app m', Ok ESUCCESS)
      /\ argv_readable m' environ_ptrs environ_buf strs
      /\ byteLength m' = byteLength m
      /\ forall i, ~ environ_ptrs <= i < environ_ptrs + 4 * (n + 1) ->
                   ~ environ_buf <= i < environ_buf + strings_size strs ->
                   read8 m' i = read8 m i.
Proof.
  intros app ptrs buf m strs n Hp Ha Hb Hpin Hbin H31 Hdis Hnn.
  assert (Hn : len strs = n) by apply len_environ_strings.
  rewrite <- Hn in *.
  destruct (strings_laid_out strs m ptrs buf Hp Ha Hb Hpin Hbin H31 Hdis Hnn)
    as (m1 & m' & Eloop & -> & Hread & Hbl & Hfr).
  exists (write32 m1 (ptrs + 4 * len strs) 0). split; [|split; [|split]].
  - unfold environ_get. fold m. rewrite environ_get_loop_strings.
    fold strs. now rewrite Eloop.
  - exact Hread.
  - exact Hbl.
  - exact Hfr.
Qed.

Lemma environ_get_lays_out_environ_witness :
  exists m',
    environ_get args_app 0 16 = (set_App_mem args_app m', Ok ESUCCESS)
    /\ argv_readable m' 0 16 ["USER=alice"]
    /\ byteLength m' = 64
    /\ forall i, ~ 0 <= i < 0 + 4 * (1 + 1) -> ~ 16 <= i < 16 + 11 ->
                 read8 m' i = read8 (mkMemory (repeat 7 64)) i.
Proof.
  apply (environ_get_lays_out_environ args_app 0 16).
  - lia.
  - reflexivity.
  - lia.
  - cbn. lia.
  - cbn. lia.
  - cbn. lia.
  - left. cbn. lia.
  - repeat constructor; discriminate.
Defined.

(** ** More on [Tar] *)

Lemma land_m512 (x : Z) : Z.land x (-512) = 512 * (x / 512).
Proof.
  change (-512) with (Z.lnot (Z.ones 9)).
  rewrite <- Z.ldiff_land, Z.ldiff_ones_r by lia.
  rewrite Z.shiftl_mul_pow2, Z.shiftr_div_pow2 by lia.
  change (2 ^ 9) with 512. lia.
Qed.

Lemma align512_small (o : Z) :
  - 2 ^ 31 <= o + 511 < 2 ^ 31 -> align512 (Some o) = round_up_512 o.
Proof.
  intro H. unfold align512, round_up_512. cbn [js_add or_zero].
  rewrite to_int32_small by lia. apply land_m512.
Qed.

Lemma round_up_512_spec (n : Z) :
  round_up_512 n mod 512 = 0 /\ n <= round_up_512 n < n + 512.
Proof.
  unfold round_up_512. split.
  - rewrite Z.mul_comm. apply Z.mod_mul. lia.
  - pose proof (Z.div_mod (n + 511) 512). pose proof (Z.mod_pos_bound (n + 511) 512). lia.
Qed.

Lemma round_up_512_add (o n : Z) :
  o mod 512 = 0 -> round_up_512 (o + n) = o + round_up_512 n.
Proof.
  intro Ha. unfold round_up_512.
  pose proof (Z.div_mod o 512).
  replace (o + n + 511) with (n + 511 + (o / 512) * 512) by lia.
  rewrite Z.div_add by lia. lia.
Qed.

(** X24. [alignUp] rounds the offset up to the next multiple of 512 as
    long as [offset + 511] is a 32-bit integer: the new offset is a
    multiple of 512, not below the old one and less than 512 above it.
    From there up to 2^31 the addition wraps and the offset becomes
    -2^31.  The bytes of the archive are not touched. *)
Theorem alignUp_rounds_up :
  forall t : Tar,
    0 <= offset t < 2 ^ 31 ->
    tar_u8 (alignUp t) = tar_u8 t
    /\ (offset t + 511 < 2 ^ 31 ->
        offset (alignUp t) mod 512 = 0
        /\ offset t <= offset (alignUp t) < offset t + 512)
    /\ (2 ^ 31 <= offset t + 511 -> offset (alignUp t) = - 2 ^ 31).
Proof.
  intros t Ho. split; [reflexivity|]. split; intro H; unfold alignUp; cbn [offset].
  - rewrite align512_small by lia. apply round_up_512_spec.
  - unfold align512. cbn [js_add or_zero]. rewrite land_m512.
    assert (E : to_int32 (offset t + 511) = offset t + 511 - 2 ^ 32).
    { unfold to_int32.
      replace (offset t + 511 + 2 ^ 31)
        with (offset t + 511 - 2 ^ 31 + 1 * 2 ^ 32) by lia.
      rewrite Z.mod_add by lia. rewrite Z.mod_small; lia. }
    rewrite E.
    pose proof (Z.div_mod (offset t + 511 - 2 ^ 32) 512).
    pose proof (Z.mod_pos_bound (offset t + 511 - 2 ^ 32) 512). lia.
Qed.

Lemma alignUp_rounds_up_witness :
  (offset (alignUp (mkTar [] 700)) mod 512 = 0
   /\ 700 <= offset (alignUp (mkTar [] 700)) < 700 + 512)
  /\ offset (alignUp (mkTar [] (2 ^ 31 - 100))) = - 2 ^ 31.
Proof.
  split.
  - apply (proj1 (proj2 (alignUp_rounds_up (mkTar [] 700) ltac:(cbn; lia)))).
    cbn. lia.
  - apply (proj2 (proj2 (alignUp_rounds_up (mkTar [] (2 ^ 31 - 100)) ltac:(cbn; lia)))).
    cbn. lia.
Defined.

(** [subarray] from an index inside the array: the bytes from there on,
    at most as many as asked for. *)
Lemma subarray_from (a : list Z) (b n : Z) :
  0 <= b <= len a -> 0 <= n ->
  subarray a (Some b) (Some (b + n)) = firstn (Z.to_nat n) (skipn (Z.to_nat b) a).
Proof.
  intros Hb Hn. unfold subarray, clamp_index.
  destruct (Z.ltb_spec b 0) as [|_]; [lia|].
  destruct (Z.ltb_spec (b + n) 0) as [|_]; [lia|].
  rewrite (Z.min_l b) by lia.
  destruct (Z.le_gt_cases (b + n) (len a)) as [Hin|Hout].
  - rewrite Z.min_l by lia. f_equal. lia.
  - rewrite Z.min_r by lia.
    assert (Hl : List.length (skipn (Z.to_nat b) a) = Z.to_nat (len a - b)).
    { rewrite length_skipn. unfold len in *. lia. }
    rewrite !firstn_all2; [reflexivity| |]; rewrite Hl; lia.
Qed.

(** The header of [t] read as far as the test of the type flag. *)
Lemma readEntry_header (t : Tar) :
  valid_header t -> 0 <= offset t -> offset t mod 512 = 0 -> offset t + 1023 < 2 ^ 31 ->
  exists entry,
    (forall c, filename (entry c) = name_field t /\ size (entry c) = size_field t
               /\ type (entry c) = type_flag t /\ contents (entry c) = c)
    /\ readEntry t
       = let t1 := mkTar (tar_u8 t) (offset t + 512) in
         if (type_flag t =? "0")%string then
           (mkTar (tar_u8 t) (align512 (js_add (Some (offset t + 512)) (size_field t))),
            [],
            Ok (Some (entry (Some (subarray (tar_u8 t) (Some (offset t + 512))
                                            (js_add (Some (offset t + 512)) (size_field t)))))))
         else if negb (type_flag t =? "5")%string then
           (t1, [EvConsoleLog ("type " ++ type_flag t)],
            Throw (AssertError "assertion failed."))
         else (t1, [], Ok (Some (entry None))).
Proof.
  unfold valid_header, type_flag, size_field, name_field. intros [Hin Hmagic] Ho Ha H31.
  unfold readEntry. cbv [Tar_readOctal Tar_readStr alignUp]. cbn [tar_u8 offset].
  replace (offset t + 100 + 8 + 8 + 8) with (offset t + 124) by lia.
  replace (offset t + 124 + 12 + 12 + 8) with (offset t + 156) by lia.
  replace (offset t + 156 + 1 + 100) with (offset t + 257) by lia.
  replace (offset t + 257 + 8 + 32 + 32 + 8 + 8 + 155) with (offset t + 500) by lia.
  destruct (Z.ltb_spec (len (tar_u8 t)) (offset t + 512)) as [|_]; [lia|].
  rewrite Hmagic, String.eqb_refl. cbn [negb].
  assert (Eal : align512 (Some (offset t + 500)) = offset t + 512).
  { rewrite align512_small by lia. rewrite round_up_512_add by assumption.
    unfold round_up_512. change ((500 + 511) / 512) with 1. lia. }
  rewrite Eal.
  eexists (fun c => mkEntry _ _ _ _ _ _ _ _ _ _ _ _ _ _ c). split.
  - intro c. cbn [filename size type contents]. repeat split.
  - cbn [assert]. reflexivity.
Qed.

(** X25. A regular file in an archive.  For a header with the magic, at
    an offset that is a multiple of 512, with the type flag ['0'] and a
    size field that parses to [n >= 0]: [readEntry] returns an entry under
    the name of the header whose contents are the bytes after the header
    block, [n] of them or as many as the archive still holds; the offset
    moves past the header and past [n] rounded up to a multiple of 512;
    nothing is printed; and [untar] hands that name and those bytes to
    [addFile]. *)
Theorem readEntry_regular_file :
  forall (t : Tar) (n : Z),
    valid_header t -> type_flag t = "0" -> size_field t = Some n -> 0 <= n ->
    0 <= offset t -> offset t mod 512 = 0 -> offset t + 512 + n + 511 < 2 ^ 31 ->
    let bytes := firstn (Z.to_nat n) (skipn (Z.to_nat (offset t + 512)) (tar_u8 t)) in
    exists e,
      readEntry t = (mkTar (tar_u8 t) (offset t + 512 + round_up_512 n), [], Ok (Some e))
      /\ filename e = name_field t
      /\ contents e = Some bytes
      /\ forall memfs, untar_entry memfs e = addFile memfs (name_field t) (Bytes bytes).
Proof.
  intros t n Hv Ht Hs Hn Ho Ha H31 bytes. subst bytes.
  destruct (readEntry_header t Hv Ho Ha ltac:(lia)) as (entry & Hentry & E).
  rewrite Ht, Hs in E. cbn [String.eqb Ascii.eqb Bool.eqb js_add] in E. cbv zeta in E.
  destruct Hv as [Hin _].
  rewrite subarray_from in E by lia.
  rewrite align512_small in E by lia.
  replace (offset t + 512 + n) with ((offset t + 512) + n) in E by lia.
  rewrite round_up_512_add in E.
  2:{ rewrite <- Z.add_mod_idemp_l, Ha by lia. reflexivity. }
  eexists. split; [exact E|].
  destruct (Hentry (Some (firstn (Z.to_nat n)
                                 (skipn (Z.to_nat (offset t + 512)) (tar_u8 t)))))
    as (Hf & _ & Hty & Hc).
  split; [exact Hf|]. split; [exact Hc|].
  intro memfs. unfold untar_entry. rewrite Hty, Ht, Hf, Hc. reflexivity.
Qed.

Lemma readEntry_regular_file_witness :
  exists e,
    readEntry link_archive_at_file
    = (mkTar (tar_u8 link_archive_at_file) (1024 + 512 + round_up_512 3), [], Ok (Some e))
    /\ filename e = name_field link_archive_at_file
    /\ contents e = Some [104; 105; 10]
    /\ forall memfs, untar_entry memfs e = addFile memfs "src/a.txt" (Bytes [104; 105; 10]).
Proof.
  apply (readEntry_regular_file link_archive_at_file 3).
  - split; [vm_compute; discriminate|vm_compute; reflexivity].
  - vm_compute. reflexivity.
  - vm_compute. reflexivity.
  - lia.
  - cbn. lia.
  - reflexivity.
  - cbn. lia.
Defined.

(** X26. A directory in an archive.  For a header with the magic, at an
    offset that is a multiple of 512, with the type flag ['5']:
    [readEntry] returns an entry under the name of the header, without
    contents, and moves the offset by one block whatever the size field
    says; nothing is printed; and [untar] hands the name to
    [addDirectory]. *)
Theorem readEntry_directory :
  forall t : Tar,
    valid_header t -> type_flag t = "5" ->
    0 <= offset t -> offset t mod 512 = 0 -> offset t + 1023 < 2 ^ 31 ->
    exists e,
      readEntry t = (mkTar (tar_u8 t) (offset t + 512), [], Ok (Some e))
      /\ filename e = name_field t
      /\ contents e = None
      /\ forall memfs, untar_entry memfs e = addDirectory memfs (name_field t).
Proof.
  intros t Hv Ht Ho Ha H31.
  destruct (readEntry_header t Hv Ho Ha H31) as (entry & Hentry & E).
  rewrite Ht in E. cbn [String.eqb Ascii.eqb Bool.eqb negb] in E. cbv zeta in E.
  eexists. split; [exact E|].
  destruct (Hentry None) as (Hf & _ & Hty & Hc).
  split; [exact Hf|]. split; [exact Hc|].
  intro memfs. unfold untar_entry. rewrite Hty, Ht, Hf. reflexivity.
Qed.

Lemma readEntry_directory_witness :
  exists e,
    readEntry link_archive = (mkTar (tar_u8 link_archive) (0 + 512), [], Ok (Some e))
    /\ filename e = name_field link_archive
    /\ contents e = None
    /\ forall memfs, untar_entry memfs e = addDirectory memfs "src/".
Proof.
  apply (readEntry_directory link_archive).
  - split; [vm_compute; discriminate|vm_compute; reflexivity].
  - vm_compute. reflexivity.
  - cbn. lia.
  - reflexivity.
  - cbn. lia.
Defined.

(** X27. A file whose size field holds no octal number.  [parseInt]
    gives [NaN], the entry gets empty contents, and the offset, [NaN]
    after the addition, is aligned to 0: the next read starts again at
    the beginning of the archive.  When such a header is the first of
    the archive, [untar] never returns normally: for no number of
    entries read does it end without an error. *)
Theorem readEntry_blank_size_rewinds :
  forall t : Tar,
    valid_header t -> type_flag t = "0" -> size_field t = None ->
    0 <= offset t -> offset t mod 512 = 0 -> offset t + 1023 < 2 ^ 31 ->
    (exists e,
        readEntry t = (mkTar (tar_u8 t) 0, [], Ok (Some e))
        /\ contents e = Some [])
    /\ (offset t = 0 ->
        forall (fuel : nat) (memfs : MemFS) (t' : Tar) (memfs' : MemFS),
          untar fuel t memfs <> Some (t', memfs', Ok tt)).
Proof.
  intros t Hv Ht Hs Ho Ha H31.
  destruct (readEntry_header t Hv Ho Ha H31) as (entry & Hentry & E).
  rewrite Ht, Hs in E. cbn [String.eqb Ascii.eqb Bool.eqb js_add] in E. cbv zeta in E.
  assert (Esub : subarray (tar_u8 t) (Some (offset t + 512)) None = []).
  { unfold subarray, clamp_index.
    destruct (Z.ltb_spec (offset t + 512) 0) as [|_]; [lia|].
    destruct Hv as [Hin _]. rewrite Z.min_l by lia.
    replace (Z.to_nat (0 - (offset t + 512))) with O by lia. reflexivity. }
  rewrite Esub in E. change (align512 None) with 0 in E.
  split.
  - eexists. split; [exact E|]. apply (Hentry (Some [])).
  - intro H0. destruct t as [bytes o]. cbn [tar_u8 offset] in *. subst o.
    induction fuel as [|fuel IH]; intros memfs t' memfs'; [discriminate|].
    cbn [untar]. rewrite E. cbn [fold_left].
    destruct (untar_entry memfs (entry (Some []))) as [memfs1 [u|e]].
    + apply IH.
    + discriminate.
Qed.

Lemma readEntry_blank_size_rewinds_witness :
  (exists e,
      readEntry blank_size_archive = (mkTar (tar_u8 blank_size_archive) 0, [], Ok (Some e))
      /\ contents e = Some [])
  /\ forall (fuel : nat) (memfs : MemFS) (t' : Tar) (memfs' : MemFS),
       untar fuel blank_size_archive memfs <> Some (t', memfs', Ok tt).
Proof.
  assert (Hv : valid_header blank_size_archive)
    by (split; [vm_compute; discriminate|vm_compute; reflexivity]).
  assert (Ht : type_flag blank_size_archive = "0") by (vm_compute; reflexivity).
  assert (Hs : size_field blank_size_archive = None) by (vm_compute; reflexivity).
  assert (Ho : 0 <= offset blank_size_archive) by (cbn; lia).
  assert (Ha : offset blank_size_archive mod 512 = 0) by reflexivity.
  assert (H31 : offset blank_size_archive + 1023 < 2 ^ 31) by (cbn; lia).
  destruct (readEntry_blank_size_rewinds blank_size_archive Hv Ht Hs Ho Ha H31)
    as [H1 H2].
  split; [exact H1|]. apply H2. reflexivity.
Defined.

Lemma readEntry_end (t : Tar) :
  len (tar_u8 t) < offset t + 512
  \/ readStr (tar_u8 t) (offset t + 257) 8 <> "ustar  " ->
  exists t', readEntry t = (t', [], Ok None).
Proof.
  intro H. unfold readEntry.
  destruct (Z.ltb_spec (len (tar_u8 t)) (offset t + 512)) as [|Hin];
    [eexists; reflexivity|].
  destruct H as [H|H]; [lia|].
  cbv [Tar_readOctal Tar_readStr]. cbn [tar_u8 offset].
  replace (offset t + 100 + 8 + 8 + 8 + 12 + 12 + 8 + 1 + 100) with (offset t + 257) by lia.
  apply String.eqb_neq in H. rewrite H. cbn [negb]. eexists. reflexivity.
Qed.

(** X28. The end of an archive is not checked.  Where fewer than 512
    bytes are left, or the block at the offset does not carry the magic
    (the blocks of zeros that end an archive, but a damaged header as
    well), [readEntry] returns [null] and [untar] ends normally: the
    filesystem holds what the entries before put there, nothing is
    printed and no error is raised, whatever follows in the archive. *)
Theorem untar_ends_without_magic :
  forall (t t' : Tar) (memfs memfs' : MemFS),
    untar_reaches t memfs t' memfs' ->
    len (tar_u8 t') < offset t' + 512
    \/ readStr (tar_u8 t') (offset t' + 257) 8 <> "ustar  " ->
    snd (readEntry t') = Ok None
    /\ exists (n : nat) (t'' : Tar),
        forall fuel : nat,
          (n <= fuel)%nat -> untar fuel t memfs = Some (t'', memfs', Ok tt).
Proof.
  intros t t' memfs memfs' Hreach Hend.
  destruct (readEntry_end t' Hend) as [t'' E].
  split; [now rewrite E|].
  induction Hreach as [t memfs|t t1 t' memfs memfs1 memfs' log e Hr He _ IH].
  - exists 1%nat, t''. intros [|fuel] Hf; [lia|].
    cbn [untar]. rewrite E. reflexivity.
  - destruct (IH Hend E) as (n & t3 & Hn).
    exists (S n), t3. intros [|fuel] Hf; [lia|].
    cbn [untar]. rewrite Hr, He. apply Hn. lia.
Qed.

Lemma untar_ends_without_magic_witness :
  snd (readEntry dir_archive_at_end) = Ok None
  /\ exists (n : nat) (t'' : Tar),
      forall fuel : nat,
        (n <= fuel)%nat ->
        untar fuel dir_archive (example_fs hello_mem)
        = Some (t'', fst (addDirectory (example_fs hello_mem) "src/"), Ok tt).
Proof.
  apply (untar_ends_without_magic dir_archive dir_archive_at_end
           (example_fs hello_mem) (fst (addDirectory (example_fs hello_mem) "src/"))).
  - eapply reaches_entry.
    + vm_compute. reflexivity.
    + vm_compute. reflexivity.
    + apply reaches_start.
  - right. vm_compute. discriminate.
Defined.

(** ** More on [formatErrorMsg] *)

Lemma split_nonempty (sep : ascii) (s : string) :
  exists line lines, split sep s = line :: lines.
Proof.
  destruct s as [|c s]; cbn [split]; [now eexists; eexists|].
  destruct (Ascii.eqb c sep); [now eexists; eexists|].
  destruct (split sep s); now eexists; eexists.
Qed.

(** X29. [formatErrorMsg] drops the second to the seventh line whatever
    they hold.  Of a message of seven lines or fewer only the first line
    is left, with the token of the execution wrapper replaced: the line
    that names the error is dropped with the rest; and whatever the
    message, the result starts with that first line. *)
Theorem formatErrorMsg_short_message :
  forall (msg activeTabName : string),
    let first := hd "" (split (ascii_of_nat 10) msg) in
    (exists rest,
        formatErrorMsg msg activeTabName
        = (replace first "<exec>" activeTabName ++ rest)%string)
    /\ ((line_count msg <= 7)%nat ->
        formatErrorMsg msg activeTabName = replace first "<exec>" activeTabName).
Proof.
  intros msg name first. subst first. unfold formatErrorMsg, line_count.
  destruct (split_nonempty (ascii_of_nat 10) msg) as (line & lines & E).
  rewrite E. cbn [hd firstn app map]. split.
  - destruct (map (fun l => replace l "<exec>" name) (skipn 7 (line :: lines)))
      as [|l ls].
    + exists "". cbn [concat]. now rewrite string_app_nil_r.
    + eexists. cbn [concat]. reflexivity.
  - intro Hshort. rewrite skipn_all2 by exact Hshort. reflexivity.
Qed.

Lemma formatErrorMsg_short_message_witness :
  formatErrorMsg ("  File <exec>, line 1" ++ LF ++ "SyntaxError: invalid syntax") "a.py"
  = replace "  File <exec>, line 1" "<exec>" "a.py".
Proof.
  apply (proj2 (formatErrorMsg_short_message
                  ("  File <exec>, line 1" ++ LF ++ "SyntaxError: invalid syntax") "a.py")).
  vm_compute. lia.
Defined.
